(** * gobjects.cpp: shapes, containers and their geometry

    A shallow embedding of [StanfordCPPLib/graphics/gobjects.cpp].

    Conventions of the embedding.
    - A C++ [double] is an exact rational ([Q]): rounding, infinities and
      NaN are outside this reading.  A division whose divisor is zero has no
      rational value; it is recorded as the outcome [DivisionByZero], so
      that "a division by zero is evaluated" is a statement of the model.
      What a containment test answers at the edge of its tolerance depends
      on rounding: the tests of GLine, GOval, GRoundRect and GArc are given
      a second time in binary64, the arithmetic the code runs in (module
      [Binary64]), and a statement names the reading it is about.
    - [error(msg)] throws; a method that may throw is a computation of the
      state-and-exception monad [Stm]: it returns the state it has reached
      together with either a value or the exception.
    - An object is known by its address.  The scene graph keeps the
      [_parent] field of every object and the [_contents] vector of every
      GCompound in two finite maps indexed by address, so that aliasing
      (one object reachable from several vectors) is visible.
    - Repainting talks to the Qt widget only; it changes no field of the
      objects and is the empty computation here.  The walk up the parent
      pointers that [GObject::repaint] makes before it repaints is modelled
      on its own, on the scene graph ([GObjectPtr.repaint]). *)

From Stdlib Require Import QArith Qabs Qround Lqa ZArith List String Bool Lia.
From Stdlib Require PrimFloat.
From stdpp Require Import base option list gmap strings.

(** ** Doubles *)

Definition Qltb (a b : Q) : bool := negb (Qle_bool b a).

Declare Scope double_scope.
Delimit Scope double_scope with dbl.
Infix "<?" := Qltb (at level 70, no associativity) : double_scope.
Infix "<=?" := Qle_bool (at level 70, no associativity) : double_scope.
Notation "a >? b" := (Qltb b a) (at level 70, no associativity) : double_scope.
Notation "a >=? b" := (Qle_bool b a) (at level 70, no associativity) : double_scope.

(** [std::min(a, b)] is [(b < a) ? b : a], [std::max(a, b)] is
    [(a < b) ? b : a]. *)
Definition std_min (a b : Q) : Q := if (b <? a)%dbl then b else a.
Definition std_max (a b : Q) : Q := if (a <? b)%dbl then b else a.

(** The cast [(int) d] truncates toward zero. *)
Definition to_int (d : Q) : Z := if (0 <=? d)%dbl then Qfloor d else Qceiling d.

(** [fmod(a, b)]: the remainder of [a / b] with the sign of [a]. *)
Definition fmod (a b : Q) : Q := (a - b * inject_Z (to_int (a / b)))%Q.

(** Modelled from the spec: the tolerance of [floatingPointEqual], which
    is declared in gmath.h and is not part of this file.  The proofs use of
    it only that it is not negative. *)
Definition FLOAT_TOLERANCE : Q := 1e-10.

(** Modelled from the spec: [floatingPointEqual] is declared in gmath.h,
    which is not part of this file; the spec writes its use as "rx or
    ry ≈ 0".  It is equality up to the tolerance. *)
Definition floatingPointEqual (f1 f2 : Q) : bool :=
  (Qabs (f1 - f2) <=? FLOAT_TOLERANCE)%dbl.

(** The static constants of the file. *)
Definition LINE_TOLERANCE : Q := 1.5.
Definition ARC_TOLERANCE : Q := 2.5.

(** ** Outcomes of floating-point expressions *)

Inductive outcome (A : Type) : Type :=
| Finite (a : A)
| DivisionByZero.
Arguments Finite {A} a.
Arguments DivisionByZero {A}.

#[global] Instance outcome_ret : MRet outcome := fun A a => Finite a.
#[global] Instance outcome_bind : MBind outcome := fun A B k m =>
  match m with
  | Finite a => k a
  | DivisionByZero => DivisionByZero
  end.

(** [a / b] as the code evaluates it. *)
Definition divide (a b : Q) : outcome Q :=
  if Qeq_bool b 0 then DivisionByZero else Finite (a / b)%Q.

(** ** Methods that may throw *)

Inductive res (A : Type) : Type :=
| Ok (a : A)
| ErrorException (msg : string).
Arguments Ok {A} a.
Arguments ErrorException {A} msg.

Definition Stm (S A : Type) : Type := S -> res A * S.

#[global] Instance stm_ret {S} : MRet (Stm S) := fun A a s => (Ok a, s).
#[global] Instance stm_bind {S} : MBind (Stm S) := fun A B k m s =>
  match m s with
  | (Ok a, s') => k a s'
  | (ErrorException msg, s') => (ErrorException msg, s')
  end.

(** Modelled from the spec: [error] is declared in error.h, which is not
    part of this file; it aborts the call with the message ("immediate
    aborting failures with a descriptive message"). *)
Definition error {S A} (msg : string) : Stm S A := fun s => (ErrorException msg, s).
Definition gets {S A} (f : S -> A) : Stm S A := fun s => (Ok (f s), s).
Definition modify {S} (f : S -> S) : Stm S unit := fun s => (Ok tt, f s).

(** The state a method leaves behind, whether it returned or threw. *)
Definition state_after {S A} (m : Stm S A) (s : S) : S := snd (m s).
Definition succeeds {S A} (m : Stm S A) (s : S) : bool :=
  match fst (m s) with
  | Ok _ => true
  | ErrorException _ => false
  end.

(** Modelled from the spec: [require::inRange] is declared in require.h,
    which is not part of this file.  The spec gives its contract at its one
    use: [setOpacity] "fails if the argument is outside [0,1]". *)
Definition require_inRange {S} (value lo hi : Q) (caller : string) : Stm S unit :=
  if ((lo <=? value) && (value <=? hi))%dbl then mret tt
  else error (caller ++ ": value is out of range").

(** Modelled from the spec: [require::inRange2D] (require.h); pixel access
    fails "outside an image's current bounds", the bounds being 0 and the
    given maxima. *)
Definition require_inRange2D {S} (x y maxX maxY : Z) (caller : string) : Stm S unit :=
  if ((0 <=? x) && (x <=? maxX) && (0 <=? y) && (y <=? maxY))%Z then mret tt
  else error (caller ++ ": coordinates are out of range").

(** Modelled from the spec: [require::nonNull] (require.h); a container
    "rejects a null/absent shape". *)
Definition require_nonNull {S A} (p : option A) (caller : string) : Stm S A :=
  match p with
  | Some a => mret a
  | None => error (caller ++ ": value must be non-null")
  end.

(** ** GRectangle and QPointF (value types) *)

Module GRectangle.

(** Modelled from the spec: GRectangle is declared in gtypes.h, which is
    not part of this file: a box given by its corner and its size. *)
Record t : Type := mk { getX : Q; getY : Q; getWidth : Q; getHeight : Q }.

(** Modelled from the spec: [GRectangle::contains] (gtypes.h).  Box
    containment; the left and top edges belong to the box. *)
Definition contains (r : t) (x y : Q) : bool :=
  ((getX r <=? x) && (getY r <=? y)
   && (x <? getX r + getWidth r) && (y <? getY r + getHeight r))%dbl.

End GRectangle.

Module QPointF.

Record t : Type := mk { x : Q; y : Q }.

(** The two points have the same coordinates. *)
Definition same (p q : t) : bool := Qeq_bool (x p) (x q) && Qeq_bool (y p) (y q).

(** [operator==] of QPointF is Qt's, not this library's, and it is not
    exact: Qt 5 (qpoint.h) returns
    [qFuzzyIsNull(p1.xp - p2.xp) && qFuzzyIsNull(p1.yp - p2.yp)], where
    [qFuzzyIsNull(d)] is [qAbs(d) <= 0.000000000001] (qglobal.h).  Later
    versions compare two non-zero coordinates relatively; they agree with
    this one when a coordinate of either point is zero.  The methods that
    use [==] take the comparison as a parameter; [fuzzy_eqb] is the one
    above. *)
Definition qFuzzyIsNull (d : Q) : bool := (Qabs d <=? 1e-12)%dbl.
Definition fuzzy_eqb (p1 p2 : t) : bool :=
  qFuzzyIsNull (x p1 - x p2) && qFuzzyIsNull (y p1 - y p2).

End QPointF.

(** ** GObject *)

Module GObject.

Inductive LineStyle : Type :=
| LINE_NONE | LINE_SOLID | LINE_DASH | LINE_DOT | LINE_DASH_DOT | LINE_DASH_DOT_DOT.

(** [QTransform] is Qt's; the model keeps the operations applied to the
    identity, latest first. *)
Inductive QTransformOp : Type :=
| Rotate (theta : Q)
| Scale (sx sy : Q).

Record t : Type := mk {
  _x : Q;
  _y : Q;
  _width : Q;
  _height : Q;
  _lineWidth : Q;
  _opacity : Q;
  _lineStyle : LineStyle;
  _color : string;
  _colorInt : Z;
  _fillColor : string;
  _fillColorInt : Z;
  _font : string;
  _fillFlag : bool;
  _visible : bool;
  _transformed : bool;
  _transform : list QTransformOp
}.

(** The constructor [GObject(x, y, width, height)]. *)
Definition new (x y width height : Q) : t :=
  mk x y width height 1 1 LINE_SOLID "" 0 "" 0 "" false true false [].

(** Field assignments. *)
Definition set_x (v : Q) (o : t) : t :=
  mk v (_y o) (_width o) (_height o) (_lineWidth o) (_opacity o) (_lineStyle o) (_color o)
     (_colorInt o) (_fillColor o) (_fillColorInt o) (_font o) (_fillFlag o) (_visible o)
     (_transformed o) (_transform o).
Definition set_y (v : Q) (o : t) : t :=
  mk (_x o) v (_width o) (_height o) (_lineWidth o) (_opacity o) (_lineStyle o) (_color o)
     (_colorInt o) (_fillColor o) (_fillColorInt o) (_font o) (_fillFlag o) (_visible o)
     (_transformed o) (_transform o).
Definition set_width (v : Q) (o : t) : t :=
  mk (_x o) (_y o) v (_height o) (_lineWidth o) (_opacity o) (_lineStyle o) (_color o)
     (_colorInt o) (_fillColor o) (_fillColorInt o) (_font o) (_fillFlag o) (_visible o)
     (_transformed o) (_transform o).
Definition set_height (v : Q) (o : t) : t :=
  mk (_x o) (_y o) (_width o) v (_lineWidth o) (_opacity o) (_lineStyle o) (_color o)
     (_colorInt o) (_fillColor o) (_fillColorInt o) (_font o) (_fillFlag o) (_visible o)
     (_transformed o) (_transform o).
Definition set_opacity (v : Q) (o : t) : t :=
  mk (_x o) (_y o) (_width o) (_height o) (_lineWidth o) v (_lineStyle o) (_color o)
     (_colorInt o) (_fillColor o) (_fillColorInt o) (_font o) (_fillFlag o) (_visible o)
     (_transformed o) (_transform o).
Definition set_fillFlag (v : bool) (o : t) : t :=
  mk (_x o) (_y o) (_width o) (_height o) (_lineWidth o) (_opacity o) (_lineStyle o) (_color o)
     (_colorInt o) (_fillColor o) (_fillColorInt o) (_font o) v (_visible o)
     (_transformed o) (_transform o).
Definition set_transformed (v : bool) (o : t) : t :=
  mk (_x o) (_y o) (_width o) (_height o) (_lineWidth o) (_opacity o) (_lineStyle o) (_color o)
     (_colorInt o) (_fillColor o) (_fillColorInt o) (_font o) (_fillFlag o) (_visible o)
     v (_transform o).
Definition set_transform (v : list QTransformOp) (o : t) : t :=
  mk (_x o) (_y o) (_width o) (_height o) (_lineWidth o) (_opacity o) (_lineStyle o) (_color o)
     (_colorInt o) (_fillColor o) (_fillColorInt o) (_font o) (_fillFlag o) (_visible o)
     (_transformed o) v.

(** The base-class getters (GLine and GPolygon override width and height). *)
Definition getX (o : t) : Q := _x o.
Definition getY (o : t) : Q := _y o.
Definition getWidth (o : t) : Q := _width o.
Definition getHeight (o : t) : Q := _height o.
Definition getRightX (o : t) : Q := (getX o + getWidth o)%Q.
Definition getBottomY (o : t) : Q := (getY o + getHeight o)%Q.
Definition isFilled (o : t) : bool := _fillFlag o.

(** Both branches of the source return the same box. *)
Definition getBounds (o : t) : GRectangle.t :=
  if _transformed o
  then GRectangle.mk (getX o) (getY o) (getWidth o) (getHeight o)
  else GRectangle.mk (getX o) (getY o) (getWidth o) (getHeight o).

Definition contains (o : t) (x y : Q) : bool :=
  if _transformed o
  then GRectangle.contains (getBounds o) x y
  else GRectangle.contains (getBounds o) x y.

Definition repaint : Stm t unit := mret tt.

Definition resetTransform : Stm t unit :=
  modify (set_transform []);;
  modify (set_transformed false);;
  repaint.

Definition rotate (theta : Q) : Stm t unit :=
  modify (set_transformed true);;
  modify (fun o => set_transform (Rotate theta :: _transform o) o);;
  repaint.

Definition scale2 (sx sy : Q) : Stm t unit :=
  modify (set_transformed true);;
  modify (fun o => set_transform (Scale sx sy :: _transform o) o);;
  repaint.

Definition scale (sf : Q) : Stm t unit := scale2 sf sf.

Definition setLocation (x y : Q) : Stm t unit :=
  modify (set_x x);;
  modify (set_y y);;
  repaint.

Definition setBounds (x y width height : Q) : Stm t unit :=
  modify (set_x x);;
  modify (set_y y);;
  modify (set_width width);;
  modify (set_height height);;
  repaint.

Definition setBounds_rect (bounds : GRectangle.t) : Stm t unit :=
  setBounds (GRectangle.getX bounds) (GRectangle.getY bounds)
            (GRectangle.getWidth bounds) (GRectangle.getHeight bounds).

Definition setFilled (flag : bool) : Stm t unit :=
  modify (set_fillFlag flag);;
  repaint.

Definition setOpacity (opacity : Q) : Stm t unit :=
  require_inRange opacity 0 1 "GObject::setOpacity";;
  modify (set_opacity opacity);;
  repaint.

Definition setSize (width height : Q) : Stm t unit :=
  transformed ← gets _transformed;
  (if transformed : bool
   then error "GObject::setSize: Object has been transformed"
   else mret tt);;
  modify (set_width width);;
  modify (set_height height);;
  repaint.

Definition setHeight (height : Q) : Stm t unit :=
  width ← gets getWidth;
  setSize width height.

Definition setWidth (width : Q) : Stm t unit :=
  height ← gets getHeight;
  setSize width height.

(** *** Locations derived from the corner and the size *)

Definition getCenterX (o : t) : Q := (getX o + getWidth o / 2)%Q.
Definition getCenterY (o : t) : Q := (getY o + getHeight o / 2)%Q.

Definition move (dx dy : Q) : Stm t unit :=
  x ← gets getX;
  y ← gets getY;
  setLocation (x + dx) (y + dy).

Definition setBottomRightLocation (x y : Q) : Stm t unit :=
  width ← gets getWidth;
  height ← gets getHeight;
  setLocation (x - width) (y - height).

Definition setBottomY (y : Q) : Stm t unit :=
  rightX ← gets getRightX;
  setBottomRightLocation rightX y.

Definition setRightX (x : Q) : Stm t unit :=
  bottomY ← gets getBottomY;
  setBottomRightLocation x bottomY.

Definition setCenterLocation (x y : Q) : Stm t unit :=
  width ← gets getWidth;
  height ← gets getHeight;
  setLocation (x - width / 2) (y - height / 2).

Definition setCenterX (x : Q) : Stm t unit :=
  centerY ← gets getCenterY;
  setCenterLocation x centerY.

Definition setCenterY (y : Q) : Stm t unit :=
  centerX ← gets getCenterX;
  setCenterLocation centerX y.

Definition setX (x : Q) : Stm t unit :=
  y ← gets getY;
  setLocation x y.

Definition setY (y : Q) : Stm t unit :=
  x ← gets getX;
  setLocation x y.

End GObject.

(** ** GArc *)

Module GArc.

Record t : Type := mk { obj : GObject.t; _start : Q; _sweep : Q }.

Definition containsAngle (a : t) (theta : Q) : bool :=
  let start := std_min (_start a) (_start a + _sweep a) in
  let sweep := Qabs (_sweep a) in
  if (sweep >=? 360)%dbl then true
  else
    let theta := if (theta <? 0)%dbl then (360 - fmod (- theta) 360)%Q else fmod theta 360 in
    let start := if (start <? 0)%dbl then (360 - fmod (- start) 360)%Q else fmod start 360 in
    if (start + sweep >? 360)%dbl
    then ((theta >=? start) || (theta <=? start + sweep - 360))%dbl
    else ((theta >=? start) && (theta <=? start + sweep))%dbl.

(** [atan2_degrees a b] stands for [atan2(a, b) * 180 / PI]: the arc
    tangent is the C library's and stays a parameter. *)
Definition contains (atan2_degrees : Q -> Q -> Q) (a : t) (x y : Q) : outcome bool :=
  let rx := (GObject.getWidth (obj a) / 2)%Q in
  let ry := (GObject.getHeight (obj a) / 2)%Q in
  if floatingPointEqual rx 0 || floatingPointEqual ry 0 then mret false
  else
    let dx := (x - (GObject.getX (obj a) + rx))%Q in
    let dy := (y - (GObject.getY (obj a) + ry))%Q in
    r1 ← divide (dx * dx) (rx * rx);
    r2 ← divide (dy * dy) (ry * ry);
    let r := (r1 + r2)%Q in
    rejected ←
      (if GObject.isFilled (obj a)
       then mret (r >? 1)%dbl
       else
         t ← divide ARC_TOLERANCE ((rx + ry) / 2);
         mret (Qabs (1 - r) >? t)%dbl);
    if rejected : bool then mret false
    else
      sy ← divide (- dy) ry;
      sx ← divide dx rx;
      mret (containsAngle a (atan2_degrees sy sx)).

(** [cos], [sin] and [PI] are the C library's and stay parameters.  The
    sums and differences are exact here; [Binary64.GArc.getBounds] is the
    same method with every operation rounded. *)
Definition getBounds (cos sin : Q -> Q) (PI : Q) (a : t) : GRectangle.t :=
  let rx := (GObject.getWidth (obj a) / 2)%Q in
  let ry := (GObject.getHeight (obj a) / 2)%Q in
  let cx := (GObject.getX (obj a) + rx)%Q in
  let cy := (GObject.getY (obj a) + ry)%Q in
  let startRadians := (_start a * PI / 180)%Q in
  let sweepRadians := (_sweep a * PI / 180)%Q in
  let p1x := (cx + cos startRadians * rx)%Q in
  let p1y := (cy - sin startRadians * ry)%Q in
  let p2x := (cx + cos (startRadians + sweepRadians) * rx)%Q in
  let p2y := (cy - sin (startRadians + sweepRadians) * ry)%Q in
  let xMin := std_min p1x p2x in
  let xMax := std_max p1x p2x in
  let yMin := std_min p1y p2y in
  let yMax := std_max p1y p2y in
  let xMax := if containsAngle a 0 then (cx + rx)%Q else xMax in
  let yMin := if containsAngle a 90 then (cy - ry)%Q else yMin in
  let xMin := if containsAngle a 180 then (cx - rx)%Q else xMin in
  let yMax := if containsAngle a 270 then (cy + ry)%Q else yMax in
  let xMin := if GObject.isFilled (obj a) then std_min xMin cx else xMin in
  let yMin := if GObject.isFilled (obj a) then std_min yMin cy else yMin in
  let xMax := if GObject.isFilled (obj a) then std_max xMax cx else xMax in
  let yMax := if GObject.isFilled (obj a) then std_max yMax cy else yMax in
  GRectangle.mk xMin yMin (xMax - xMin) (yMax - yMin).

End GArc.

(** ** GLine *)

Module GLine.

Record t : Type := mk { obj : GObject.t; _dx : Q; _dy : Q }.

(** The constructor [GLine(x0, y0, x1, y1)]. *)
Definition new (x0 y0 x1 y1 : Q) : t :=
  mk (GObject.new x0 y0 0 0) (x1 - x0) (y1 - y0).

(** The square of the distance between two points. *)
Definition dsq (x0 y0 x1 y1 : Q) : Q :=
  ((x1 - x0) * (x1 - x0) + (y1 - y0) * (y1 - y0))%Q.

Definition getStartX (l : t) : Q := GObject.getX (obj l).
Definition getStartY (l : t) : Q := GObject.getY (obj l).
Definition getEndX (l : t) : Q := (GObject.getX (obj l) + _dx l)%Q.
Definition getEndY (l : t) : Q := (GObject.getY (obj l) + _dy l)%Q.

Definition getWidth (l : t) : Q := Qabs (_dx l).
Definition getHeight (l : t) : Q := Qabs (_dy l).

Definition getBounds (l : t) : GRectangle.t :=
  let x0 := if (_dx l <? 0)%dbl then (GObject.getX (obj l) + _dx l)%Q else GObject.getX (obj l) in
  let y0 := if (_dy l <? 0)%dbl then (GObject.getY (obj l) + _dy l)%Q else GObject.getY (obj l) in
  GRectangle.mk x0 y0 (getWidth l) (getHeight l).

(** The comparisons are made on exact squared distances here;
    [Binary64.GLine.contains] is the same method with every operation
    rounded. *)
Definition contains (l : t) (x y : Q) : outcome bool :=
  let x0 := GObject.getX (obj l) in
  let y0 := GObject.getY (obj l) in
  let x1 := (x0 + _dx l)%Q in
  let y1 := (y0 + _dy l)%Q in
  let tSquared := (LINE_TOLERANCE * LINE_TOLERANCE)%Q in
  if (dsq x y x0 y0 <? tSquared)%dbl then mret true
  else if (dsq x y x1 y1 <? tSquared)%dbl then mret true
  else if (x <? std_min x0 x1 - LINE_TOLERANCE)%dbl then mret false
  else if (x >? std_max x0 x1 + LINE_TOLERANCE)%dbl then mret false
  else if (y <? std_min y0 y1 - LINE_TOLERANCE)%dbl then mret false
  else if (y >? std_max y0 y1 + LINE_TOLERANCE)%dbl then mret false
  else if floatingPointEqual (x0 - x1) 0 && floatingPointEqual (y0 - y1) 0 then mret false
  else
    u ← divide ((x - x0) * (x1 - x0) + (y - y0) * (y1 - y0)) (dsq x0 y0 x1 y1);
    mret (dsq x y (x0 + u * (x1 - x0)) (y0 + u * (y1 - y0)) <? tSquared)%dbl.

(** A method of the GObject part of the line. *)
Definition lift_obj {A} (m : Stm GObject.t A) : Stm t A :=
  fun l => let '(r, o) := m (obj l) in (r, mk o (_dx l) (_dy l)).

Definition setEndPoint (x y : Q) : Stm t unit :=
  modify (fun l => mk (obj l) (x - GObject.getX (obj l)) (_dy l));;
  modify (fun l => mk (obj l) (_dx l) (y - GObject.getY (obj l)));;
  lift_obj GObject.repaint.

Definition setStartPoint (x y : Q) : Stm t unit :=
  modify (fun l => mk (obj l) (_dx l + (GObject.getX (obj l) - x)) (_dy l));;
  modify (fun l => mk (obj l) (_dx l) (_dy l + (GObject.getY (obj l) - y)));;
  lift_obj (GObject.setLocation x y).

End GLine.

(** ** GOval *)

Module GOval.

(** The quotients are exact here; [Binary64.GOval.contains] is the same
    method with every operation rounded. *)
Definition contains (o : GObject.t) (x y : Q) : outcome bool :=
  let rx := (GObject.getWidth o / 2)%Q in
  let ry := (GObject.getHeight o / 2)%Q in
  if floatingPointEqual rx 0 || floatingPointEqual ry 0 then mret false
  else
    let dx := (x - (GObject.getX o + rx))%Q in
    let dy := (y - (GObject.getY o + ry))%Q in
    r1 ← divide (dx * dx) (rx * rx);
    r2 ← divide (dy * dy) (ry * ry);
    mret (r1 + r2 <=? 1)%dbl.

End GOval.

(** ** GRoundRect *)

Module GRoundRect.

Record t : Type := mk { obj : GObject.t; _corner : Q }.

(** The constructor [GRoundRect(x, y, width, height, corner)]; it throws
    on a negative corner. *)
Definition new (x y width height corner : Q) : res t :=
  if (0 <=? corner)%dbl then Ok (mk (GObject.new x y width height) corner)
  else ErrorException "GRoundRect::constructor: corner must be non-negative".

(** The quotients are exact here, and a divisor is zero only when [a] or
    [b] is; [Binary64.GRoundRect.contains] is the same method with every
    operation rounded, where [a * a] can underflow to zero. *)
Definition contains (r : t) (x y : Q) : outcome bool :=
  if negb (GRectangle.contains (GObject.getBounds (obj r)) x y) then mret false
  else
    let a := (std_min (_corner r) (GObject.getWidth (obj r)) / 2)%Q in
    let b := (std_min (_corner r) (GObject.getHeight (obj r)) / 2)%Q in
    let dx := std_min (Qabs (x - GObject.getX (obj r))) (Qabs (x - GObject.getRightX (obj r))) in
    let dy := std_min (Qabs (y - GObject.getY (obj r))) (Qabs (y - GObject.getBottomY (obj r))) in
    if ((dx >? a) || (dy >? b))%dbl then mret true
    else
      ex ← divide ((dx - a) * (dx - a)) (a * a);
      ey ← divide ((dy - b) * (dy - b)) (b * b);
      mret (ex + ey <=? 1)%dbl.

End GRoundRect.

(** ** GPolygon *)

(** The running extremes [xMin], [yMin], [xMax], [yMax] of a bounding-box
    loop. *)
Record Extent : Type := mkExtent { xMin : Q; yMin : Q; xMax : Q; yMax : Q }.

Module GPolygon.

Record t : Type := mk {
  obj : GObject.t;
  _vertices : list QPointF.t;
  _cx : Q;
  _cy : Q
}.

Definition origin : QPointF.t := QPointF.mk 0 0.

(** [_vertices[i]]; every index the code uses is in range. *)
Definition at_ (vs : list QPointF.t) (i : nat) : QPointF.t := nth i vs origin.

(** The test of one edge in [contains]:
    [(y0 > y) != (y1 > y) && x - x0 < (x1 - x0) * (y - y0) / (y1 - y0)];
    the right operand of [&&] is evaluated only when the left one holds. *)
Definition crossing (x y x0 y0 x1 y1 : Q) : outcome bool :=
  if negb (eqb (y0 >? y)%dbl (y1 >? y)%dbl)
  then
    q ← divide ((x1 - x0) * (y - y0)) (y1 - y0);
    mret (x - x0 <? q)%dbl
  else mret false.

(** The loop [for (int i = 1; i <= n; i++)], with [todo] iterations left. *)
Fixpoint contains_loop (vs : list QPointF.t) (n : nat) (x y : Q)
    (todo i crossings : nat) (x0 y0 : Q) : outcome nat :=
  match todo with
  | O => mret crossings
  | S todo' =>
      let x1 := QPointF.x (at_ vs (i mod n)) in
      let y1 := QPointF.y (at_ vs (i mod n)) in
      c ← crossing x y x0 y0 x1 y1;
      contains_loop vs n x y todo' (S i) (if c : bool then S crossings else crossings) x1 y1
  end.

(** [eqb] is [operator==] of QPointF (Qt's), which closes the ring. *)
Definition contains (eqb : QPointF.t -> QPointF.t -> bool) (p : t) (x y : Q) : outcome bool :=
  let vs := _vertices p in
  let n := length vs in
  if (n <? 2)%nat then mret false
  else
    let n := if eqb (at_ vs 0) (at_ vs (n - 1)) then (n - 1)%nat else n in
    crossings ← contains_loop vs n x y n 1 0 (QPointF.x (at_ vs 0)) (QPointF.y (at_ vs 0));
    mret (crossings mod 2 =? 1)%nat.

(** One iteration of the loop of [getBounds], at index [i]. *)
Definition getBounds_step (acc : nat * Extent) (v : QPointF.t) : nat * Extent :=
  let '(i, e) := acc in
  let x := QPointF.x v in
  let y := QPointF.y v in
  (S i,
   mkExtent (if (i =? 0)%nat || (x <? xMin e)%dbl then x else xMin e)
            (if (i =? 0)%nat || (y <? yMin e)%dbl then y else yMin e)
            (if (i =? 0)%nat || (x >? xMax e)%dbl then x else xMax e)
            (if (i =? 0)%nat || (y >? yMax e)%dbl then y else yMax e)).

Definition getBounds (p : t) : GRectangle.t :=
  let e := snd (fold_left getBounds_step (_vertices p) (O, mkExtent 0 0 0 0)) in
  GRectangle.mk (xMin e + GObject.getX (obj p)) (yMin e + GObject.getY (obj p))
                (xMax e - xMin e) (yMax e - yMin e).

Definition getHeight (p : t) : Q := GRectangle.getHeight (getBounds p).

Definition getWidth (p : t) : Q := GRectangle.getHeight (getBounds p).

(** *** Building the vertex list *)

Definition repaint : Stm t unit := mret tt.

Definition addVertex (x y : Q) : Stm t unit :=
  modify (fun p => mk (obj p) (_vertices p) x (_cy p));;
  modify (fun p => mk (obj p) (_vertices p) (_cx p) y);;
  modify (fun p => mk (obj p) (_vertices p ++ [QPointF.mk (_cx p) (_cy p)]) (_cx p) (_cy p));;
  repaint.

Definition addEdge (dx dy : Q) : Stm t unit :=
  cx ← gets _cx;
  cy ← gets _cy;
  addVertex (cx + dx) (cy + dy).

(** The loop of [addVertexes(std::initializer_list<double>)]: [i], [x] and
    [y] are its local variables. *)
Fixpoint addVertexes_loop (coords : list Q) (i : nat) (x y : Q) : Stm t unit :=
  match coords with
  | [] => mret tt
  | d :: coords' =>
      if (i mod 2 =? 0)%nat
      then addVertexes_loop coords' (S i) d y
      else (addVertex x d;; addVertexes_loop coords' (S i) x d)
  end.

Definition addVertexes (coords : list Q) : Stm t unit := addVertexes_loop coords 0 0 0.



Definition clear : Stm t unit :=
  modify (fun p => mk (obj p) [] (_cx p) (_cy p));;
  repaint.

Definition getVertexCount (p : t) : nat := length (_vertices p).

(** [getVertex(i)] returns the point [GPoint(x, y)], here a pair. *)
Definition getVertex (p : t) (i : nat) : Q * Q :=
  (QPointF.x (at_ (_vertices p) i), QPointF.y (at_ (_vertices p) i)).

(** [QVector]'s [operator[]] is unchecked; an index out of range is outside
    the model, where it leaves the vertices alone. *)
Definition setVertex (i : nat) (point : Q * Q) : Stm t unit :=
  modify (fun p => mk (obj p)
                      (alter (fun v => QPointF.mk (fst point) (QPointF.y v)) i (_vertices p))
                      (_cx p) (_cy p));;
  modify (fun p => mk (obj p)
                      (alter (fun v => QPointF.mk (QPointF.x v) (snd point)) i (_vertices p))
                      (_cx p) (_cy p));;
  repaint.

End GPolygon.

(** ** GImage *)

(** [QImage] is Qt's pixel buffer: an opaque handle with its two accessors. *)
Class QImageApi : Type := {
  QImage : Type;
  QImage_pixel : QImage -> Z -> Z -> Z;
  QImage_setPixel : QImage -> Z -> Z -> Z -> QImage
}.

Module GImage.

Section WithQImage.
Context `{QImageApi}.

Record t : Type := mk { obj : GObject.t; _filename : string; _qimage : QImage }.

Definition set_qimage (q : QImage) (img : t) : t := mk (obj img) (_filename img) q.

Definition getPixel (x y : Z) : Stm t Z :=
  width ← gets (fun img => GObject.getWidth (obj img));
  height ← gets (fun img => GObject.getHeight (obj img));
  require_inRange2D x y (to_int width - 1) (to_int height - 1) "GImage::getPixel";;
  gets (fun img => QImage_pixel (_qimage img) x y).

Definition setPixel (x y rgb : Z) : Stm t unit :=
  modify (fun img => set_qimage (QImage_setPixel (_qimage img) x y rgb) img).

End WithQImage.

End GImage.

(** ** Vector *)

Module Vector.

(** Modelled from the spec: the library's Vector class is declared in
    vector.h, which is not part of this file.  A Vector is the sequence of
    its elements ("an ordered sequence of owned Shapes"). *)
Definition size {A} (v : list A) : Z := Z.of_nat (length v).

(** Modelled from the spec: [Vector::get] and [operator[]]; "looking up by
    out-of-range index" is a contract violation. *)
Definition get {A} (v : list A) (index : Z) : res A :=
  if ((0 <=? index) && (index <? size v))%Z
  then match v !! Z.to_nat index with
       | Some a => Ok a
       | None => ErrorException "Vector::get: index out of range"
       end
  else ErrorException "Vector::get: index out of range".

(** Modelled from the spec: [Vector::add] "appends to the end". *)
Definition add {A} (v : list A) (value : A) : list A := v ++ [value].

(** Modelled from the spec: [Vector::remove] takes the element at the
    index out; the index is checked as in [get]. *)
Definition remove {A} (v : list A) (index : Z) : res (list A) :=
  if ((0 <=? index) && (index <? size v))%Z
  then Ok (delete (Z.to_nat index) v)
  else ErrorException "Vector::remove: index out of range".

(** Modelled from the spec: [Vector::insert] puts the value before the
    element at the index ("reinserting at the target index"); the index may
    be the size. *)
Definition insert {A} (v : list A) (index : Z) (value : A) : res (list A) :=
  if ((0 <=? index) && (index <=? size v))%Z
  then Ok (take (Z.to_nat index) v ++ value :: drop (Z.to_nat index) v)
  else ErrorException "Vector::insert: index out of range".

End Vector.

(** ** GCompound *)

(** The address of an object; [None] is the null pointer. *)
Abbreviation addr := positive.

Module GCompound.

(** *** Aggregate bounds *)

(** One iteration of the loop of [getBounds]; [bounds] is what
    [_contents.get(i)->getBounds()] returned. *)
Definition getBounds_step (e : Extent) (bounds : GRectangle.t) : Extent :=
  mkExtent
    (std_min (xMin e) (GRectangle.getX bounds))
    (std_min (yMin e) (GRectangle.getY bounds))
    (std_max (xMax e) (GRectangle.getX bounds))
    (std_max (yMax e) (GRectangle.getY bounds)).

(** [getBounds] of the compound [this] whose children, in index order,
    have the bounds [childBounds]. *)
Definition getBounds (this : GObject.t) (childBounds : list GRectangle.t) : GRectangle.t :=
  let e := fold_left getBounds_step childBounds (mkExtent 1e20 1e20 (-1e20) (-1e20)) in
  GRectangle.mk (xMin e + GObject.getX this) (yMin e + GObject.getY this)
                (xMax e - xMin e) (yMax e - yMin e).

(** *** The scene graph *)

Record Heap : Type := mkHeap {
  parent : gmap positive positive;
  contents : gmap positive (list positive)
}.

(** No object has a parent and every compound is empty. *)
Definition empty_heap : Heap := mkHeap ∅ ∅.

(** [gobj->_parent] (absent: [nullptr]) and [this->_contents]. *)
Definition parent_of (h : Heap) (gobj : addr) : option addr := parent h !! gobj.
Definition contents_of (h : Heap) (this : addr) : list addr := default [] (contents h !! this).

Definition set_parent (gobj : addr) (p : option addr) (h : Heap) : Heap :=
  mkHeap (match p with
          | Some c => <[gobj := c]> (parent h)
          | None => delete gobj (parent h)
          end)
         (contents h).

Definition set_contents (this : addr) (v : list addr) (h : Heap) : Heap :=
  mkHeap (parent h) (<[this := v]> (contents h)).

Definition lift {A} (r : res A) : Stm Heap A := fun h => (r, h).

Definition conditionalRepaint : Stm Heap unit := mret tt.
Definition conditionalRepaintRegion : Stm Heap unit := mret tt.

(** The statements of [add]: what the call throws, or the state it leaves
    when it returns.  The argument of the last statement,
    [gobj->getBounds()], is evaluated before [conditionalRepaintRegion] is
    called; whether that evaluation returns is the matter of [add_call]
    below. *)
Definition add (this : addr) (gobj : option addr) : Stm Heap unit :=
  g ← require_nonNull gobj "GCompound::add";
  modify (fun h => set_contents this (Vector.add (contents_of h this) g) h);;
  modify (set_parent g (Some this));;
  conditionalRepaintRegion.

(** The evaluation of [g->getBounds()] on the scene graph.
    [GCompound::getBounds] calls [getBounds()] of every child, in index
    order; [getBounds] of a shape that is no compound, which has no
    children, calls none.  [getBounds_returns fuel h g] tells whether the
    evaluation for [g] returns with at most [fuel] calls nested in one
    another. *)
Fixpoint getBounds_returns (fuel : nat) (h : Heap) (g : addr) : bool :=
  match fuel with
  | O => false
  | S fuel' => forallb (getBounds_returns fuel' h) (contents_of h g)
  end.

(** The call [add(gobj)] as a whole: the result of [add] when the
    evaluation of [gobj->getBounds()], in the state the statements before
    it have reached, returns within [fuel] nested calls, and nothing when
    it does not.  A null [gobj] is rejected before. *)
Definition add_call (fuel : nat) (this : addr) (gobj : option addr) (h : Heap)
    : option (res unit * Heap) :=
  match gobj with
  | None => Some (add this None h)
  | Some g =>
      if getBounds_returns fuel (state_after (add this gobj) h) g
      then Some (add this gobj h)
      else None
  end.

(** The loop of [findGObject], from index [i] on. *)
Fixpoint findGObject_from (v : list addr) (gobj : addr) (i : Z) : Z :=
  match v with
  | [] => (-1)%Z
  | a :: v' => if decide (a = gobj) then i else findGObject_from v' gobj (i + 1)
  end.

Definition findGObject (this gobj : addr) : Stm Heap Z :=
  v ← gets (fun h => contents_of h this);
  mret (findGObject_from v gobj 0).

(** The statements of [removeAt]; as in [add], the argument
    [gobj->getBounds()] of the last one is evaluated in the state reached
    ([getBounds_returns]). *)
Definition removeAt (this : addr) (index : Z) : Stm Heap unit :=
  v ← gets (fun h => contents_of h this);
  gobj ← lift (Vector.get v index);
  v' ← lift (Vector.remove v index);
  modify (set_contents this v');;
  modify (set_parent gobj None);;
  conditionalRepaintRegion.

Definition remove (this : addr) (gobj : option addr) : Stm Heap unit :=
  g ← require_nonNull gobj "GCompound::remove";
  index ← findGObject this g;
  if (index =? -1)%Z then mret tt else removeAt this index.

Definition removeAll (this : addr) : Stm Heap unit :=
  contentsCopy ← gets (fun h => contents_of h this);
  let wasEmpty := (Vector.size contentsCopy =? 0)%Z in
  modify (set_contents this []);;
  modify (fun h => fold_left (fun h' obj => set_parent obj None h') contentsCopy h);;
  if wasEmpty then mret tt else conditionalRepaint.

(** [_contents.remove(index); _contents.insert(target, gobj)]. *)
Definition move_to (this : addr) (index target : Z) (gobj : addr) : Stm Heap unit :=
  v ← gets (fun h => contents_of h this);
  v' ← lift (Vector.remove v index);
  modify (set_contents this v');;
  v'' ← lift (Vector.insert v' target gobj);
  modify (set_contents this v'');;
  conditionalRepaint.

Definition sendBackward (this : addr) (gobj : option addr) : Stm Heap unit :=
  g ← require_nonNull gobj "GCompound::sendBackward";
  index ← findGObject this g;
  if (index =? -1)%Z then mret tt
  else if negb (index =? 0)%Z then move_to this index (index - 1) g
  else mret tt.

Definition sendForward (this : addr) (gobj : option addr) : Stm Heap unit :=
  g ← require_nonNull gobj "GCompound::sendForward";
  index ← findGObject this g;
  if (index =? -1)%Z then mret tt
  else
    sz ← gets (fun h => Vector.size (contents_of h this));
    if negb (index =? sz - 1)%Z then move_to this index (index + 1) g
    else mret tt.

Definition sendToBack (this : addr) (gobj : option addr) : Stm Heap unit :=
  g ← require_nonNull gobj "GCompound::sendToBack";
  index ← findGObject this g;
  if (index =? -1)%Z then mret tt
  else if negb (index =? 0)%Z then move_to this index 0 g
  else mret tt.

Definition sendToFront (this : addr) (gobj : option addr) : Stm Heap unit :=
  g ← require_nonNull gobj "GCompound::sendToFront";
  index ← findGObject this g;
  if (index =? -1)%Z then mret tt
  else
    sz ← gets (fun h => Vector.size (contents_of h this));
    if negb (index =? sz - 1)%Z
    then
      v ← gets (fun h => contents_of h this);
      v' ← lift (Vector.remove v index);
      modify (set_contents this v');;
      modify (fun h => set_contents this (Vector.add (contents_of h this) g) h);;
      conditionalRepaint
    else mret tt.

(** *** Sequences of container operations *)

Inductive Op : Type :=
| Add (this : addr) (gobj : option addr)
| Remove (this : addr) (gobj : option addr)
| RemoveAt (this : addr) (index : Z)
| RemoveAll (this : addr)
| SendBackward (this : addr) (gobj : option addr)
| SendForward (this : addr) (gobj : option addr)
| SendToBack (this : addr) (gobj : option addr)
| SendToFront (this : addr) (gobj : option addr).

Definition exec (op : Op) : Stm Heap unit :=
  match op with
  | Add this gobj => add this gobj
  | Remove this gobj => remove this gobj
  | RemoveAt this index => removeAt this index
  | RemoveAll this => removeAll this
  | SendBackward this gobj => sendBackward this gobj
  | SendForward this gobj => sendForward this gobj
  | SendToBack this gobj => sendToBack this gobj
  | SendToFront this gobj => sendToFront this gobj
  end.

(** The calls of [ops] in order; a call that throws leaves the state it
    had reached, and the caller goes on. *)
Definition run (ops : list Op) (h : Heap) : Heap :=
  fold_left (fun h' op => state_after (exec op) h') ops h.

(** Every [Add] of the sequence is given an object that has no parent at
    that moment. *)
Fixpoint adds_orphans (ops : list Op) (h : Heap) : bool :=
  match ops with
  | [] => true
  | op :: ops' =>
      match op with
      | Add _ (Some g) => bool_decide (parent_of h g = None)
      | _ => true
      end && adds_orphans ops' (state_after (exec op) h)
  end.

(** *** Hit testing and element access *)

(** The loops of [contains] and [getElementAt]; [hit g] is what
    [g->contains(x, y)] returns for the child [g]. *)
Fixpoint contains_loop (hit : addr -> bool) (v : list addr) : bool :=
  match v with
  | [] => false
  | g :: v' => if hit g then true else contains_loop hit v'
  end.

Definition contains (hit : addr -> bool) (this : addr) : Stm Heap bool :=
  v ← gets (fun h => contents_of h this);
  mret (contains_loop hit v).

Fixpoint getElementAt_loop (hit : addr -> bool) (v : list addr) : option addr :=
  match v with
  | [] => None
  | g :: v' => if hit g then Some g else getElementAt_loop hit v'
  end.

Definition getElementAt (hit : addr -> bool) (this : addr) : Stm Heap (option addr) :=
  v ← gets (fun h => contents_of h this);
  mret (getElementAt_loop hit v).

Definition getElement (this : addr) (index : Z) : Stm Heap addr :=
  v ← gets (fun h => contents_of h this);
  lift (Vector.get v index).

Definition getElementCount (this : addr) : Stm Heap Z :=
  gets (fun h => Vector.size (contents_of h this)).

Definition isEmpty (this : addr) : Stm Heap bool :=
  gets (fun h => (Vector.size (contents_of h this) =? 0)%Z).

Definition clear (this : addr) : Stm Heap unit := removeAll this.

End GCompound.

(** ** GObject: the methods that follow the parent pointer *)

Module GObjectPtr.

(** The loop of [GObject::repaint],
    [while (parent && parent->getParent()) parent = parent->getParent()],
    entered with a non-null [parent]; it gives the compound the loop ends
    on, or nothing when [fuel] iterations were not enough. *)
Fixpoint repaint_loop (fuel : nat) (h : GCompound.Heap) (parent : addr) : option addr :=
  match fuel with
  | O => None
  | S fuel' =>
      match GCompound.parent_of h parent with
      | Some p => repaint_loop fuel' h p
      | None => Some parent
      end
  end.

(** [repaint]: the compound whose [conditionalRepaint] is called, if any;
    nothing at all when the loop did not end within [fuel] iterations. *)
Definition repaint (fuel : nat) (h : GCompound.Heap) (this : addr) : option (option addr) :=
  match GCompound.parent_of h this with
  | None => Some None
  | Some parent =>
      match repaint_loop fuel h parent with
      | Some top => Some (Some top)
      | None => None
      end
  end.

Definition sendBackward (this : addr) : Stm GCompound.Heap unit :=
  parent ← gets (fun h => GCompound.parent_of h this);
  match parent with
  | Some p => GCompound.sendBackward p (Some this)
  | None => mret tt
  end.

Definition sendForward (this : addr) : Stm GCompound.Heap unit :=
  parent ← gets (fun h => GCompound.parent_of h this);
  match parent with
  | Some p => GCompound.sendForward p (Some this)
  | None => mret tt
  end.

Definition sendToBack (this : addr) : Stm GCompound.Heap unit :=
  parent ← gets (fun h => GCompound.parent_of h this);
  match parent with
  | Some p => GCompound.sendToBack p (Some this)
  | None => mret tt
  end.

Definition sendToFront (this : addr) : Stm GCompound.Heap unit :=
  parent ← gets (fun h => GCompound.parent_of h this);
  match parent with
  | Some p => GCompound.sendToFront p (Some this)
  | None => mret tt
  end.

End GObjectPtr.

(** ** The geometry in binary64 *)

(** The methods above read a double as an exact rational.  Here the
    containment tests are given in IEEE 754 binary64 with rounding to
    nearest, the arithmetic the code runs in, every operation rounded on
    its own (no fused multiply-add).  No operation fails there: a division
    by zero gives an infinity or a NaN, and a comparison with a NaN is
    false. *)
Module Binary64.
Import PrimFloat.

(** [std::min(a, b)] is [(b < a) ? b : a], [std::max(a, b)] is
    [(a < b) ? b : a]. *)
Definition std_min (a b : float) : float := if (b <? a)%float then b else a.
Definition std_max (a b : float) : float := if (a <? b)%float then b else a.

(** Modelled from the spec: the tolerance of [floatingPointEqual]
    (gmath.h, not part of this file), the double nearest to 1e-10. *)
Definition FLOAT_TOLERANCE : float := 0x1.b7cdfd9d7bdbbp-34%float.

(** Modelled from the spec: [floatingPointEqual(f1, f2)] (gmath.h), two
    doubles "equal within tolerance". *)
Definition floatingPointEqual (f1 f2 : float) : bool :=
  (abs (f1 - f2) <=? FLOAT_TOLERANCE)%float.

Definition LINE_TOLERANCE : float := 1.5%float.

Module GRectangle.

(** Modelled from the spec: GRectangle (gtypes.h). *)
Record t : Type := mk { getX : float; getY : float; getWidth : float; getHeight : float }.

(** Modelled from the spec: [GRectangle::contains] (gtypes.h); the left
    and top edges belong to the box. *)
Definition contains (r : t) (x y : float) : bool :=
  ((getX r <=? x) && (getY r <=? y)
   && (x <? getX r + getWidth r) && (y <? getY r + getHeight r))%float.

End GRectangle.

Module GObject.

(** The fields of a GObject that the tests read. *)
Record t : Type := mk {
  _x : float;
  _y : float;
  _width : float;
  _height : float;
  _fillFlag : bool
}.

(** The constructor [GObject(x, y, width, height)]. *)
Definition new (x y width height : float) : t := mk x y width height false.

Definition getX (o : t) : float := _x o.
Definition getY (o : t) : float := _y o.
Definition getWidth (o : t) : float := _width o.
Definition getHeight (o : t) : float := _height o.
Definition getRightX (o : t) : float := (getX o + getWidth o)%float.
Definition getBottomY (o : t) : float := (getY o + getHeight o)%float.
Definition isFilled (o : t) : bool := _fillFlag o.
Definition getBounds (o : t) : GRectangle.t :=
  GRectangle.mk (getX o) (getY o) (getWidth o) (getHeight o).

End GObject.

Module GLine.

Record t : Type := mk { obj : GObject.t; _dx : float; _dy : float }.

(** The constructor [GLine(x0, y0, x1, y1)]. *)
Definition new (x0 y0 x1 y1 : float) : t :=
  mk (GObject.new x0 y0 0 0) (x1 - x0)%float (y1 - y0)%float.

Definition dsq (x0 y0 x1 y1 : float) : float :=
  ((x1 - x0) * (x1 - x0) + (y1 - y0) * (y1 - y0))%float.

Definition contains (l : t) (x y : float) : bool :=
  let x0 := GObject.getX (obj l) in
  let y0 := GObject.getY (obj l) in
  let x1 := (x0 + _dx l)%float in
  let y1 := (y0 + _dy l)%float in
  let tSquared := (LINE_TOLERANCE * LINE_TOLERANCE)%float in
  if (dsq x y x0 y0 <? tSquared)%float then true
  else if (dsq x y x1 y1 <? tSquared)%float then true
  else if (x <? std_min x0 x1 - LINE_TOLERANCE)%float then false
  else if (std_max x0 x1 + LINE_TOLERANCE <? x)%float then false
  else if (y <? std_min y0 y1 - LINE_TOLERANCE)%float then false
  else if (std_max y0 y1 + LINE_TOLERANCE <? y)%float then false
  else if floatingPointEqual (x0 - x1) 0 && floatingPointEqual (y0 - y1) 0 then false
  else
    let u := (((x - x0) * (x1 - x0) + (y - y0) * (y1 - y0)) / dsq x0 y0 x1 y1)%float in
    (dsq x y (x0 + u * (x1 - x0)) (y0 + u * (y1 - y0)) <? tSquared)%float.

End GLine.

Module GOval.

Definition contains (o : GObject.t) (x y : float) : bool :=
  let rx := (GObject.getWidth o / 2)%float in
  let ry := (GObject.getHeight o / 2)%float in
  if floatingPointEqual rx 0 || floatingPointEqual ry 0 then false
  else
    let dx := (x - (GObject.getX o + rx))%float in
    let dy := (y - (GObject.getY o + ry))%float in
    ((dx * dx) / (rx * rx) + (dy * dy) / (ry * ry) <=? 1)%float.

End GOval.

Module GRoundRect.

Record t : Type := mk { obj : GObject.t; _corner : float }.

(** The divisors [a * a] and [b * b] of [contains]. *)
Definition a (r : t) : float := (std_min (_corner r) (GObject.getWidth (obj r)) / 2)%float.
Definition b (r : t) : float := (std_min (_corner r) (GObject.getHeight (obj r)) / 2)%float.

Definition contains (r : t) (x y : float) : bool :=
  if negb (GRectangle.contains (GObject.getBounds (obj r)) x y) then false
  else
    let a := a r in
    let b := b r in
    let dx := std_min (abs (x - GObject.getX (obj r))) (abs (x - GObject.getRightX (obj r))) in
    let dy := std_min (abs (y - GObject.getY (obj r))) (abs (y - GObject.getBottomY (obj r))) in
    if ((a <? dx) || (b <? dy))%float then true
    else ((dx - a) * (dx - a) / (a * a) + (dy - b) * (dy - b) / (b * b) <=? 1)%float.

End GRoundRect.

Module GArc.

Record t : Type := mk { obj : GObject.t; _start : float; _sweep : float }.

(** [fmod] is the C library's and stays a parameter. *)
Definition containsAngle (fmod : float -> float -> float) (a : t) (theta : float) : bool :=
  let start := std_min (_start a) (_start a + _sweep a)%float in
  let sweep := abs (_sweep a) in
  if (360 <=? sweep)%float then true
  else
    let theta := if (theta <? 0)%float then (360 - fmod (- theta) 360)%float
                 else fmod theta 360%float in
    let start := if (start <? 0)%float then (360 - fmod (- start) 360)%float
                 else fmod start 360%float in
    if (360 <? start + sweep)%float
    then ((start <=? theta) || (theta <=? start + sweep - 360))%float
    else ((start <=? theta) && (theta <=? start + sweep))%float.

(** [cos], [sin], [fmod] and [PI] are the C library's and stay
    parameters. *)
Definition getBounds (cos sin : float -> float) (fmod : float -> float -> float) (PI : float)
    (a : t) : GRectangle.t :=
  let rx := (GObject.getWidth (obj a) / 2)%float in
  let ry := (GObject.getHeight (obj a) / 2)%float in
  let cx := (GObject.getX (obj a) + rx)%float in
  let cy := (GObject.getY (obj a) + ry)%float in
  let startRadians := (_start a * PI / 180)%float in
  let sweepRadians := (_sweep a * PI / 180)%float in
  let p1x := (cx + cos startRadians * rx)%float in
  let p1y := (cy - sin startRadians * ry)%float in
  let p2x := (cx + cos (startRadians + sweepRadians) * rx)%float in
  let p2y := (cy - sin (startRadians + sweepRadians) * ry)%float in
  let xMin := std_min p1x p2x in
  let xMax := std_max p1x p2x in
  let yMin := std_min p1y p2y in
  let yMax := std_max p1y p2y in
  let xMax := if containsAngle fmod a 0 then (cx + rx)%float else xMax in
  let yMin := if containsAngle fmod a 90 then (cy - ry)%float else yMin in
  let xMin := if containsAngle fmod a 180 then (cx - rx)%float else xMin in
  let yMax := if containsAngle fmod a 270 then (cy + ry)%float else yMax in
  let xMin := if GObject.isFilled (obj a) then std_min xMin cx else xMin in
  let yMin := if GObject.isFilled (obj a) then std_min yMin cy else yMin in
  let xMax := if GObject.isFilled (obj a) then std_max xMax cx else xMax in
  let yMax := if GObject.isFilled (obj a) then std_max yMax cy else yMax in
  GRectangle.mk xMin yMin (xMax - xMin)%float (yMax - yMin)%float.

End GArc.

End Binary64.

(** * Vocabulary of the statements *)

Import GCompound.

(** The vertical part of the loop of [GPolygon::getBounds], on the [y]
    coordinates alone. *)
Definition y_step (acc : nat * (Q * Q)) (y : Q) : nat * (Q * Q) :=
  let '(i, (lo, hi)) := acc in
  (S i, (if (i =? 0)%nat || (y <? lo)%dbl then y else lo,
         if (i =? 0)%nat || (y >? hi)%dbl then y else hi)).

(** The vertical extent the loop computes. *)
Definition y_extent (ys : list Q) : Q :=
  let '(lo, hi) := snd (fold_left y_step ys (O, (0, 0)%Q)) in (hi - lo)%Q.

(** A box with the same corner and no extent. *)
Definition corner_of (r : GRectangle.t) : GRectangle.t :=
  GRectangle.mk (GRectangle.getX r) (GRectangle.getY r) 0 0.

(** The checks of [GLine::contains], for the segment from [(x0, y0)] to
    [(x1, y1)] and the query point [(x, y)]: the squared tolerance, *)
Definition tSquared : Q := (LINE_TOLERANCE * LINE_TOLERANCE)%Q.

(** being closer than the tolerance to the point [(px, py)], *)
Definition near (x y px py : Q) : bool := (GLine.dsq x y px py <? tSquared)%dbl.

(** and lying in the bounding box of the segment, padded by the tolerance. *)
Definition in_padded_box (x0 y0 x1 y1 x y : Q) : bool :=
  ((std_min x0 x1 - LINE_TOLERANCE <=? x) && (x <=? std_max x0 x1 + LINE_TOLERANCE)
   && (std_min y0 y1 - LINE_TOLERANCE <=? y) && (y <=? std_max y0 y1 + LINE_TOLERANCE))%dbl.

(** The squared distance from [(x, y)] to its parametric projection on the
    line through the two end points. *)
Definition projection_dsq (x0 y0 x1 y1 x y : Q) : Q :=
  let u := (((x - x0) * (x1 - x0) + (y - y0) * (y1 - y0)) / GLine.dsq x0 y0 x1 y1)%Q in
  GLine.dsq x y (x0 + u * (x1 - x0)) (y0 + u * (y1 - y0)).

(** The guard of the code: both offsets are zero up to the tolerance of
    [floatingPointEqual]. *)
Definition degenerate (l : GLine.t) : bool :=
  floatingPointEqual (GLine.getStartX l - GLine.getEndX l) 0
  && floatingPointEqual (GLine.getStartY l - GLine.getEndY l) 0.

(** The back-reference agrees with the membership lists. *)
Definition agrees (h : Heap) : Prop :=
  forall g c : addr, parent_of h g = Some c <-> g ∈ contents_of h c.

(** No object is a child of two compounds. *)
Definition exclusive (h : Heap) : Prop :=
  forall g c1 c2 : addr, g ∈ contents_of h c1 -> g ∈ contents_of h c2 -> c1 = c2.

(** No compound lists an object twice. *)
Definition no_repeats (h : Heap) : Prop :=
  forall c : addr, NoDup (contents_of h c).

(** The invariant the container operations keep. *)
Definition consistent (h : Heap) : Prop := agrees h /\ no_repeats h.

(** What [adds_orphans] asks of one operation. *)
Definition orphan_if_added (op : Op) (h : Heap) : Prop :=
  match op with
  | Add _ (Some g) => parent_of h g = None
  | _ => True
  end.

(** The value of the edge test; the quotient is only read when the two
    end points lie on different sides of the ray, where it is defined. *)
Definition crosses (x y x0 y0 x1 y1 : Q) : bool :=
  negb (eqb (y0 >? y)%dbl (y1 >? y)%dbl)
  && (x - x0 <? (x1 - x0) * (y - y0) / (y1 - y0))%dbl.

(** The crossings counted along a path that starts at [(x0, y0)]. *)
Fixpoint path_crossings (x y x0 y0 : Q) (pts : list QPointF.t) : nat :=
  match pts with
  | [] => O
  | p :: pts' =>
      (if crosses x y x0 y0 (QPointF.x p) (QPointF.y p) then 1 else 0)
      + path_crossings x y (QPointF.x p) (QPointF.y p) pts'
  end.

(** The crossings counted around the closed ring of all the vertices. *)
Definition ring_crossings (x y : Q) (vs : list QPointF.t) : nat :=
  match vs with
  | [] => O
  | v0 :: rest => path_crossings x y (QPointF.x v0) (QPointF.y v0) (rest ++ [v0])
  end.

(** [crossings % 2 == 1]. *)
Definition odd_count (crossings : nat) : bool := (crossings mod 2 =? 1)%nat.

(** The ring [contains] walks: all the vertices, or all but the last one
    when [==] finds the last one equal to the first. *)
Definition ring_of (eqb : QPointF.t -> QPointF.t -> bool) (vs : list QPointF.t)
    : list QPointF.t :=
  let n := length vs in
  if (n <? 2)%nat then vs
  else if eqb (GPolygon.at_ vs 0) (GPolygon.at_ vs (n - 1)) then take (n - 1) vs else vs.

(** [==] holds of no two of the points [vs] that differ in a coordinate. *)
Definition distinguishes (eqb : QPointF.t -> QPointF.t -> bool) (vs : list QPointF.t) : bool :=
  forallb (fun p => forallb (fun q => implb (eqb p q) (QPointF.same p q)) vs) vs.

(** The polygon [p] with another vertex list. *)
Definition with_vertices (vs : list QPointF.t) (p : GPolygon.t) : GPolygon.t :=
  GPolygon.mk (GPolygon.obj p) vs (GPolygon._cx p) (GPolygon._cy p).

(** One call of [rotate] or [scale], and a sequence of such calls. *)
Definition transform_call (op : GObject.QTransformOp) : Stm GObject.t unit :=
  match op with
  | GObject.Rotate theta => GObject.rotate theta
  | GObject.Scale sx sy => GObject.scale2 sx sy
  end.

Definition transformed_by (ops : list GObject.QTransformOp) (o : GObject.t) : GObject.t :=
  fold_left (fun o' op => state_after (transform_call op) o') ops o.

(** The extremes [e] are those of the points [vs]: every point lies
    between them and each of them is attained. *)
Definition extremes_of (vs : list QPointF.t) (e : Extent) : Prop :=
  (forall v, In v vs ->
     (xMin e <= QPointF.x v <= xMax e)%Q /\ (yMin e <= QPointF.y v <= yMax e)%Q)
  /\ In (xMin e) (map QPointF.x vs) /\ In (xMax e) (map QPointF.x vs)
  /\ In (yMin e) (map QPointF.y vs) /\ In (yMax e) (map QPointF.y vs).

(** The coordinates taken two by two; a last coordinate without a partner
    is left out. *)
Fixpoint pairs (coords : list Q) : list (Q * Q) :=
  match coords with
  | x :: y :: rest => (x, y) :: pairs rest
  | _ => []
  end.


Definition point (v : Q * Q) : QPointF.t := QPointF.mk (fst v) (snd v).

(** The polygon [p] with the points [vs] appended, the cursor on the last
    of them. *)
Definition extended (vs : list (Q * Q)) (p : GPolygon.t) : GPolygon.t :=
  GPolygon.mk (GPolygon.obj p) (GPolygon._vertices p ++ map point vs)
              (fst (List.last vs (GPolygon._cx p, GPolygon._cy p)))
              (snd (List.last vs (GPolygon._cx p, GPolygon._cy p))).

(** [d] is [a] or one of the shapes below it: a child, a child of a
    child, and so on. *)
Inductive descends (h : Heap) : addr -> addr -> Prop :=
| descends_here (a : addr) : descends h a a
| descends_child (a b d : addr) :
    b ∈ contents_of h a -> descends h b d -> descends h a d.

(** [l] lists the ancestors of [a], nearest first, up to one that has no
    parent. *)
Fixpoint ancestors (h : Heap) (a : addr) (l : list addr) : Prop :=
  match l with
  | [] => parent_of h a = None
  | b :: l' => parent_of h a = Some b /\ ancestors h b l'
  end.

(** The checks of [GLine::contains] as the code computes them, in
    binary64; a point is outside the padded box when one of the four
    rejecting comparisons holds. *)
Module Binary64Checks.
Import PrimFloat.

Definition tSquared : float := (Binary64.LINE_TOLERANCE * Binary64.LINE_TOLERANCE)%float.

Definition near (x y px py : float) : bool := (Binary64.GLine.dsq x y px py <? tSquared)%float.

Definition in_padded_box (x0 y0 x1 y1 x y : float) : bool :=
  (negb (x <? Binary64.std_min x0 x1 - Binary64.LINE_TOLERANCE)
   && negb (Binary64.std_max x0 x1 + Binary64.LINE_TOLERANCE <? x)
   && negb (y <? Binary64.std_min y0 y1 - Binary64.LINE_TOLERANCE)
   && negb (Binary64.std_max y0 y1 + Binary64.LINE_TOLERANCE <? y))%float.

Definition projection_dsq (x0 y0 x1 y1 x y : float) : float :=
  let u := (((x - x0) * (x1 - x0) + (y - y0) * (y1 - y0))
            / Binary64.GLine.dsq x0 y0 x1 y1)%float in
  Binary64.GLine.dsq x y (x0 + u * (x1 - x0))%float (y0 + u * (y1 - y0))%float.

Definition getStartX (l : Binary64.GLine.t) : float :=
  Binary64.GObject.getX (Binary64.GLine.obj l).
Definition getStartY (l : Binary64.GLine.t) : float :=
  Binary64.GObject.getY (Binary64.GLine.obj l).
Definition getEndX (l : Binary64.GLine.t) : float :=
  (getStartX l + Binary64.GLine._dx l)%float.
Definition getEndY (l : Binary64.GLine.t) : float :=
  (getStartY l + Binary64.GLine._dy l)%float.

Definition degenerate (l : Binary64.GLine.t) : bool :=
  Binary64.floatingPointEqual (getStartX l - getEndX l) 0
  && Binary64.floatingPointEqual (getStartY l - getEndY l) 0.

End Binary64Checks.

(** * Proofs *)

(** ** Comparisons of doubles *)

Lemma Qleb_spec (a b : Q) : reflect (a <= b)%Q (a <=? b)%dbl.
Proof.
  destruct (Qle_bool a b) eqn:E; constructor.
  - now apply Qle_bool_iff.
  - intros H. apply Qle_bool_iff in H. congruence.
Qed.

Lemma Qltb_spec (a b : Q) : reflect (a < b)%Q (a <? b)%dbl.
Proof.
  unfold Qltb. destruct (Qleb_spec b a); constructor; lra.
Qed.

Lemma Qeqb_spec (a b : Q) : reflect (a == b)%Q (Qeq_bool a b).
Proof.
  destruct (Qeq_bool a b) eqn:E; constructor.
  - now apply Qeq_bool_iff.
  - intros H. apply Qeq_bool_iff in H. congruence.
Qed.

Ltac stm_unfold :=
  unfold mbind, mret, stm_bind, stm_ret, error, modify, gets, succeeds, state_after.

(** ** GObject: opacity *)

(** C6. setOpacity returns normally exactly when 0 <= opacity <= 1; it then
    stores the opacity and changes nothing else; otherwise it throws and
    the object is left as it was. *)
Theorem GObject_setOpacity_range (o : GObject.t) (opacity : Q) :
  (succeeds (GObject.setOpacity opacity) o = true <-> (0 <= opacity <= 1)%Q)
  /\ ((0 <= opacity <= 1)%Q ->
      GObject.setOpacity opacity o = (Ok tt, GObject.set_opacity opacity o))
  /\ (~ (0 <= opacity <= 1)%Q ->
      exists msg, GObject.setOpacity opacity o = (ErrorException msg, o)).
Proof.
  unfold GObject.setOpacity, require_inRange, GObject.repaint. stm_unfold.
  destruct (Qleb_spec 0 opacity) as [H0|H0], (Qleb_spec opacity 1) as [H1|H1]; cbn.
  1: { split; [split; auto|]. split; [auto|]. intros Hn. exfalso. auto. }
  all: split; [split; [discriminate|intros [? ?]; contradiction]|].
  all: split; [intros [? ?]; contradiction|intros _; eexists; reflexivity].
Qed.

Lemma GObject_setOpacity_range_witness :
  exists msg, GObject.setOpacity 2 (GObject.new 0 0 10 10)
              = (ErrorException msg, GObject.new 0 0 10 10).
Proof.
  apply (proj2 (proj2 (GObject_setOpacity_range (GObject.new 0 0 10 10) 2))).
  intros [_ H]. exact (H eq_refl).
Defined.

(** ** GObject: size and transform *)

Lemma GObject_setSize_transformed (o : GObject.t) (width height : Q) :
  GObject._transformed o = true ->
  GObject.setSize width height o
  = (ErrorException "GObject::setSize: Object has been transformed", o).
Proof.
  intros Ht. unfold GObject.setSize. stm_unfold. now rewrite Ht.
Qed.

Lemma GObject_setWidth_transformed (o : GObject.t) (width : Q) :
  GObject._transformed o = true ->
  state_after (GObject.setWidth width) o = o /\ succeeds (GObject.setWidth width) o = false.
Proof.
  intros Ht. unfold GObject.setWidth, state_after, succeeds.
  unfold mbind, stm_bind, gets at 1 2. cbn.
  now rewrite !GObject_setSize_transformed.
Qed.

Lemma GObject_setHeight_transformed (o : GObject.t) (height : Q) :
  GObject._transformed o = true ->
  state_after (GObject.setHeight height) o = o /\ succeeds (GObject.setHeight height) o = false.
Proof.
  intros Ht. unfold GObject.setHeight, state_after, succeeds.
  unfold mbind, stm_bind, gets at 1 2. cbn.
  now rewrite !GObject_setSize_transformed.
Qed.

Lemma GObject_rotate_transformed (o : GObject.t) (theta : Q) :
  GObject._transformed (state_after (GObject.rotate theta) o) = true.
Proof. reflexivity. Qed.

Lemma GObject_scale_transformed (o : GObject.t) (sf : Q) :
  GObject._transformed (state_after (GObject.scale sf) o) = true.
Proof. reflexivity. Qed.

Lemma GObject_setBounds_run (o : GObject.t) (x y width height : Q) :
  GObject.setBounds x y width height o
  = (Ok tt, GObject.set_height height (GObject.set_width width (GObject.set_y y (GObject.set_x x o)))).
Proof. reflexivity. Qed.

(** C4. On a shape that has been rotated, setSize throws and changes
    nothing, but setBounds returns normally and stores the new width and
    height: setBounds never looks at the transformed flag.  For instance a
    rotated 10 x 10 shape is 5 x 5 after setBounds(0, 0, 5, 5). *)
Theorem GObject_setBounds_resizes_transformed
    (o : GObject.t) (theta x y width height : Q) :
  let t := state_after (GObject.rotate theta) o in
  GObject._transformed t = true
  /\ state_after (GObject.setSize width height) t = t
  /\ succeeds (GObject.setSize width height) t = false
  /\ succeeds (GObject.setBounds x y width height) t = true
  /\ GObject._width (state_after (GObject.setBounds x y width height) t) = width
  /\ GObject._height (state_after (GObject.setBounds x y width height) t) = height
  /\ GObject._transformed (state_after (GObject.setBounds x y width height) t) = true
  /\ (let t0 := state_after (GObject.rotate 45) (GObject.new 0 0 10 10) in
      (GObject._width t0, GObject._height t0) = (10, 10)%Q
      /\ (GObject._width (state_after (GObject.setBounds 0 0 5 5) t0),
          GObject._height (state_after (GObject.setBounds 0 0 5 5) t0)) = (5, 5)%Q).
Proof.
  intros t.
  assert (Ht : GObject._transformed t = true) by apply GObject_rotate_transformed.
  split; [exact Ht|].
  unfold state_after, succeeds.
  rewrite (GObject_setSize_transformed t width height Ht), GObject_setBounds_run.
  cbn [fst snd]. repeat split.
Qed.

(** X1. On a transformed shape setSize, setWidth and setHeight throw and
    leave the shape as it was. *)
Theorem GObject_setSize_rejects_transformed (o : GObject.t) (width height : Q) :
  GObject._transformed o = true ->
  (succeeds (GObject.setSize width height) o = false
   /\ state_after (GObject.setSize width height) o = o)
  /\ (succeeds (GObject.setWidth width) o = false
      /\ state_after (GObject.setWidth width) o = o)
  /\ (succeeds (GObject.setHeight height) o = false
      /\ state_after (GObject.setHeight height) o = o).
Proof.
  intros Ht.
  destruct (GObject_setWidth_transformed o width Ht) as [Hw1 Hw2].
  destruct (GObject_setHeight_transformed o height Ht) as [Hh1 Hh2].
  unfold succeeds, state_after in *.
  rewrite (GObject_setSize_transformed o width height Ht). cbn [fst snd].
  repeat split; assumption.
Qed.

Lemma GObject_setSize_rejects_transformed_witness :
  let o := state_after (GObject.scale 2) (GObject.new 0 0 10 10) in
  (succeeds (GObject.setSize 5 5) o = false /\ state_after (GObject.setSize 5 5) o = o)
  /\ (succeeds (GObject.setWidth 5) o = false /\ state_after (GObject.setWidth 5) o = o)
  /\ (succeeds (GObject.setHeight 5) o = false /\ state_after (GObject.setHeight 5) o = o).
Proof.
  intros o. apply (GObject_setSize_rejects_transformed o 5 5). reflexivity.
Defined.

(** ** GPolygon: bounds *)

Lemma getBounds_fold_y (vs : list QPointF.t) (acc : nat * Extent) :
  fold_left y_step (map QPointF.y vs)
            (fst acc, (yMin (snd acc), yMax (snd acc)))
  = (fst (fold_left GPolygon.getBounds_step vs acc),
     (yMin (snd (fold_left GPolygon.getBounds_step vs acc)),
      yMax (snd (fold_left GPolygon.getBounds_step vs acc)))).
Proof.
  revert acc. induction vs as [|v vs IH]; intros acc; [reflexivity|].
  cbn [map fold_left]. rewrite <- IH. f_equal. now destruct acc.
Qed.

Lemma GPolygon_getBounds_height (p : GPolygon.t) :
  GRectangle.getHeight (GPolygon.getBounds p) = y_extent (map QPointF.y (GPolygon._vertices p)).
Proof.
  pose proof (getBounds_fold_y (GPolygon._vertices p) (O, mkExtent 0 0 0 0)) as H.
  cbn [fst snd yMin yMax] in H.
  unfold GPolygon.getBounds, y_extent. now rewrite H.
Qed.

Lemma getBounds_step_extremes (vs : list QPointF.t) (e : Extent) (v : QPointF.t) :
  (vs <> [] -> extremes_of vs e) ->
  extremes_of (vs ++ [v]) (snd (GPolygon.getBounds_step (length vs, e) v)).
Proof.
  intros IH. unfold GPolygon.getBounds_step. cbn [snd].
  destruct vs as [|w ws].
  - cbn [length Nat.eqb orb app xMin yMin xMax yMax]. unfold extremes_of.
    cbn [xMin yMin xMax yMax map In].
    split; [|tauto].
    intros u [<-|[]]. lra.
  - specialize (IH ltac:(discriminate)).
    destruct IH as (Hall & Hx0 & Hx1 & Hy0 & Hy1).
    cbn [length Nat.eqb orb]. unfold extremes_of. cbn [xMin yMin xMax yMax].
    rewrite !map_app. cbn [map].
    assert (Hin : forall (q : Q) (l : list Q) (b : bool) (a : Q),
               In q l -> In (if b then a else q) (l ++ [a])).
    { intros q l b a Hq. apply in_or_app. destruct b; [right; now left|now left]. }
    split; [|repeat split; now apply Hin].
    intros u Hu. apply in_app_or in Hu as [Hu|[<-|[]]].
    + specialize (Hall u Hu).
      destruct (Qltb_spec (QPointF.x v) (xMin e)); destruct (Qltb_spec (xMax e) (QPointF.x v));
        destruct (Qltb_spec (QPointF.y v) (yMin e)); destruct (Qltb_spec (yMax e) (QPointF.y v));
        lra.
    + destruct (Qltb_spec (QPointF.x v) (xMin e)); destruct (Qltb_spec (xMax e) (QPointF.x v));
        destruct (Qltb_spec (QPointF.y v) (yMin e)); destruct (Qltb_spec (yMax e) (QPointF.y v));
        lra.
Qed.

Lemma getBounds_fold_extremes (vs : list QPointF.t) :
  fst (fold_left GPolygon.getBounds_step vs (O, mkExtent 0 0 0 0)) = length vs
  /\ (vs <> [] ->
      extremes_of vs (snd (fold_left GPolygon.getBounds_step vs (O, mkExtent 0 0 0 0)))).
Proof.
  induction vs as [|v vs [IHn IH]] using rev_ind.
  - split; [reflexivity|]. intros H. now contradiction H.
  - rewrite fold_left_app. cbn [fold_left].
    destruct (fold_left GPolygon.getBounds_step vs (O, mkExtent 0 0 0 0)) as [i e].
    cbn [fst snd] in IHn, IH. subst i. split.
    + cbn [GPolygon.getBounds_step fst]. rewrite length_app. cbn [length]. lia.
    + intros _. now apply getBounds_step_extremes.
Qed.

Lemma extremes_unique (vs : list QPointF.t) (e e' : Extent) :
  extremes_of vs e -> extremes_of vs e' ->
  (xMin e == xMin e')%Q /\ (xMax e == xMax e')%Q
  /\ (yMin e == yMin e')%Q /\ (yMax e == yMax e')%Q.
Proof.
  intros (Hall & Hx0 & Hx1 & Hy0 & Hy1) (Hall' & Hx0' & Hx1' & Hy0' & Hy1').
  apply in_map_iff in Hx0 as (a0 & Ea0 & A0). apply in_map_iff in Hx1 as (a1 & Ea1 & A1).
  apply in_map_iff in Hy0 as (b0 & Eb0 & B0). apply in_map_iff in Hy1 as (b1 & Eb1 & B1).
  apply in_map_iff in Hx0' as (c0 & Ec0 & C0). apply in_map_iff in Hx1' as (c1 & Ec1 & C1).
  apply in_map_iff in Hy0' as (d0 & Ed0 & D0). apply in_map_iff in Hy1' as (d1 & Ed1 & D1).
  pose proof (Hall c0 C0) as H1. pose proof (Hall c1 C1) as H2.
  pose proof (Hall d0 D0) as H3. pose proof (Hall d1 D1) as H4.
  pose proof (Hall' a0 A0) as H5. pose proof (Hall' a1 A1) as H6.
  pose proof (Hall' b0 B0) as H7. pose proof (Hall' b1 B1) as H8.
  rewrite Ec0 in H1. rewrite Ec1 in H2. rewrite Ed0 in H3. rewrite Ed1 in H4.
  rewrite Ea0 in H5. rewrite Ea1 in H6. rewrite Eb0 in H7. rewrite Eb1 in H8.
  repeat split; lra.
Qed.

(** C10 (as the code has it). getWidth of a polygon is the height of its
    bounding box, the value getHeight returns: the largest minus the
    smallest y coordinate of the vertices, whatever their x coordinates.
    It is the width of the bounding box exactly when the box is as wide as
    it is high; for a polygon with a vertex that width is the horizontal
    extent, the largest minus the smallest x coordinate. *)
Theorem GPolygon_getWidth_is_height (p : GPolygon.t) :
  GPolygon.getWidth p = GRectangle.getHeight (GPolygon.getBounds p)
  /\ GPolygon.getWidth p = GPolygon.getHeight p
  /\ GPolygon.getWidth p = y_extent (map QPointF.y (GPolygon._vertices p))
  /\ (forall p' : GPolygon.t,
        map QPointF.y (GPolygon._vertices p') = map QPointF.y (GPolygon._vertices p) ->
        GPolygon.getWidth p' = GPolygon.getWidth p)
  /\ ((GPolygon.getWidth p == GRectangle.getWidth (GPolygon.getBounds p))%Q
      <-> (GRectangle.getWidth (GPolygon.getBounds p)
           == GRectangle.getHeight (GPolygon.getBounds p))%Q)
  /\ (forall e : Extent,
        extremes_of (GPolygon._vertices p) e ->
        (GPolygon.getWidth p == yMax e - yMin e)%Q
        /\ (GRectangle.getWidth (GPolygon.getBounds p) == xMax e - xMin e)%Q
        /\ ((GPolygon.getWidth p == xMax e - xMin e)%Q
            <-> (xMax e - xMin e == yMax e - yMin e)%Q)).
Proof.
  assert (W : forall q, GPolygon.getWidth q = y_extent (map QPointF.y (GPolygon._vertices q))).
  { intros q. unfold GPolygon.getWidth. apply GPolygon_getBounds_height. }
  split; [reflexivity|]. split; [reflexivity|]. split; [apply W|]. split; [|split].
  - intros p' E. now rewrite !W, E.
  - unfold GPolygon.getWidth. split; intros H; now symmetry.
  - intros e He.
    assert (Hne : GPolygon._vertices p <> []).
    { intros E. destruct He as (_ & Hin & _). rewrite E in Hin. exact Hin. }
    destruct (getBounds_fold_extremes (GPolygon._vertices p)) as [_ Hf].
    destruct (extremes_unique _ _ _ (Hf Hne) He) as (E1 & E2 & E3 & E4).
    unfold GPolygon.getWidth, GPolygon.getBounds. cbv zeta.
    cbn [GRectangle.getWidth GRectangle.getHeight].
    set (f := snd (fold_left GPolygon.getBounds_step (GPolygon._vertices p)
                             (O, mkExtent 0 0 0 0))) in *.
    clearbody f. split; [lra|]. split; [lra|]. split; lra.
Qed.

(** A 30 wide, 10 high triangle and a 10 x 10 square: both have getWidth 10. *)
Lemma GPolygon_getWidth_is_height_witness :
  GPolygon.getWidth
    (GPolygon.mk (GObject.new 0 0 0 0) [QPointF.mk 0 0; QPointF.mk 30 0; QPointF.mk 30 10] 30 10)
  = GPolygon.getWidth
      (GPolygon.mk (GObject.new 0 0 0 0) [QPointF.mk 0 0; QPointF.mk 10 0; QPointF.mk 10 10] 10 10).
Proof.
  apply (proj1 (proj2 (proj2 (proj2 (GPolygon_getWidth_is_height
    (GPolygon.mk (GObject.new 0 0 0 0) [QPointF.mk 0 0; QPointF.mk 10 0; QPointF.mk 10 10] 10 10)))))).
  reflexivity.
Defined.

(** C10 (as stated) fails: for the square with the corners (0, 0), (10, 0),
    (10, 10), (0, 10) getWidth returns 10, which is the horizontal extent
    of the bounding box; so it does for a polygon without vertices, whose
    extents are both 0. *)
Lemma GPolygon_getWidth_square :
  let square := GPolygon.mk (GObject.new 0 0 0 0)
                  [QPointF.mk 0 0; QPointF.mk 10 0; QPointF.mk 10 10; QPointF.mk 0 10] 0 10 in
  let empty := GPolygon.mk (GObject.new 0 0 0 0) [] 0 0 in
  (GRectangle.getWidth (GPolygon.getBounds square) == 10)%Q
  /\ (GPolygon.getWidth square == GRectangle.getWidth (GPolygon.getBounds square))%Q
  /\ (GPolygon.getWidth empty == GRectangle.getWidth (GPolygon.getBounds empty))%Q.
Proof. intros square empty. repeat split. Qed.

(** ** GCompound: aggregate bounds *)

Lemma getBounds_fold_corner (childBounds : list GRectangle.t) (e : Extent) :
  fold_left GCompound.getBounds_step (map corner_of childBounds) e
  = fold_left GCompound.getBounds_step childBounds e.
Proof.
  revert e. induction childBounds as [|r rs IH]; intros e; [reflexivity|].
  cbn [map fold_left]. now rewrite IH.
Qed.

(** C1. getBounds of a compound reads only the left and top edge of each
    child: the box it returns is the same when every child is shrunk to its
    top-left corner.  A compound at the origin holding one 10 x 10 rectangle
    reports a box of width and height 0, where the union of the children's
    boxes is 10 x 10; an empty compound reports a box of width and height
    -2e20 placed 1e20 right of and below its anchor. *)
Theorem GCompound_getBounds_drops_child_extent
    (this : GObject.t) (childBounds : list GRectangle.t) :
  GCompound.getBounds this (map corner_of childBounds) = GCompound.getBounds this childBounds
  /\ GCompound.getBounds (GObject.new 0 0 0 0) [GObject.getBounds (GObject.new 0 0 10 10)]
     = GRectangle.mk 0 0 0 0
  /\ GObject.getBounds (GObject.new 0 0 10 10) = GRectangle.mk 0 0 10 10
  /\ GCompound.getBounds this []
     = GRectangle.mk (1e20 + GObject.getX this) (1e20 + GObject.getY this)
                     (-1e20 - 1e20) (-1e20 - 1e20).
Proof.
  split; [|repeat split].
  unfold GCompound.getBounds. now rewrite getBounds_fold_corner.
Qed.

(** ** GImage: pixel access *)

Section GImageFacts.
Context `{QImageApi}.

Lemma GImage_getPixel_checks (img : GImage.t) (x y : Z) :
  let w := to_int (GObject.getWidth (GImage.obj img)) in
  let h := to_int (GObject.getHeight (GImage.obj img)) in
  (0 <= x <= w - 1 /\ 0 <= y <= h - 1 ->
   GImage.getPixel x y img = (Ok (QImage_pixel (GImage._qimage img) x y), img))%Z
  /\ (~ (0 <= x <= w - 1 /\ 0 <= y <= h - 1)%Z ->
      exists msg, GImage.getPixel x y img = (ErrorException msg, img)).
Proof.
  intros w h. unfold GImage.getPixel, require_inRange2D. stm_unfold. fold w h.
  destruct ((0 <=? x) && (x <=? w - 1) && (0 <=? y) && (y <=? h - 1))%Z eqn:E.
  - split; [reflexivity|]. intros Hn. exfalso. apply Hn. lia.
  - split; [lia|]. intros _. eexists. reflexivity.
Qed.

(** C3. setPixel hands its coordinates to the pixel buffer without looking
    at the image's width and height, and never throws, whatever the
    coordinates; getPixel on the same image throws when they are out of
    range. *)
Theorem GImage_setPixel_unchecked (img : GImage.t) (x y rgb : Z) :
  GImage.setPixel x y rgb img
  = (Ok tt, GImage.set_qimage (QImage_setPixel (GImage._qimage img) x y rgb) img)
  /\ succeeds (GImage.setPixel x y rgb) img = true
  /\ (succeeds (GImage.getPixel x y) img = true <->
      (0 <= x <= to_int (GObject.getWidth (GImage.obj img)) - 1
       /\ 0 <= y <= to_int (GObject.getHeight (GImage.obj img)) - 1)%Z).
Proof.
  split; [reflexivity|]. split; [reflexivity|].
  destruct (GImage_getPixel_checks img x y) as [Hin Hout]. cbv zeta in Hin, Hout.
  unfold succeeds. split.
  - intros E.
    destruct (decide (0 <= x <= to_int (GObject.getWidth (GImage.obj img)) - 1
                      /\ 0 <= y <= to_int (GObject.getHeight (GImage.obj img)) - 1)%Z)
      as [Hd|Hd]; [exact Hd|].
    destruct (Hout Hd) as [msg Hm]. rewrite Hm in E. discriminate E.
  - intros Hd. now rewrite (Hin Hd).
Qed.

End GImageFacts.

(** ** Ellipse tests with a zero axis *)

Lemma divide_nonzero (a b : Q) : ~ (b == 0)%Q -> divide a b = Finite (a / b)%Q.
Proof.
  intros Hb. unfold divide. now destruct (Qeqb_spec b 0).
Qed.

Lemma divide_zero (a b : Q) : (b == 0)%Q -> divide a b = DivisionByZero.
Proof.
  intros Hb. unfold divide. now destruct (Qeqb_spec b 0).
Qed.

Lemma FLOAT_TOLERANCE_nonneg : (0 <= FLOAT_TOLERANCE)%Q.
Proof. unfold FLOAT_TOLERANCE. discriminate. Qed.

Lemma floatingPointEqual_zero (f : Q) : (f == 0)%Q -> floatingPointEqual f 0 = true.
Proof.
  intros Hf. unfold floatingPointEqual.
  destruct (Qleb_spec (Qabs (f - 0)) FLOAT_TOLERANCE) as [|Hn]; [reflexivity|].
  exfalso. apply Hn.
  assert (E : (f - 0 == 0)%Q) by lra.
  rewrite E. apply FLOAT_TOLERANCE_nonneg.
Qed.

Lemma floatingPointEqual_false_nonzero (f : Q) :
  floatingPointEqual f 0 = false -> ~ (f == 0)%Q.
Proof.
  intros E Hf. rewrite (floatingPointEqual_zero f Hf) in E. discriminate E.
Qed.

Lemma Qsquare_nonzero (r : Q) : ~ (r == 0)%Q -> ~ (r * r == 0)%Q.
Proof. intros Hr Hz. apply Hr. nra. Qed.

Lemma GOval_contains_zero_axis (o : GObject.t) (x y : Q) :
  floatingPointEqual (GObject.getWidth o / 2) 0 = true
  \/ floatingPointEqual (GObject.getHeight o / 2) 0 = true ->
  GOval.contains o x y = Finite false.
Proof.
  intros Hz. unfold GOval.contains.
  destruct Hz as [-> | ->]; [reflexivity|].
  now rewrite orb_true_r.
Qed.

Lemma GOval_contains_finite (o : GObject.t) (x y : Q) :
  exists b, GOval.contains o x y = Finite b.
Proof.
  unfold GOval.contains.
  destruct (floatingPointEqual (GObject.getWidth o / 2) 0) eqn:Ex; [now exists false|].
  destruct (floatingPointEqual (GObject.getHeight o / 2) 0) eqn:Ey; [now exists false|].
  cbn [orb].
  rewrite !divide_nonzero
    by (apply Qsquare_nonzero, floatingPointEqual_false_nonzero; assumption).
  eexists. reflexivity.
Qed.

Lemma GArc_contains_zero_axis (atan2_degrees : Q -> Q -> Q) (a : GArc.t) (x y : Q) :
  floatingPointEqual (GObject.getWidth (GArc.obj a) / 2) 0 = true
  \/ floatingPointEqual (GObject.getHeight (GArc.obj a) / 2) 0 = true ->
  GArc.contains atan2_degrees a x y = Finite false.
Proof.
  intros Hz. unfold GArc.contains.
  destruct Hz as [-> | ->]; [reflexivity|].
  now rewrite orb_true_r.
Qed.

(** X2. An oval or an arc whose frame has a zero axis (up to the tolerance
    of floatingPointEqual) contains no point, and the oval's test never
    divides by zero. *)
Theorem ellipse_zero_axis_contains_nothing (o : GObject.t) (x y : Q) :
  (exists b, GOval.contains o x y = Finite b)
  /\ (floatingPointEqual (GObject.getWidth o / 2) 0 = true
      \/ floatingPointEqual (GObject.getHeight o / 2) 0 = true ->
      GOval.contains o x y = Finite false
      /\ forall (atan2_degrees : Q -> Q -> Q) (start sweep : Q),
           GArc.contains atan2_degrees (GArc.mk o start sweep) x y = Finite false).
Proof.
  split; [apply GOval_contains_finite|].
  intros Hz. split; [now apply GOval_contains_zero_axis|].
  intros f start sweep. now apply GArc_contains_zero_axis.
Qed.

Lemma ellipse_zero_axis_contains_nothing_witness :
  GOval.contains (GObject.new 0 0 0 10) 0 5 = Finite false
  /\ forall (atan2_degrees : Q -> Q -> Q) (start sweep : Q),
       GArc.contains atan2_degrees (GArc.mk (GObject.new 0 0 0 10) start sweep) 0 5
       = Finite false.
Proof.
  apply (proj2 (ellipse_zero_axis_contains_nothing (GObject.new 0 0 0 10) 0 5)).
  left. reflexivity.
Defined.

Lemma std_min_zero_l (a b : Q) : (a == 0)%Q -> (0 <= b)%Q -> (std_min a b == 0)%Q.
Proof.
  intros Ha Hb. unfold std_min. destruct (Qltb_spec b a); [lra|exact Ha].
Qed.

Lemma GRoundRect_contains_corner_faults (o : GObject.t) :
  (0 < GObject.getWidth o)%Q -> (0 < GObject.getHeight o)%Q ->
  GRoundRect.contains (GRoundRect.mk o 0) (GObject.getX o) (GObject.getY o) = DivisionByZero.
Proof.
  intros Hw Hh. unfold GRoundRect.contains. cbn [GRoundRect.obj GRoundRect._corner].
  assert (Hin : GRectangle.contains (GObject.getBounds o) (GObject.getX o) (GObject.getY o) = true).
  { unfold GObject.getBounds, GRectangle.contains.
    destruct (GObject._transformed o); cbn [GRectangle.getX GRectangle.getY GRectangle.getWidth GRectangle.getHeight];
      destruct (Qleb_spec (GObject.getX o) (GObject.getX o)); try lra;
      destruct (Qleb_spec (GObject.getY o) (GObject.getY o)); try lra;
      destruct (Qltb_spec (GObject.getX o) (GObject.getX o + GObject.getWidth o)); try lra;
      destruct (Qltb_spec (GObject.getY o) (GObject.getY o + GObject.getHeight o)); try lra;
      reflexivity. }
  rewrite Hin. cbn [negb].
  assert (Ha : std_min 0 (GObject.getWidth o) = 0%Q).
  { unfold std_min. destruct (Qltb_spec (GObject.getWidth o) 0); [lra|reflexivity]. }
  assert (Hb : std_min 0 (GObject.getHeight o) = 0%Q).
  { unfold std_min. destruct (Qltb_spec (GObject.getHeight o) 0); [lra|reflexivity]. }
  rewrite Ha, Hb.
  set (dx := std_min _ _). set (dy := std_min _ _).
  assert (Hdx : (dx == 0)%Q).
  { subst dx. apply std_min_zero_l; [|apply Qabs_nonneg].
    assert (E : (GObject.getX o - GObject.getX o == 0)%Q) by ring. now rewrite E. }
  assert (Hdy : (dy == 0)%Q).
  { subst dy. apply std_min_zero_l; [|apply Qabs_nonneg].
    assert (E : (GObject.getY o - GObject.getY o == 0)%Q) by ring. now rewrite E. }
  clearbody dx dy.
  assert (Hz : (0 / 2 == 0)%Q) by reflexivity.
  destruct (Qltb_spec (0 / 2) dx) as [Hlt|_]; [exfalso; rewrite Hz, Hdx in Hlt; lra|].
  destruct (Qltb_spec (0 / 2) dy) as [Hlt|_]; [exfalso; rewrite Hz, Hdy in Hlt; lra|].
  cbn [orb]. rewrite divide_zero by reflexivity. reflexivity.
Qed.

(** C9. A rounded rectangle with corner 0 passes the constructor's check;
    asked about its own top-left corner, contains reaches the corner test
    and divides by a * a = 0.  (The oval and the arc return false before
    any division when an axis is zero.) *)
Theorem GRoundRect_contains_divides_by_zero :
  GRoundRect.new 0 0 10 10 0 = Ok (GRoundRect.mk (GObject.new 0 0 10 10) 0)
  /\ GRoundRect.contains (GRoundRect.mk (GObject.new 0 0 10 10) 0) 0 0 = DivisionByZero
  /\ GOval.contains (GObject.new 0 0 0 10) 0 5 = Finite false
  /\ (forall atan2_degrees,
        GArc.contains atan2_degrees (GArc.mk (GObject.new 0 0 0 10) 0 90) 0 5 = Finite false).
Proof.
  split; [reflexivity|]. split.
  - apply (GRoundRect_contains_corner_faults (GObject.new 0 0 10 10)); reflexivity.
  - split; [|intros f]; [apply GOval_contains_zero_axis | apply GArc_contains_zero_axis];
      left; reflexivity.
Qed.

(** An unfilled arc whose axes cancel divides the tolerance by zero. *)
Lemma GArc_contains_cancelling_axes (atan2_degrees : Q -> Q -> Q) :
  GArc.contains atan2_degrees (GArc.mk (GObject.new 0 0 10 (-10)) 0 90) 10 (-5) = DivisionByZero.
Proof. reflexivity. Qed.

(** ** GLine: containment *)

Lemma Qsquare_nonneg (a : Q) : (0 <= a * a)%Q.
Proof. nra. Qed.

Lemma Qsquare_zero (a : Q) : (a * a == 0)%Q -> (a == 0)%Q.
Proof. nra. Qed.

Lemma Qsquare_bound (a t : Q) : (0 <= t -> a * a < t * t -> - t < a < t)%Q.
Proof.
  intros Ht Ha. split.
  - destruct (Qlt_le_dec (- t) a) as [|Hle]; [assumption|exfalso].
    assert (H : (0 <= (- a - t) * (- a + t))%Q) by (apply Qmult_le_0_compat; lra).
    lra.
  - destruct (Qlt_le_dec a t) as [|Hle]; [assumption|exfalso].
    assert (H : (0 <= (a - t) * (a + t))%Q) by (apply Qmult_le_0_compat; lra).
    lra.
Qed.

Lemma dsq_nonneg (x0 y0 x1 y1 : Q) : (0 <= GLine.dsq x0 y0 x1 y1)%Q.
Proof.
  unfold GLine.dsq.
  pose proof (Qsquare_nonneg (x1 - x0)). pose proof (Qsquare_nonneg (y1 - y0)). lra.
Qed.

Lemma dsq_positive (x0 y0 x1 y1 : Q) :
  ~ (x0 - x1 == 0)%Q \/ ~ (y0 - y1 == 0)%Q -> (0 < GLine.dsq x0 y0 x1 y1)%Q.
Proof.
  intros Hne. unfold GLine.dsq.
  pose proof (Qsquare_nonneg (x1 - x0)) as Hx. pose proof (Qsquare_nonneg (y1 - y0)) as Hy.
  destruct (Qlt_le_dec 0 ((x1 - x0) * (x1 - x0) + (y1 - y0) * (y1 - y0))) as [Hp|Hle];
    [exact Hp|].
  exfalso.
  assert (Hx0 : (x1 - x0 == 0)%Q) by (apply Qsquare_zero; lra).
  assert (Hy0 : (y1 - y0 == 0)%Q) by (apply Qsquare_zero; lra).
  destruct Hne as [Hn|Hn]; apply Hn; lra.
Qed.

(** Lagrange's identity turns the projected distance into a cross product. *)
Lemma projection_dsq_cross (x0 y0 x1 y1 x y : Q) :
  (0 < GLine.dsq x0 y0 x1 y1)%Q ->
  (projection_dsq x0 y0 x1 y1 x y * GLine.dsq x0 y0 x1 y1
   == ((x - x0) * (y1 - y0) - (y - y0) * (x1 - x0)) * ((x - x0) * (y1 - y0) - (y - y0) * (x1 - x0)))%Q.
Proof.
  intros Hp. unfold projection_dsq, GLine.dsq in *. field. lra.
Qed.

Lemma projection_dsq_le (x0 y0 x1 y1 x y px py : Q) :
  (0 < GLine.dsq x0 y0 x1 y1)%Q ->
  ((px == x0 /\ py == y0) \/ (px == x1 /\ py == y1))%Q ->
  (projection_dsq x0 y0 x1 y1 x y <= GLine.dsq x y px py)%Q.
Proof.
  intros Hp Hend.
  pose proof (projection_dsq_cross x0 y0 x1 y1 x y Hp) as Hc.
  set (pd := projection_dsq x0 y0 x1 y1 x y) in *. clearbody pd.
  set (L := GLine.dsq x0 y0 x1 y1) in *.
  assert (HL : (L == (x1 - x0) * (x1 - x0) + (y1 - y0) * (y1 - y0))%Q) by reflexivity.
  clearbody L.
  apply Qmult_le_r with (z := L); [exact Hp|].
  rewrite Hc. unfold GLine.dsq. rewrite HL.
  destruct Hend as [[Ex Ey]|[Ex Ey]]; rewrite Ex, Ey.
  - assert (H : (((x0 - x) * (x0 - x) + (y0 - y) * (y0 - y))
                 * ((x1 - x0) * (x1 - x0) + (y1 - y0) * (y1 - y0))
                 == ((x - x0) * (y1 - y0) - (y - y0) * (x1 - x0))
                    * ((x - x0) * (y1 - y0) - (y - y0) * (x1 - x0))
                    + ((x - x0) * (x1 - x0) + (y - y0) * (y1 - y0))
                      * ((x - x0) * (x1 - x0) + (y - y0) * (y1 - y0)))%Q) by ring.
    rewrite H.
    pose proof (Qsquare_nonneg ((x - x0) * (x1 - x0) + (y - y0) * (y1 - y0))). lra.
  - assert (H : (((x1 - x) * (x1 - x) + (y1 - y) * (y1 - y))
                 * ((x1 - x0) * (x1 - x0) + (y1 - y0) * (y1 - y0))
                 == ((x - x0) * (y1 - y0) - (y - y0) * (x1 - x0))
                    * ((x - x0) * (y1 - y0) - (y - y0) * (x1 - x0))
                    + ((x - x1) * (x1 - x0) + (y - y1) * (y1 - y0))
                      * ((x - x1) * (x1 - x0) + (y - y1) * (y1 - y0)))%Q) by ring.
    rewrite H.
    pose proof (Qsquare_nonneg ((x - x1) * (x1 - x0) + (y - y1) * (y1 - y0))). lra.
Qed.

Lemma std_min_le (a b : Q) : (std_min a b <= a /\ std_min a b <= b)%Q.
Proof. unfold std_min. destruct (Qltb_spec b a); lra. Qed.

Lemma std_max_ge (a b : Q) : (a <= std_max a b /\ b <= std_max a b)%Q.
Proof. unfold std_max. destruct (Qltb_spec a b); lra. Qed.

Lemma near_in_padded_box (x0 y0 x1 y1 x y px py : Q) :
  ((px == x0 /\ py == y0) \/ (px == x1 /\ py == y1))%Q ->
  near x y px py = true ->
  in_padded_box x0 y0 x1 y1 x y = true.
Proof.
  intros Hend Hn. unfold near, tSquared, LINE_TOLERANCE, GLine.dsq in Hn.
  destruct (Qltb_spec ((px - x) * (px - x) + (py - y) * (py - y)) (1.5 * 1.5)) as [Hd|];
    [clear Hn|discriminate Hn].
  pose proof (Qsquare_nonneg (px - x)) as Sx. pose proof (Qsquare_nonneg (py - y)) as Sy.
  assert (Hx : (- (1.5) < px - x < 1.5)%Q) by (apply (Qsquare_bound (px - x) 1.5); lra).
  assert (Hy : (- (1.5) < py - y < 1.5)%Q) by (apply (Qsquare_bound (py - y) 1.5); lra).
  pose proof (std_min_le x0 x1). pose proof (std_max_ge x0 x1).
  pose proof (std_min_le y0 y1). pose proof (std_max_ge y0 y1).
  unfold in_padded_box, LINE_TOLERANCE.
  destruct (Qleb_spec (std_min x0 x1 - 1.5) x); [|exfalso; destruct Hend as [[? ?]|[? ?]]; lra].
  destruct (Qleb_spec x (std_max x0 x1 + 1.5)); [|exfalso; destruct Hend as [[? ?]|[? ?]]; lra].
  destruct (Qleb_spec (std_min y0 y1 - 1.5) y); [|exfalso; destruct Hend as [[? ?]|[? ?]]; lra].
  destruct (Qleb_spec y (std_max y0 y1 + 1.5)); [|exfalso; destruct Hend as [[? ?]|[? ?]]; lra].
  reflexivity.
Qed.

Lemma near_projection (x0 y0 x1 y1 x y px py : Q) :
  (0 < GLine.dsq x0 y0 x1 y1)%Q ->
  ((px == x0 /\ py == y0) \/ (px == x1 /\ py == y1))%Q ->
  near x y px py = true ->
  (projection_dsq x0 y0 x1 y1 x y <? tSquared)%dbl = true.
Proof.
  intros Hp Hend Hn. unfold near in Hn.
  pose proof (projection_dsq_le x0 y0 x1 y1 x y px py Hp Hend) as Hle.
  destruct (Qltb_spec (GLine.dsq x y px py) tSquared); [|discriminate Hn].
  destruct (Qltb_spec (projection_dsq x0 y0 x1 y1 x y) tSquared); [reflexivity|lra].
Qed.

Lemma degenerate_false_positive (l : GLine.t) :
  degenerate l = false ->
  (0 < GLine.dsq (GLine.getStartX l) (GLine.getStartY l) (GLine.getEndX l) (GLine.getEndY l))%Q.
Proof.
  unfold degenerate. intros Hd. apply dsq_positive.
  apply andb_false_iff in Hd as [Hd|Hd]; [left|right];
    now apply floatingPointEqual_false_nonzero.
Qed.

Lemma degenerate_zero_length (l : GLine.t) :
  (GLine._dx l == 0)%Q -> (GLine._dy l == 0)%Q -> degenerate l = true.
Proof.
  intros Hx Hy. unfold degenerate, GLine.getStartX, GLine.getStartY, GLine.getEndX, GLine.getEndY.
  rewrite !floatingPointEqual_zero; [reflexivity| |]; lra.
Qed.

Lemma near_proper (x y px py qx qy : Q) :
  (px == qx)%Q -> (py == qy)%Q -> near x y px py = near x y qx qy.
Proof.
  intros Ex Ey. unfold near, GLine.dsq.
  destruct (Qltb_spec ((px - x) * (px - x) + (py - y) * (py - y)) tSquared) as [H1|H1];
    destruct (Qltb_spec ((qx - x) * (qx - x) + (qy - y) * (qy - y)) tSquared) as [H2|H2];
    try reflexivity; exfalso; rewrite Ex, Ey in H1; contradiction.
Qed.

(** With doubles read as exact rationals: when both offsets of the
    segment are zero up to the tolerance of floatingPointEqual, contains is
    true exactly for the points whose squared distance to an end point is
    below the squared tolerance; for every other segment it is true exactly
    for the points of the padded bounding box whose squared distance to
    their parametric projection is below the squared tolerance (a point
    near an end point is such a point), and no division by zero is
    evaluated. *)
Lemma GLine_exact_contains_cases (l : GLine.t) (x y : Q) :
  (degenerate l = true ->
   GLine.contains l x y
   = Finite (near x y (GLine.getStartX l) (GLine.getStartY l)
             || near x y (GLine.getEndX l) (GLine.getEndY l)))
  /\ ((GLine._dx l == 0)%Q -> (GLine._dy l == 0)%Q ->
      GLine.contains l x y = Finite (near x y (GLine.getStartX l) (GLine.getStartY l)))
  /\ (degenerate l = false ->
      GLine.contains l x y
      = Finite (in_padded_box (GLine.getStartX l) (GLine.getStartY l)
                              (GLine.getEndX l) (GLine.getEndY l) x y
                && (projection_dsq (GLine.getStartX l) (GLine.getStartY l)
                                   (GLine.getEndX l) (GLine.getEndY l) x y <? tSquared)%dbl)).
Proof.
  assert (Hdeg : degenerate l = true ->
    GLine.contains l x y
    = Finite (near x y (GLine.getStartX l) (GLine.getStartY l)
              || near x y (GLine.getEndX l) (GLine.getEndY l))).
  { intros Hd. unfold degenerate in Hd. unfold GLine.contains. cbv zeta.
    fold (GLine.getEndX l) (GLine.getEndY l).
    fold (GLine.getStartX l) (GLine.getStartY l).
    fold tSquared.
    fold (near x y (GLine.getStartX l) (GLine.getStartY l)).
    fold (near x y (GLine.getEndX l) (GLine.getEndY l)).
    rewrite Hd.
    destruct (near x y (GLine.getStartX l) (GLine.getStartY l)); [reflexivity|].
    destruct (near x y (GLine.getEndX l) (GLine.getEndY l)); [reflexivity|].
    repeat match goal with |- context [if ?b then _ else _] => destruct b end; reflexivity. }
  split; [exact Hdeg|]. split.
  - intros Hx Hy. rewrite (Hdeg (degenerate_zero_length l Hx Hy)).
    rewrite (near_proper x y (GLine.getEndX l) (GLine.getEndY l)
                         (GLine.getStartX l) (GLine.getStartY l))
      by (unfold GLine.getEndX, GLine.getEndY, GLine.getStartX, GLine.getStartY; lra).
    now rewrite orb_diag.
  - intros Hd. pose proof (degenerate_false_positive l Hd) as Hp.
    unfold degenerate in Hd. unfold GLine.contains. cbv zeta.
    fold (GLine.getEndX l) (GLine.getEndY l).
    fold (GLine.getStartX l) (GLine.getStartY l).
    fold tSquared.
    fold (near x y (GLine.getStartX l) (GLine.getStartY l)).
    fold (near x y (GLine.getEndX l) (GLine.getEndY l)).
    rewrite Hd.
    set (sx := GLine.getStartX l) in *. set (sy := GLine.getStartY l) in *.
    set (ex := GLine.getEndX l) in *. set (ey := GLine.getEndY l) in *.
    destruct (near x y sx sy) eqn:N0.
    { rewrite (near_in_padded_box sx sy ex ey x y sx sy), (near_projection sx sy ex ey x y sx sy);
        auto; left; split; reflexivity. }
    destruct (near x y ex ey) eqn:N1.
    { rewrite (near_in_padded_box sx sy ex ey x y ex ey), (near_projection sx sy ex ey x y ex ey);
        auto; right; split; reflexivity. }
    unfold in_padded_box. unfold Qltb at 1 2 3 4.
    destruct (Qle_bool (std_min sx ex - LINE_TOLERANCE) x); [|reflexivity].
    destruct (Qle_bool x (std_max sx ex + LINE_TOLERANCE)); [|reflexivity].
    destruct (Qle_bool (std_min sy ey - LINE_TOLERANCE) y); [|reflexivity].
    destruct (Qle_bool y (std_max sy ey + LINE_TOLERANCE)); [|reflexivity].
    cbn [negb andb].
    rewrite divide_nonzero by lra. reflexivity.
Qed.

(** *** The test in binary64 *)

Section Binary64Facts.
Import PrimFloat.




(** The comparison is made on the rounded squared distance: the point
    (1.5 - 2^-52, 2^-26) is closer than 1.5 to the origin, and the
    zero-length segment at the origin does not contain it, because its
    squared distance rounds to 2.25. *)
Lemma GLine_contains_rounds_at_tolerance :
  Binary64.GLine.contains (Binary64.GLine.new 0 0 0 0) (1.5 - 0x1p-52) 0x1p-26 = false
  /\ Binary64.GLine.dsq (1.5 - 0x1p-52) 0x1p-26 0 0 = 2.25%float
  /\ GLine.contains (GLine.new 0 0 0 0) ((3 # 2) - (1 # 2 ^ 52)) (1 # 2 ^ 26) = Finite true.
Proof. vm_compute. repeat split. Qed.

(** Under rounding the test of the end points is an alternative of its
    own: the segment from (0, 0) to (3, 4) contains the point
    (-1.2, 0.8999999999999998), which is near its start point, although the
    computed squared distance of that point to its projection is not below
    the squared tolerance. *)
Lemma GLine_contains_end_point_alternative :
  let l := Binary64.GLine.new 0 0 3 4 in
  let x := (-0x1.3333333333333p+0)%float in
  let y := 0x1.ccccccccccccbp-1%float in
  Binary64Checks.degenerate l = false
  /\ Binary64.GLine.contains l x y = true
  /\ Binary64Checks.near x y 0 0 = true
  /\ (Binary64Checks.projection_dsq 0 0 3 4 x y <? Binary64Checks.tSquared)%float = false.
Proof. vm_compute. repeat split. Qed.

End Binary64Facts.

(** ** GCompound: the scene graph *)

Lemma contents_of_set_contents (h : Heap) (c c' : addr) (v : list addr) :
  contents_of (set_contents c v h) c' = if decide (c = c') then v else contents_of h c'.
Proof.
  unfold contents_of, set_contents. cbn [contents].
  rewrite lookup_insert. now destruct (decide (c = c')).
Qed.

Lemma contents_of_set_parent (h : Heap) (g : addr) (p : option addr) (c : addr) :
  contents_of (set_parent g p h) c = contents_of h c.
Proof. reflexivity. Qed.

Lemma parent_of_set_contents (h : Heap) (c : addr) (v : list addr) (g : addr) :
  parent_of (set_contents c v h) g = parent_of h g.
Proof. reflexivity. Qed.

Lemma parent_of_set_parent (h : Heap) (g g' : addr) (p : option addr) :
  parent_of (set_parent g p h) g' = if decide (g = g') then p else parent_of h g'.
Proof.
  unfold parent_of, set_parent. cbn [parent].
  destruct p; [rewrite lookup_insert|rewrite lookup_delete]; now destruct (decide (g = g')).
Qed.

Lemma set_contents_twice (h : Heap) (c : addr) (v v' : list addr) :
  set_contents c v' (set_contents c v h) = set_contents c v' h.
Proof.
  unfold set_contents. cbn [parent contents]. now rewrite insert_insert_eq.
Qed.

(** [findGObject] returns the index of the first occurrence, or -1. *)
Lemma findGObject_from_spec (v : list addr) (g : addr) (i : Z) :
  (0 <= i)%Z ->
  ((g ∉ v) /\ findGObject_from v g i = (-1)%Z)
  \/ (exists p q, v = p ++ g :: q /\ (g ∉ p)
                  /\ findGObject_from v g i = (i + Z.of_nat (length p))%Z).
Proof.
  revert i. induction v as [|a v IH]; intros i Hi.
  - left. split; [apply not_elem_of_nil|reflexivity].
  - cbn [findGObject_from]. destruct (decide (a = g)) as [->|Hne].
    + right. exists [], v. repeat split; [apply not_elem_of_nil|cbn; lia].
    + destruct (IH (i + 1)%Z ltac:(lia)) as [[Hn E]|(p & q & -> & Hp & E)].
      * left. split; [|exact E]. rewrite not_elem_of_cons. split; [congruence|exact Hn].
      * right. exists (a :: p), q. repeat split.
        -- rewrite not_elem_of_cons. split; [congruence|exact Hp].
        -- rewrite E. cbn [length]. lia.
Qed.

Lemma findGObject_from_app (p q : list addr) (g : addr) (i : Z) :
  g ∉ p -> findGObject_from (p ++ g :: q) g i = (i + Z.of_nat (length p))%Z.
Proof.
  revert i. induction p as [|a p IH]; intros i Hp; cbn [app findGObject_from length].
  - rewrite decide_True by reflexivity. lia.
  - apply not_elem_of_cons in Hp as [Hne Hp].
    rewrite decide_False by congruence. rewrite IH by exact Hp. lia.
Qed.

Lemma findGObject_from_first (p q : list addr) (g : addr) :
  g ∉ p -> findGObject_from (p ++ g :: q) g 0 = Z.of_nat (length p).
Proof. intros Hp. now rewrite findGObject_from_app. Qed.

Lemma findGObject_from_absent (v : list addr) (g : addr) :
  g ∉ v -> findGObject_from v g 0 = (-1)%Z.
Proof.
  intros Hn.
  destruct (findGObject_from_spec v g 0 ltac:(lia)) as [[_ E]|(p & q & -> & _ & _)];
    [exact E|].
  exfalso. apply Hn. rewrite elem_of_app, elem_of_cons. auto.
Qed.

Lemma index_in_range (i n : Z) : (0 <= i < n)%Z -> ((0 <=? i) && (i <? n))%Z = true.
Proof. intros H. apply andb_true_intro. split; [apply Z.leb_le|apply Z.ltb_lt]; lia. Qed.

Lemma index_in_range_incl (i n : Z) : (0 <= i <= n)%Z -> ((0 <=? i) && (i <=? n))%Z = true.
Proof. intros H. apply andb_true_intro. split; apply Z.leb_le; lia. Qed.

Lemma Vector_get_middle (p q : list addr) (g : addr) :
  Vector.get (p ++ g :: q) (Z.of_nat (length p)) = Ok g.
Proof.
  unfold Vector.get, Vector.size.
  rewrite index_in_range by (rewrite length_app; cbn [length]; lia).
  rewrite Nat2Z.id. now rewrite list_lookup_middle.
Qed.

Lemma delete_middle (p q : list addr) (g : addr) :
  delete (length p) (p ++ g :: q) = p ++ q.
Proof.
  induction p as [|a p IH]; [reflexivity|]. cbn. f_equal. exact IH.
Qed.

Lemma Vector_remove_middle (p q : list addr) (g : addr) :
  Vector.remove (p ++ g :: q) (Z.of_nat (length p)) = Ok (p ++ q).
Proof.
  unfold Vector.remove, Vector.size.
  rewrite index_in_range by (rewrite length_app; cbn [length]; lia).
  rewrite Nat2Z.id. f_equal. apply delete_middle.
Qed.

Lemma Vector_insert_in_range (v : list addr) (n : nat) (g : addr) :
  n <= length v ->
  Vector.insert v (Z.of_nat n) g = Ok (take n v ++ g :: drop n v).
Proof.
  intros Hn. unfold Vector.insert, Vector.size.
  rewrite index_in_range_incl by lia. now rewrite Nat2Z.id.
Qed.

Ltac heap_unfold :=
  cbv [add remove removeAt removeAll move_to sendBackward sendForward sendToBack sendToFront
       findGObject require_nonNull conditionalRepaint conditionalRepaintRegion lift
       mbind mret stm_bind stm_ret error modify gets state_after succeeds].

Lemma add_run (h : Heap) (c g : addr) :
  add c (Some g) h
  = (Ok tt, set_parent g (Some c) (set_contents c (contents_of h c ++ [g]) h)).
Proof. reflexivity. Qed.

Lemma removeAt_middle (h : Heap) (c g : addr) (p q : list addr) :
  contents_of h c = p ++ g :: q ->
  removeAt c (Z.of_nat (length p)) h
  = (Ok tt, set_parent g None (set_contents c (p ++ q) h)).
Proof.
  intros Hl. heap_unfold. rewrite Hl, Vector_get_middle, Vector_remove_middle. reflexivity.
Qed.

Lemma removeAt_out_of_range (h : Heap) (c : addr) (index : Z) :
  ~ (0 <= index < Vector.size (contents_of h c))%Z ->
  exists msg, removeAt c index h = (ErrorException msg, h).
Proof.
  intros Hr. heap_unfold. unfold Vector.get.
  destruct ((0 <=? index) && (index <? Vector.size (contents_of h c)))%Z eqn:E.
  - exfalso. apply Hr. apply andb_true_iff in E as [E1 E2].
    apply Z.leb_le in E1. apply Z.ltb_lt in E2. lia.
  - eexists. reflexivity.
Qed.

Lemma index_split (v : list addr) (index : Z) :
  (0 <= index < Vector.size v)%Z ->
  exists p g q, v = p ++ g :: q /\ index = Z.of_nat (length p).
Proof.
  unfold Vector.size. intros Hr.
  destruct (lookup_lt_is_Some_2 v (Z.to_nat index) ltac:(lia)) as [g Hg].
  destruct (list_elem_of_split_length v (Z.to_nat index) g Hg) as (p & q & -> & Hp).
  exists p, g, q. split; [reflexivity|lia].
Qed.

Lemma index_not_minus_one (n : nat) : (Z.of_nat n =? -1)%Z = false.
Proof. apply Z.eqb_neq. lia. Qed.

Lemma remove_absent (h : Heap) (c g : addr) :
  g ∉ contents_of h c -> remove c (Some g) h = (Ok tt, h).
Proof.
  intros Hn. heap_unfold. now rewrite (findGObject_from_absent _ _ Hn).
Qed.

Lemma remove_first (h : Heap) (c g : addr) (p q : list addr) :
  contents_of h c = p ++ g :: q -> g ∉ p ->
  remove c (Some g) h = (Ok tt, set_parent g None (set_contents c (p ++ q) h)).
Proof.
  intros Hl Hp.
  cbv [remove findGObject require_nonNull mbind mret stm_bind stm_ret gets].
  rewrite Hl, (findGObject_from_first p q g Hp), index_not_minus_one.
  now apply removeAt_middle.
Qed.

Lemma removeAll_run (h : Heap) (c : addr) :
  removeAll c h
  = (Ok tt, fold_left (fun h' obj => set_parent obj None h') (contents_of h c)
                      (set_contents c [] h)).
Proof.
  heap_unfold. now destruct (Vector.size (contents_of h c) =? 0)%Z.
Qed.

Lemma move_to_run (h : Heap) (c g : addr) (p q : list addr) (n : nat) :
  contents_of h c = p ++ g :: q -> n <= length (p ++ q) ->
  move_to c (Z.of_nat (length p)) (Z.of_nat n) g h
  = (Ok tt, set_contents c (take n (p ++ q) ++ g :: drop n (p ++ q)) h).
Proof.
  intros Hl Hn. heap_unfold. rewrite Hl, Vector_remove_middle.
  rewrite (Vector_insert_in_range (p ++ q) n g Hn).
  now rewrite set_contents_twice.
Qed.

Lemma sendToFront_absent (h : Heap) (c g : addr) :
  g ∉ contents_of h c -> sendToFront c (Some g) h = (Ok tt, h).
Proof.
  intros Hn. heap_unfold. now rewrite (findGObject_from_absent _ _ Hn).
Qed.

Lemma sendToFront_first (h : Heap) (c g : addr) (p q : list addr) :
  contents_of h c = p ++ g :: q -> g ∉ p ->
  sendToFront c (Some g) h
  = (Ok tt, match q with [] => h | _ :: _ => set_contents c (p ++ q ++ [g]) h end).
Proof.
  intros Hl Hp. heap_unfold. rewrite Hl, (findGObject_from_first p q g Hp).
  rewrite index_not_minus_one.
  unfold Vector.size. rewrite Hl, length_app. cbn [length].
  destruct q as [|b q].
  - cbn [length]. rewrite (proj2 (Z.eqb_eq _ _)) by lia. reflexivity.
  - cbn [length]. rewrite (proj2 (Z.eqb_neq _ _)) by lia. cbn [negb].
    rewrite Hl, Vector_remove_middle.
    rewrite contents_of_set_contents, decide_True by reflexivity.
    unfold Vector.add. now rewrite set_contents_twice, <- app_assoc.
Qed.

Lemma sendToBack_absent (h : Heap) (c g : addr) :
  g ∉ contents_of h c -> sendToBack c (Some g) h = (Ok tt, h).
Proof.
  intros Hn. heap_unfold. now rewrite (findGObject_from_absent _ _ Hn).
Qed.

Lemma sendToBack_first (h : Heap) (c g : addr) (p q : list addr) :
  contents_of h c = p ++ g :: q -> g ∉ p ->
  sendToBack c (Some g) h
  = (Ok tt, match p with [] => h | _ :: _ => set_contents c (g :: p ++ q) h end).
Proof.
  intros Hl Hp.
  cbv [sendToBack findGObject require_nonNull mbind mret stm_bind stm_ret gets].
  rewrite Hl, (findGObject_from_first p q g Hp), index_not_minus_one.
  destruct p as [|b p]; [reflexivity|].
  rewrite (proj2 (Z.eqb_neq (Z.of_nat (length (b :: p))) 0)) by (cbn [length]; lia).
  cbn [negb]. exact (move_to_run h c g (b :: p) q 0 Hl ltac:(lia)).
Qed.

Lemma sendForward_absent (h : Heap) (c g : addr) :
  g ∉ contents_of h c -> sendForward c (Some g) h = (Ok tt, h).
Proof.
  intros Hn. heap_unfold. now rewrite (findGObject_from_absent _ _ Hn).
Qed.

Lemma sendForward_first (h : Heap) (c g : addr) (p q : list addr) :
  contents_of h c = p ++ g :: q -> g ∉ p ->
  sendForward c (Some g) h
  = (Ok tt, match q with
            | [] => h
            | _ :: _ => set_contents c (take (S (length p)) (p ++ q)
                                        ++ g :: drop (S (length p)) (p ++ q)) h
            end).
Proof.
  intros Hl Hp.
  cbv [sendForward findGObject require_nonNull mbind mret stm_bind stm_ret gets].
  rewrite Hl, (findGObject_from_first p q g Hp), index_not_minus_one.
  cbv beta. unfold Vector.size. rewrite Hl, length_app. cbn [length].
  destruct q as [|b q].
  - cbn [length]. now rewrite (proj2 (Z.eqb_eq _ _)) by lia.
  - cbn [length]. rewrite (proj2 (Z.eqb_neq _ _)) by lia. cbn [negb].
    replace (Z.of_nat (length p) + 1)%Z with (Z.of_nat (S (length p))) by lia.
    apply (move_to_run h c g p (b :: q) (S (length p)) Hl).
    rewrite length_app. cbn [length]. lia.
Qed.

Lemma sendBackward_absent (h : Heap) (c g : addr) :
  g ∉ contents_of h c -> sendBackward c (Some g) h = (Ok tt, h).
Proof.
  intros Hn. heap_unfold. now rewrite (findGObject_from_absent _ _ Hn).
Qed.

Lemma sendBackward_first (h : Heap) (c g : addr) (p q : list addr) :
  contents_of h c = p ++ g :: q -> g ∉ p ->
  sendBackward c (Some g) h
  = (Ok tt, match p with
            | [] => h
            | _ :: _ => set_contents c (take (length p - 1) (p ++ q)
                                        ++ g :: drop (length p - 1) (p ++ q)) h
            end).
Proof.
  intros Hl Hp.
  cbv [sendBackward findGObject require_nonNull mbind mret stm_bind stm_ret gets].
  rewrite Hl, (findGObject_from_first p q g Hp), index_not_minus_one.
  destruct p as [|b p]; [reflexivity|].
  rewrite (proj2 (Z.eqb_neq (Z.of_nat (length (b :: p))) 0)) by (cbn [length]; lia).
  cbn [negb].
  replace (Z.of_nat (length (b :: p)) - 1)%Z with (Z.of_nat (length (b :: p) - 1))
    by (cbn [length]; lia).
  apply (move_to_run h c g (b :: p) q (length (b :: p) - 1) Hl).
  rewrite length_app. lia.
Qed.

Lemma insert_Permutation (v : list addr) (n : nat) (g : addr) :
  take n v ++ g :: drop n v ≡ₚ g :: v.
Proof.
  rewrite <- Permutation_middle. now rewrite take_drop.
Qed.

(** *** The ownership invariant *)

Lemma agrees_exclusive (h : Heap) : agrees h -> exclusive h.
Proof.
  intros Ha g c1 c2 H1 H2. apply Ha in H1, H2. congruence.
Qed.

Lemma consistent_empty : consistent empty_heap.
Proof.
  split.
  - intros g c. unfold parent_of, contents_of, empty_heap. cbn [parent contents].
    rewrite !lookup_empty. cbn. split; [discriminate|]. intros H. now apply elem_of_nil in H.
  - intros c. unfold contents_of, empty_heap. cbn [contents]. rewrite lookup_empty. constructor.
Qed.

Lemma consistent_reorder (h : Heap) (c : addr) (v : list addr) :
  consistent h -> v ≡ₚ contents_of h c -> consistent (set_contents c v h).
Proof.
  intros [Ha Hn] Hp. unfold agrees, no_repeats in Ha, Hn. split.
  - intros g c'. rewrite parent_of_set_contents, contents_of_set_contents.
    destruct (decide (c = c')) as [<-|]; [rewrite Hp|]; apply Ha.
  - intros c'. rewrite contents_of_set_contents.
    destruct (decide (c = c')) as [<-|]; [rewrite Hp|]; apply Hn.
Qed.

Lemma consistent_add (h : Heap) (c g : addr) :
  consistent h -> parent_of h g = None ->
  consistent (set_parent g (Some c) (set_contents c (contents_of h c ++ [g]) h)).
Proof.
  intros [Ha Hn] Hg. unfold agrees, no_repeats in Ha, Hn.
  assert (Hfree : forall c', g ∉ contents_of h c').
  { intros c' Hin. apply Ha in Hin. congruence. }
  split.
  - intros g' c'. rewrite parent_of_set_parent, parent_of_set_contents,
      contents_of_set_parent, contents_of_set_contents.
    destruct (decide (g = g')) as [<-|Hg'], (decide (c = c')) as [<-|Hc'].
    + rewrite elem_of_app, list_elem_of_singleton. split; auto.
    + split; [congruence|]. intros Hin. now apply Hfree in Hin.
    + rewrite elem_of_app, list_elem_of_singleton, <- Ha. split; [auto|]. intros [?|?]; congruence.
    + apply Ha.
  - intros c'. rewrite contents_of_set_parent, contents_of_set_contents.
    destruct (decide (c = c')) as [<-|]; [|apply Hn].
    apply NoDup_app. split; [apply Hn|]. split; [|apply NoDup_singleton].
    intros x Hx Hx'. apply list_elem_of_singleton in Hx' as ->. now apply Hfree in Hx.
Qed.

Lemma consistent_remove (h : Heap) (c g : addr) (p q : list addr) :
  consistent h -> contents_of h c = p ++ g :: q ->
  consistent (set_parent g None (set_contents c (p ++ q) h)).
Proof.
  intros [Ha Hn] Hl. unfold agrees, no_repeats in Ha, Hn.
  pose proof (Hn c) as Hnd. rewrite Hl in Hnd.
  apply NoDup_app in Hnd as (Hp & Hpq & Hq). apply NoDup_cons in Hq as [Hgq Hq].
  assert (Hgp : g ∉ p). { intros Hin. apply (Hpq g Hin). left. }
  assert (Hpar : parent_of h g = Some c).
  { apply Ha. rewrite Hl, elem_of_app, elem_of_cons. auto. }
  split.
  - intros g' c'. rewrite parent_of_set_parent, parent_of_set_contents,
      contents_of_set_parent, contents_of_set_contents.
    destruct (decide (g = g')) as [<-|Hg'], (decide (c = c')) as [<-|Hc'].
    + rewrite elem_of_app. split; [discriminate|]. intros [?|?]; contradiction.
    + split; [discriminate|]. intros Hin. apply Ha in Hin. congruence.
    + rewrite Ha, Hl, !elem_of_app, elem_of_cons. split; [|tauto].
      intros [?|[?|?]]; auto. congruence.
    + apply Ha.
  - intros c'. rewrite contents_of_set_parent, contents_of_set_contents.
    destruct (decide (c = c')) as [<-|]; [|apply Hn].
    apply NoDup_app. split; [exact Hp|]. split; [|exact Hq].
    intros x Hx Hx'. apply (Hpq x Hx). now right.
Qed.

Lemma clear_parents_contents (l : list addr) (h : Heap) (c : addr) :
  contents_of (fold_left (fun h' obj => set_parent obj None h') l h) c = contents_of h c.
Proof.
  revert h. induction l as [|a l IH]; intros h; [reflexivity|].
  cbn [fold_left]. now rewrite IH.
Qed.

Lemma clear_parents_parent (l : list addr) (h : Heap) (g : addr) :
  parent_of (fold_left (fun h' obj => set_parent obj None h') l h) g
  = if decide (g ∈ l) then None else parent_of h g.
Proof.
  revert h. induction l as [|a l IH]; intros h.
  - cbn [fold_left]. rewrite decide_False; [reflexivity|apply not_elem_of_nil].
  - cbn [fold_left]. rewrite IH, parent_of_set_parent.
    destruct (decide (g ∈ l)) as [Hin|Hin].
    + rewrite decide_True; [reflexivity|now right].
    + destruct (decide (a = g)) as [->|Hne].
      * rewrite decide_True; [reflexivity|left].
      * rewrite decide_False; [reflexivity|].
        rewrite not_elem_of_cons. split; [congruence|exact Hin].
Qed.

Lemma consistent_removeAll (h : Heap) (c : addr) :
  consistent h ->
  consistent (fold_left (fun h' obj => set_parent obj None h') (contents_of h c)
                        (set_contents c [] h)).
Proof.
  intros [Ha Hn]. unfold agrees, no_repeats in Ha, Hn. split.
  - intros g c'.
    rewrite clear_parents_parent, clear_parents_contents,
      parent_of_set_contents, contents_of_set_contents.
    destruct (decide (g ∈ contents_of h c)) as [Hin|Hin], (decide (c = c')) as [<-|Hc'].
    + split; [discriminate|]. intros H. now apply elem_of_nil in H.
    + split; [discriminate|]. intros H. apply Ha in Hin, H. congruence.
    + rewrite Ha. split; [contradiction|]. intros H. now apply elem_of_nil in H.
    + apply Ha.
  - intros c'. rewrite clear_parents_contents, contents_of_set_contents.
    destruct (decide (c = c')); [constructor|apply Hn].
Qed.

(** A call on a present child either leaves the heap alone or reorders
    the children of [c]. *)
Lemma reorder_cases (h h' : Heap) (c : addr) (v : list addr) (unchanged : bool) :
  consistent h -> v ≡ₚ contents_of h c ->
  h' = (if unchanged then h else set_contents c v h) ->
  consistent h'.
Proof.
  intros Hc Hp ->. destruct unchanged; [exact Hc|now apply consistent_reorder].
Qed.

Lemma exec_consistent (op : Op) (h : Heap) :
  consistent h -> orphan_if_added op h -> consistent (state_after (exec op) h).
Proof.
  intros Hc Ho.
  destruct op as [c [g|]|c [g|]|c i|c|c [g|]|c [g|]|c [g|]|c [g|]];
    try exact Hc; cbn [exec]; unfold state_after.
  - rewrite add_run. now apply consistent_add.
  - destruct (decide (g ∈ contents_of h c)) as [Hin|Hin].
    + apply list_elem_of_split_l in Hin as (p & q & Hl & Hp).
      rewrite (remove_first h c g p q Hl Hp). now apply consistent_remove.
    + now rewrite (remove_absent h c g Hin).
  - destruct (decide (0 <= i < Vector.size (contents_of h c))%Z) as [Hr|Hr].
    + destruct (index_split _ _ Hr) as (p & g & q & Hl & ->).
      rewrite (removeAt_middle h c g p q Hl). now apply consistent_remove.
    + destruct (removeAt_out_of_range h c i Hr) as [msg ->]. exact Hc.
  - rewrite removeAll_run. now apply consistent_removeAll.
  - destruct (decide (g ∈ contents_of h c)) as [Hin|Hin].
    + apply list_elem_of_split_l in Hin as (p & q & Hl & Hp).
      rewrite (sendBackward_first h c g p q Hl Hp). cbn [snd].
      apply (reorder_cases h _ c (take (length p - 1) (p ++ q) ++ g :: drop (length p - 1) (p ++ q))
                           (bool_decide (p = [])) Hc).
      * now rewrite insert_Permutation, Hl, <- Permutation_middle.
      * now destruct p.
    + now rewrite (sendBackward_absent h c g Hin).
  - destruct (decide (g ∈ contents_of h c)) as [Hin|Hin].
    + apply list_elem_of_split_l in Hin as (p & q & Hl & Hp).
      rewrite (sendForward_first h c g p q Hl Hp). cbn [snd].
      apply (reorder_cases h _ c (take (S (length p)) (p ++ q) ++ g :: drop (S (length p)) (p ++ q))
                           (bool_decide (q = [])) Hc).
      * now rewrite insert_Permutation, Hl, <- Permutation_middle.
      * now destruct q.
    + now rewrite (sendForward_absent h c g Hin).
  - destruct (decide (g ∈ contents_of h c)) as [Hin|Hin].
    + apply list_elem_of_split_l in Hin as (p & q & Hl & Hp).
      rewrite (sendToBack_first h c g p q Hl Hp). cbn [snd].
      apply (reorder_cases h _ c (g :: p ++ q) (bool_decide (p = [])) Hc).
      * now rewrite Hl, <- Permutation_middle.
      * now destruct p.
    + now rewrite (sendToBack_absent h c g Hin).
  - destruct (decide (g ∈ contents_of h c)) as [Hin|Hin].
    + apply list_elem_of_split_l in Hin as (p & q & Hl & Hp).
      rewrite (sendToFront_first h c g p q Hl Hp). cbn [snd].
      apply (reorder_cases h _ c (p ++ q ++ [g]) (bool_decide (q = [])) Hc).
      * rewrite Hl. apply Permutation_app_head. now rewrite <- Permutation_cons_append.
      * now destruct q.
    + now rewrite (sendToFront_absent h c g Hin).
Qed.

Lemma adds_orphans_cons (op : Op) (ops : list Op) (h : Heap) :
  adds_orphans (op :: ops) h = true ->
  orphan_if_added op h /\ adds_orphans ops (state_after (exec op) h) = true.
Proof.
  cbn [adds_orphans]. intros H. apply andb_true_iff in H as [H1 H2]. split; [|exact H2].
  destruct op as [c [g|]|c [g|]|c i|c|c [g|]|c [g|]|c [g|]|c [g|]]; try exact I.
  cbn [orphan_if_added]. now apply bool_decide_eq_true in H1.
Qed.

(** C5 (as the code has it). From a heap in which the back-references agree
    with the membership lists and no list repeats an object, every
    sequence of add, remove, removeAt, removeAll and z-order calls whose
    adds are given objects without a parent leads to a heap in which no
    object is a child of two compounds, an object's parent is a compound
    exactly when that compound lists it, and no list repeats an object. *)
Theorem GCompound_ownership_invariant (ops : list Op) (h : Heap) :
  agrees h -> no_repeats h -> adds_orphans ops h = true ->
  exclusive (run ops h) /\ agrees (run ops h) /\ no_repeats (run ops h).
Proof.
  intros Ha Hn Hops.
  assert (Hc : consistent (run ops h)).
  { assert (Hh : consistent h) by (split; assumption). clear Ha Hn.
    revert h Hh Hops. induction ops as [|op ops IH]; intros h Hh Hops; [exact Hh|].
    apply adds_orphans_cons in Hops as [Ho Hops].
    unfold run. cbn [fold_left]. apply IH; [|exact Hops].
    now apply exec_consistent. }
  destruct Hc as [Ha' Hn']. split; [now apply agrees_exclusive|]. split; assumption.
Qed.

(** Object 2 is added to compound 1, sent to the back, removed, and then
    added to compound 5 together with compound 1 itself. *)
Lemma GCompound_ownership_invariant_witness :
  let ops := [Add 1 (Some 2); Add 1 (Some 3); SendToBack 1 (Some 3); Remove 1 (Some 2);
              Add 5 (Some 2); Add 5 (Some 1); RemoveAt 5 7; SendToFront 5 (Some 2)]%positive in
  exclusive (run ops empty_heap) /\ agrees (run ops empty_heap)
  /\ no_repeats (run ops empty_heap).
Proof.
  intros ops.
  apply (GCompound_ownership_invariant ops empty_heap).
  - apply consistent_empty.
  - apply consistent_empty.
  - vm_compute. reflexivity.
Defined.

(** C5 (as stated) fails: add does not look at the parent the object
    already has.  After compound 1 and then compound 5 add object 2, both
    list it, and its parent is compound 5 only. *)
Lemma GCompound_add_shares_child :
  let h := run [Add 1 (Some 2); Add 5 (Some 2)]%positive empty_heap in
  contents_of h 1%positive = [2%positive]
  /\ contents_of h 5%positive = [2%positive]
  /\ parent_of h 2%positive = Some 5%positive
  /\ ~ exclusive h
  /\ ~ agrees h.
Proof.
  intros h.
  assert (H1 : contents_of h 1%positive = [2%positive]) by reflexivity.
  assert (H5 : contents_of h 5%positive = [2%positive]) by reflexivity.
  assert (Hp : parent_of h 2%positive = Some 5%positive) by reflexivity.
  repeat split; try assumption.
  - intros He. specialize (He 2 1 5)%positive. rewrite H1, H5 in He.
    discriminate He; left.
  - intros Ha. specialize (Ha 2 1)%positive. rewrite H1, Hp in Ha.
    destruct Ha as [_ Ha]. discriminate Ha. left.
Qed.

(** *** Z-order *)

Lemma filter_other_middle (g : addr) (p q : list addr) :
  filter (fun a => a ≠ g) (p ++ g :: q) = filter (fun a => a ≠ g) (p ++ q).
Proof.
  rewrite !filter_app, filter_cons_False; [reflexivity|]. intros Hne. now apply Hne.
Qed.

Lemma filter_other_snoc (g : addr) (v : list addr) :
  filter (fun a => a ≠ g) (v ++ [g]) = filter (fun a => a ≠ g) v.
Proof.
  rewrite (filter_other_middle g v []). now rewrite app_nil_r.
Qed.

Lemma first_occurrence_unique (g : addr) (p q p' q' : list addr) :
  p ++ g :: q = p' ++ g :: q' -> g ∉ p -> g ∉ p' -> p = p' /\ q = q'.
Proof.
  intros E Hp Hp'.
  assert (Hlen : length p = length p').
  { apply Nat2Z.inj. rewrite <- (findGObject_from_first p q g Hp),
      <- (findGObject_from_first p' q' g Hp'). now rewrite E. }
  apply app_inj_1 in E as [-> E]; [|exact Hlen]. now injection E.
Qed.

Lemma sendToFront_last (h : Heap) (c g : addr) (p : list addr) :
  contents_of h c = p ++ [g] -> g ∉ p -> sendToFront c (Some g) h = (Ok tt, h).
Proof. intros Hl Hp. exact (sendToFront_first h c g p [] Hl Hp). Qed.

(** C7 (as the code has it). For a child g of compound c: after
    sendToFront g is the last child, after sendToBack it is the first, and
    in both cases the other children keep their order and the children are
    the same.  When g occurs once and is already last, sendToFront changes
    nothing; when g is already first, sendToBack changes nothing; doing
    either twice is the same as doing it once (for sendToFront: when g
    occurs once).  When g is not a child both calls change nothing. *)
Theorem GCompound_sendToFront_sendToBack_order (h : Heap) (c g : addr) :
  let l := contents_of h c in
  let front := state_after (sendToFront c (Some g)) h in
  let back := state_after (sendToBack c (Some g)) h in
  (g ∈ l -> last (contents_of front c) = Some g /\ head (contents_of back c) = Some g)
  /\ filter (fun a => a ≠ g) (contents_of front c) = filter (fun a => a ≠ g) l
  /\ filter (fun a => a ≠ g) (contents_of back c) = filter (fun a => a ≠ g) l
  /\ contents_of front c ≡ₚ l
  /\ contents_of back c ≡ₚ l
  /\ (forall p, l = p ++ [g] -> g ∉ p -> front = h)
  /\ (forall q, l = g :: q -> back = h)
  /\ (forall p q, l = p ++ g :: q -> g ∉ p -> g ∉ q ->
      state_after (sendToFront c (Some g)) front = front)
  /\ state_after (sendToBack c (Some g)) back = back
  /\ (g ∉ l -> front = h /\ back = h).
Proof.
  intros l front back. subst l front back. unfold state_after.
  destruct (decide (g ∈ contents_of h c)) as [Hin|Hin].
  - apply list_elem_of_split_l in Hin as (p & q & Hl & Hp).
    rewrite (sendToFront_first h c g p q Hl Hp), (sendToBack_first h c g p q Hl Hp).
    cbn [snd].
    assert (Hfront : contents_of (match q with [] => h | _ :: _ => set_contents c (p ++ q ++ [g]) h end) c
                     = (p ++ q) ++ [g]).
    { destruct q as [|b q].
      - now rewrite Hl, app_nil_r.
      - rewrite contents_of_set_contents, decide_True by reflexivity. now rewrite app_assoc. }
    assert (Hback : contents_of (match p with [] => h | _ :: _ => set_contents c (g :: p ++ q) h end) c
                    = g :: p ++ q).
    { destruct p as [|b p]; [exact Hl|].
      now rewrite contents_of_set_contents, decide_True by reflexivity. }
    rewrite Hfront, Hback, Hl.
    split; [intros _; split; [apply last_snoc|reflexivity]|].
    split; [now rewrite filter_other_snoc, filter_other_middle|].
    split; [now rewrite filter_other_middle, (filter_cons_False _ g (p ++ q)) by (intros Hne; now apply Hne)|].
    split; [now rewrite <- Permutation_cons_append, <- Permutation_middle|].
    split; [now rewrite <- Permutation_middle|].
    split.
    { intros p' E Hp'.
      destruct (first_occurrence_unique g p q p' [] E Hp Hp') as [_ ->]. reflexivity. }
    split.
    { intros q' E.
      destruct (first_occurrence_unique g p q [] q' E Hp (not_elem_of_nil g)) as [-> _].
      reflexivity. }
    split.
    { intros p' q' E Hp' Hq'.
      destruct (first_occurrence_unique g p q p' q' E Hp Hp') as [<- <-].
      rewrite (sendToFront_last _ c g (p ++ q) Hfront); [reflexivity|].
      rewrite not_elem_of_app. split; assumption. }
    split.
    { now rewrite (sendToBack_first _ c g [] (p ++ q) Hback (not_elem_of_nil g)). }
    intros Hn. exfalso. apply Hn. rewrite elem_of_app, elem_of_cons. auto.
  - rewrite (sendToFront_absent h c g Hin), (sendToBack_absent h c g Hin). cbn [snd].
    rewrite (sendToFront_absent h c g Hin), (sendToBack_absent h c g Hin). cbn [snd].
    repeat split; intros; try reflexivity; contradiction.
Qed.

(** A compound with the children 2, 3 and 4, and its child 3. *)
Lemma GCompound_sendToFront_sendToBack_order_witness :
  let h := run [Add 1 (Some 2); Add 1 (Some 3); Add 1 (Some 4)]%positive empty_heap in
  (last (contents_of (state_after (sendToFront 1 (Some 3)) h) 1) = Some 3
   /\ head (contents_of (state_after (sendToBack 1 (Some 3)) h) 1) = Some 3)%positive.
Proof.
  intros h.
  apply (proj1 (GCompound_sendToFront_sendToBack_order h 1 3)%positive).
  change (contents_of h 1%positive) with [2; 3; 4]%positive. right. left.
Defined.

(** C7 (as stated) fails: a compound may list an object twice.  With the
    children 2, 3, 2 the object 2 is already last, yet sendToFront finds its
    first occurrence and the children become 3, 2, 2. *)
Lemma GCompound_sendToFront_moves_duplicate :
  let h := run [Add 1 (Some 2); Add 1 (Some 3); Add 1 (Some 2)]%positive empty_heap in
  contents_of h 1%positive = [2; 3; 2]%positive
  /\ last (contents_of h 1%positive) = Some 2%positive
  /\ contents_of (state_after (sendToFront 1%positive (Some 2%positive)) h) 1%positive
     = [3; 2; 2]%positive.
Proof. repeat split. Qed.

(** ** GPolygon: containment *)

#[global] Instance Qltb_comp : Proper (Qeq ==> Qeq ==> eq) Qltb.
Proof. intros a a' Ha b b' Hb. unfold Qltb. now rewrite Ha, Hb. Qed.

Lemma crossing_finite (x y x0 y0 x1 y1 : Q) :
  GPolygon.crossing x y x0 y0 x1 y1 = Finite (crosses x y x0 y0 x1 y1).
Proof.
  unfold GPolygon.crossing, crosses.
  destruct (negb (eqb (y0 >? y)%dbl (y1 >? y)%dbl)) eqn:E; [|reflexivity].
  rewrite divide_nonzero; [reflexivity|].
  intros Hz. assert (Hy : (y1 == y0)%Q) by lra.
  rewrite Hy, eqb_reflx in E. discriminate E.
Qed.

Lemma crosses_level (x y x0 y0 x1 y1 : Q) :
  (y0 == y1)%Q -> crosses x y x0 y0 x1 y1 = false.
Proof.
  intros Hy. unfold crosses. now rewrite Hy, eqb_reflx.
Qed.

Lemma crosses_proper_end (x y x0 y0 x1 y1 x1' y1' : Q) :
  (x1 == x1')%Q -> (y1 == y1')%Q ->
  crosses x y x0 y0 x1 y1 = crosses x y x0 y0 x1' y1'.
Proof.
  intros Hx Hy. unfold crosses. now rewrite Hx, Hy.
Qed.

Lemma contains_loop_path (vs : list QPointF.t) (n : nat) (x y : Q)
    (todo i crossings : nat) (x0 y0 : Q) :
  GPolygon.contains_loop vs n x y todo i crossings x0 y0
  = Finite (crossings
            + path_crossings x y x0 y0
                (map (fun j => GPolygon.at_ vs (j mod n)) (seq i todo))).
Proof.
  revert i crossings x0 y0. induction todo as [|todo IH]; intros i crossings x0 y0.
  - cbn. f_equal. lia.
  - cbn [GPolygon.contains_loop seq map path_crossings].
    rewrite crossing_finite. cbn [mbind outcome_bind]. rewrite IH. f_equal.
    destruct (crosses x y x0 y0 _ _); lia.
Qed.

Lemma path_crossings_app (x y x0 y0 : Q) (pts : list QPointF.t) (q : QPointF.t) :
  path_crossings x y x0 y0 (pts ++ [q])
  = path_crossings x y x0 y0 pts
    + (if crosses x y (QPointF.x (List.last pts (QPointF.mk x0 y0)))
                      (QPointF.y (List.last pts (QPointF.mk x0 y0)))
                      (QPointF.x q) (QPointF.y q)
       then 1 else 0).
Proof.
  revert x0 y0. induction pts as [|p pts IH]; intros x0 y0.
  - cbn. lia.
  - cbn [app path_crossings]. rewrite IH.
    replace (List.last (p :: pts) (QPointF.mk x0 y0))
      with (List.last pts (QPointF.mk (QPointF.x p) (QPointF.y p))).
    + lia.
    + destruct pts as [|p' pts]; [now destruct p|]. cbn [List.last].
      clear. revert p'. induction pts as [|p'' pts IH]; intros p'; [reflexivity|].
      cbn [List.last]. apply IH.
Qed.

Lemma last_snoc_default (pts : list QPointF.t) (q d : QPointF.t) :
  List.last (pts ++ [q]) d = q.
Proof. apply List.last_last. Qed.

(** The points the loop visits: the ring without its first vertex, then
    the first vertex again. *)
Lemma nth_range (vs : list QPointF.t) (a k : nat) :
  a + k <= length vs ->
  map (GPolygon.at_ vs) (seq a k) = take k (drop a vs).
Proof.
  revert a. induction k as [|k IH]; intros a Hk; [now rewrite take_0|].
  cbn [seq map]. rewrite IH by lia.
  destruct (lookup_lt_is_Some_2 vs a ltac:(lia)) as [w Hw].
  rewrite (drop_S vs w a Hw). cbn [take]. f_equal.
  unfold GPolygon.at_. now rewrite nth_lookup, Hw.
Qed.

Lemma ring_indices (vs : list QPointF.t) (n : nat) :
  1 <= n <= length vs ->
  map (fun j => GPolygon.at_ vs (j mod n)) (seq 1 n)
  = drop 1 (take n vs) ++ [GPolygon.at_ vs 0].
Proof.
  intros Hn. destruct n as [|m]; [lia|].
  rewrite seq_S, map_app. cbn [map].
  replace ((1 + m) mod S m) with 0 by (symmetry; apply Nat.Div0.mod_same).
  f_equal.
  rewrite (map_ext_in _ (GPolygon.at_ vs)).
  - rewrite nth_range by lia. rewrite skipn_firstn_comm.
    now replace (S m - 1) with m by lia.
  - intros j Hj. apply in_seq in Hj. rewrite Nat.mod_small by lia. reflexivity.
Qed.

Lemma path_crossings_proper_last (x y x0 y0 : Q) (pts : list QPointF.t) (q q' : QPointF.t) :
  QPointF.same q q' = true ->
  path_crossings x y x0 y0 (pts ++ [q]) = path_crossings x y x0 y0 (pts ++ [q']).
Proof.
  intros E. unfold QPointF.same in E. apply andb_true_iff in E as [Ex Ey].
  apply Qeq_bool_iff in Ex, Ey.
  rewrite !path_crossings_app. f_equal.
  now rewrite (crosses_proper_end _ _ _ _ _ _ _ _ Ex Ey).
Qed.

Lemma ring_crossings_closed (x y : Q) (v0 vl : QPointF.t) (mid : list QPointF.t) :
  QPointF.same v0 vl = true ->
  ring_crossings x y (v0 :: mid ++ [vl]) = ring_crossings x y (v0 :: mid).
Proof.
  intros E. cbn [ring_crossings].
  assert (E' : QPointF.same vl v0 = true).
  { unfold QPointF.same in *. apply andb_true_iff in E as [Ex Ey].
    apply Qeq_bool_iff in Ex, Ey. apply andb_true_iff.
    split; apply Qeq_bool_iff; now symmetry. }
  rewrite path_crossings_app, last_snoc_default.
  rewrite (path_crossings_proper_last x y _ _ mid vl v0 E').
  unfold QPointF.same in E'. apply andb_true_iff in E' as [_ Ey]. apply Qeq_bool_iff in Ey.
  rewrite (crosses_level _ _ _ _ _ _ Ey). lia.
Qed.

(** [contains] is the parity of the crossings around the ring it walks,
    and no division by zero is evaluated on the way. *)
Lemma GPolygon_contains_ring_of (eqb : QPointF.t -> QPointF.t -> bool) (p : GPolygon.t)
    (x y : Q) :
  GPolygon.contains eqb p x y
  = Finite (odd_count (ring_crossings x y (ring_of eqb (GPolygon._vertices p)))).
Proof.
  unfold GPolygon.contains, ring_of. cbv zeta.
  destruct (GPolygon._vertices p) as [|v0 rest]; [reflexivity|].
  destruct rest as [|vl mid _] using rev_ind.
  - cbn [length Nat.ltb Nat.leb ring_crossings app path_crossings].
    rewrite crosses_level by reflexivity. reflexivity.
  - assert (Hlen : length (v0 :: mid ++ [vl]) = S (S (length mid))).
    { cbn [length]. rewrite length_app. cbn [length]. lia. }
    rewrite Hlen. cbn [Nat.ltb Nat.leb].
    assert (H0 : GPolygon.at_ (v0 :: mid ++ [vl]) 0 = v0) by reflexivity.
    rewrite H0.
    destruct (eqb v0 (GPolygon.at_ (v0 :: mid ++ [vl]) (S (S (length mid)) - 1))) eqn:E.
    + rewrite contains_loop_path, ring_indices by (rewrite Hlen; lia).
      rewrite H0. cbn [mbind outcome_bind mret outcome_ret].
      replace (S (S (length mid)) - 1) with (S (length mid)) by lia.
      cbn [take drop]. rewrite drop_0, take_app_length.
      cbn [ring_crossings Nat.add]. reflexivity.
    + rewrite contains_loop_path, ring_indices by (rewrite Hlen; lia).
      rewrite H0. cbn [mbind outcome_bind mret outcome_ret]. do 2 f_equal.
      cbn [ring_crossings Nat.add]. do 2 f_equal.
      rewrite <- Hlen, firstn_all. reflexivity.
Qed.

Lemma distinguishes_spec (eqb : QPointF.t -> QPointF.t -> bool) (vs : list QPointF.t) :
  distinguishes eqb vs = true
  <-> forall p q, In p vs -> In q vs -> eqb p q = true -> QPointF.same p q = true.
Proof.
  unfold distinguishes. rewrite forallb_forall. split.
  - intros H p q Hp Hq E. specialize (H p Hp). rewrite forallb_forall in H.
    specialize (H q Hq). now rewrite E in H.
  - intros H p Hp. rewrite forallb_forall. intros q Hq.
    destruct (eqb p q) eqn:E; [|reflexivity]. cbn. now apply H.
Qed.

(** Where [==] is exact on the first and the last vertex, the ring walked
    has the crossings of the ring of all the vertices. *)
Lemma ring_of_crossings (eqb : QPointF.t -> QPointF.t -> bool) (vs : list QPointF.t)
    (x y : Q) :
  distinguishes eqb vs = true ->
  ring_crossings x y (ring_of eqb vs) = ring_crossings x y vs.
Proof.
  intros Hd. unfold ring_of. cbv zeta.
  destruct vs as [|v0 rest]; [reflexivity|].
  destruct rest as [|vl mid _] using rev_ind; [reflexivity|].
  assert (Hlen : length (v0 :: mid ++ [vl]) = S (S (length mid))).
  { cbn [length]. rewrite length_app. cbn [length]. lia. }
  rewrite Hlen. cbn [Nat.ltb Nat.leb].
  assert (H0 : GPolygon.at_ (v0 :: mid ++ [vl]) 0 = v0) by reflexivity.
  assert (Hl : GPolygon.at_ (v0 :: mid ++ [vl]) (S (S (length mid)) - 1) = vl).
  { unfold GPolygon.at_. replace (S (S (length mid)) - 1) with (S (length mid)) by lia.
    cbn [nth]. rewrite app_nth2, Nat.sub_diag by lia. reflexivity. }
  rewrite H0, Hl.
  destruct (eqb v0 vl) eqn:E; [|reflexivity].
  assert (Hs : QPointF.same v0 vl = true).
  { apply (proj1 (distinguishes_spec eqb _) Hd); [now left| |exact E].
    right. apply in_or_app. right. now left. }
  rewrite (ring_crossings_closed x y v0 vl mid Hs).
  replace (S (S (length mid)) - 1) with (S (length mid)) by lia.
  cbn [take]. now rewrite take_app_length.
Qed.


Lemma ring_crossings_rotate1 (x y : Q) (a : QPointF.t) (l : list QPointF.t) :
  ring_crossings x y (l ++ [a]) = ring_crossings x y (a :: l).
Proof.
  destruct l as [|b l]; [reflexivity|].
  cbn [app ring_crossings path_crossings].
  rewrite path_crossings_app, last_snoc_default. lia.
Qed.

Lemma ring_crossings_rotate (x y : Q) (l1 l2 : list QPointF.t) :
  ring_crossings x y (l2 ++ l1) = ring_crossings x y (l1 ++ l2).
Proof.
  revert l2. induction l1 as [|a l1 IH]; intros l2; [now rewrite app_nil_r|].
  rewrite (cons_middle a l2 l1), app_assoc, IH.
  rewrite app_assoc, ring_crossings_rotate1. reflexivity.
Qed.

Lemma ring_crossings_close (x y : Q) (v0 : QPointF.t) (rest : list QPointF.t) :
  ring_crossings x y ((v0 :: rest) ++ [v0]) = ring_crossings x y (v0 :: rest).
Proof.
  cbn [app ring_crossings]. rewrite path_crossings_app, last_snoc_default.
  rewrite crosses_level by reflexivity. lia.
Qed.

Lemma distinguishes_rotate (eqb : QPointF.t -> QPointF.t -> bool) (l1 l2 : list QPointF.t) :
  distinguishes eqb (l1 ++ l2) = true -> distinguishes eqb (l2 ++ l1) = true.
Proof.
  rewrite !distinguishes_spec. intros H p q Hp Hq.
  apply H; apply in_or_app; [apply in_app_or in Hp|apply in_app_or in Hq]; tauto.
Qed.

Lemma distinguishes_close (eqb : QPointF.t -> QPointF.t -> bool) (v0 : QPointF.t)
    (rest : list QPointF.t) :
  distinguishes eqb (v0 :: rest) = true -> distinguishes eqb ((v0 :: rest) ++ [v0]) = true.
Proof.
  rewrite !distinguishes_spec. intros H p q Hp Hq.
  apply H; [apply in_app_or in Hp as [Hp|[<-|[]]]|apply in_app_or in Hq as [Hq|[<-|[]]]];
    try assumption; now left.
Qed.

(** C8 (as the code has it).  The ring is closed with [operator==] of
    QPointF, which is Qt's and holds of points that are close without being
    equal.  For a vertex list no two vertices of which are equal for [==]
    without having the same coordinates, contains gives the same answer on
    the list, on each of its cyclic rotations, and on the list with a copy
    of its first vertex appended.  Whatever [==] is, contains returns,
    evaluating no division by zero. *)
Theorem GPolygon_contains_rotation_closing (eqb : QPointF.t -> QPointF.t -> bool)
    (p : GPolygon.t) (x y : Q) :
  (forall l1 l2 : list QPointF.t,
      distinguishes eqb (l1 ++ l2) = true ->
      GPolygon.contains eqb (with_vertices (l2 ++ l1) p) x y
      = GPolygon.contains eqb (with_vertices (l1 ++ l2) p) x y)
  /\ (forall (v0 : QPointF.t) (rest : list QPointF.t),
        distinguishes eqb (v0 :: rest) = true ->
        GPolygon.contains eqb (with_vertices ((v0 :: rest) ++ [v0]) p) x y
        = GPolygon.contains eqb (with_vertices (v0 :: rest) p) x y)
  /\ (exists b : bool, GPolygon.contains eqb p x y = Finite b).
Proof.
  split; [|split].
  - intros l1 l2 Hd. rewrite !GPolygon_contains_ring_of.
    cbn [with_vertices GPolygon._vertices].
    rewrite !ring_of_crossings by (first [exact Hd|apply distinguishes_rotate; exact Hd]).
    now rewrite ring_crossings_rotate.
  - intros v0 rest Hd. rewrite !GPolygon_contains_ring_of.
    cbn [with_vertices GPolygon._vertices].
    rewrite !ring_of_crossings by (first [exact Hd|apply distinguishes_close; exact Hd]).
    now rewrite ring_crossings_close.
  - rewrite GPolygon_contains_ring_of. eexists. reflexivity.
Qed.

(** A triangle with Qt's comparison: its vertices are far apart. *)
Lemma GPolygon_contains_rotation_closing_witness :
  GPolygon.contains QPointF.fuzzy_eqb
    (with_vertices ([QPointF.mk 10 10; QPointF.mk (-10) 10] ++ [QPointF.mk 0 0])
       (GPolygon.mk (GObject.new 0 0 0 0) [] 0 0)) 0 5
  = GPolygon.contains QPointF.fuzzy_eqb
      (with_vertices ([QPointF.mk 0 0] ++ [QPointF.mk 10 10; QPointF.mk (-10) 10])
         (GPolygon.mk (GObject.new 0 0 0 0) [] 0 0)) 0 5.
Proof.
  apply (proj1 (GPolygon_contains_rotation_closing QPointF.fuzzy_eqb
                  (GPolygon.mk (GObject.new 0 0 0 0) [] 0 0) 0 5)
           [QPointF.mk 0 0] [QPointF.mk 10 10; QPointF.mk (-10) 10]).
  vm_compute. reflexivity.
Defined.

(** C8 (as stated) fails with Qt's comparison: the last vertex (0, 2^-41)
    is equal to the first one, (0, 0), for [==], so that it is left out of
    the ring when it stands last, and it is part of the ring in the rotation
    that starts at the second vertex and in the list with a copy of the
    first vertex appended.  The point (-2^-43, 2^-42) is inside the first
    ring and outside the two others. *)
Lemma GPolygon_contains_fuzzy_closing :
  let A := QPointF.mk 0 0 in
  let B := QPointF.mk 10 10 in
  let C := QPointF.mk (-10) 10 in
  let A' := QPointF.mk 0 (1 # 2 ^ 41) in
  let p := GPolygon.mk (GObject.new 0 0 0 0) [] 0 0 in
  let x := (- (1 # 2 ^ 43))%Q in
  let y := (1 # 2 ^ 42)%Q in
  QPointF.fuzzy_eqb A A' = true
  /\ GPolygon.contains QPointF.fuzzy_eqb (with_vertices ([A] ++ [B; C; A']) p) x y
     = Finite true
  /\ GPolygon.contains QPointF.fuzzy_eqb (with_vertices ([B; C; A'] ++ [A]) p) x y
     = Finite false
  /\ GPolygon.contains QPointF.fuzzy_eqb (with_vertices ([A; B; C; A'] ++ [A]) p) x y
     = Finite false.
Proof. vm_compute. repeat split. Qed.

(** * Further properties of the code *)

(** ** GObject: moving a shape *)

Lemma Qhalf_cancel (x w : Q) : (x - w / 2 + w / 2 == x)%Q.
Proof. field. Qed.

(** X3. The setters that place a shape by its centre or by its bottom-right
    corner put that point where they are told, whatever the size: after
    setCenterLocation(x, y) the centre is (x, y), after
    setBottomRightLocation(x, y) the bottom-right corner is (x, y);
    setRightX and setCenterX keep the bottom and the centre height;
    move(dx, dy) followed by move(-dx, -dy) is back at the start.  None of
    them throws or touches a field other than _x and _y, transformed shapes
    included. *)
Theorem GObject_location_round_trips (o : GObject.t) (x y dx dy : Q) :
  let centred := state_after (GObject.setCenterLocation x y) o in
  let cornered := state_after (GObject.setBottomRightLocation x y) o in
  let righted := state_after (GObject.setRightX x) o in
  let centredX := state_after (GObject.setCenterX x) o in
  let back := state_after (GObject.move (- dx) (- dy)) (state_after (GObject.move dx dy) o) in
  ((GObject.getCenterX centred == x)%Q /\ (GObject.getCenterY centred == y)%Q)
  /\ ((GObject.getRightX cornered == x)%Q /\ (GObject.getBottomY cornered == y)%Q)
  /\ ((GObject.getRightX righted == x)%Q
      /\ (GObject.getBottomY righted == GObject.getBottomY o)%Q)
  /\ ((GObject.getCenterX centredX == x)%Q
      /\ (GObject.getCenterY centredX == GObject.getCenterY o)%Q)
  /\ ((GObject.getX back == GObject.getX o)%Q /\ (GObject.getY back == GObject.getY o)%Q)
  /\ (forall m : Stm GObject.t unit,
        In m [GObject.setCenterLocation x y; GObject.setBottomRightLocation x y;
              GObject.setRightX x; GObject.setBottomY y; GObject.setCenterX x;
              GObject.setCenterY y; GObject.setX x; GObject.setY y; GObject.move dx dy] ->
        exists x' y', m o = (Ok tt, GObject.set_y y' (GObject.set_x x' o))).
Proof.
  intros centred cornered righted centredX back.
  subst centred cornered righted centredX back.
  cbv [state_after GObject.setCenterLocation GObject.setBottomRightLocation GObject.setRightX
       GObject.setCenterX GObject.move GObject.setLocation GObject.repaint
       mbind mret stm_bind stm_ret gets modify snd fst GObject.set_x GObject.set_y
       GObject.getCenterX GObject.getCenterY GObject.getRightX GObject.getBottomY
       GObject.getX GObject.getY GObject.getWidth GObject.getHeight
       GObject._x GObject._y GObject._width GObject._height].
  split; [split; apply Qhalf_cancel|].
  split; [split; ring|].
  split; [split; ring|].
  split; [split; field|].
  split; [split; ring|].
  intros m Hm. cbn [In] in Hm.
  repeat (destruct Hm as [<-|Hm]; [eexists; eexists; reflexivity|]).
  contradiction.
Qed.

Lemma transformed_by_fields (ops : list GObject.QTransformOp) (o : GObject.t) :
  GObject._transform (transformed_by ops o) = rev ops ++ GObject._transform o
  /\ GObject._transformed (transformed_by ops o)
     = (if ops is [] then GObject._transformed o else true)
  /\ (GObject._x (transformed_by ops o), GObject._y (transformed_by ops o),
      GObject._width (transformed_by ops o), GObject._height (transformed_by ops o))
     = (GObject._x o, GObject._y o, GObject._width o, GObject._height o).
Proof.
  induction ops as [|op ops IH] using rev_ind; [repeat split|].
  destruct IH as (IHt & _ & IHg).
  unfold transformed_by in *. rewrite fold_left_app. cbn [fold_left].
  set (t := fold_left _ ops o) in *. clearbody t.
  rewrite rev_app_distr. cbn [rev app].
  destruct op;
    cbv [transform_call state_after GObject.rotate GObject.scale2 GObject.repaint
         mbind mret stm_bind stm_ret modify snd
         GObject.set_transformed GObject.set_transform];
    cbn [GObject._transform GObject._transformed GObject._x GObject._y
         GObject._width GObject._height];
    rewrite IHt; (split; [reflexivity|]); (split; [now destruct ops|exact IHg]).
Qed.

(** X4. rotate and scale mark the shape as transformed and resetTransform
    takes the mark back: after any calls of rotate and scale, at least one,
    setSize throws; the calls are recorded in order and none of them moves
    or resizes the shape; after resetTransform the record is empty and
    setSize stores the new size instead of throwing. *)
Theorem GObject_resetTransform_allows_setSize (o : GObject.t)
    (ops : list GObject.QTransformOp) (width height : Q) :
  let t := transformed_by ops o in
  let r := state_after GObject.resetTransform t in
  (ops <> [] -> succeeds (GObject.setSize width height) t = false
                /\ state_after (GObject.setSize width height) t = t)
  /\ GObject._transform t = rev ops ++ GObject._transform o
  /\ (GObject.getX t, GObject.getY t, GObject.getWidth t, GObject.getHeight t)
     = (GObject.getX o, GObject.getY o, GObject.getWidth o, GObject.getHeight o)
  /\ succeeds GObject.resetTransform t = true
  /\ GObject._transformed r = false
  /\ GObject._transform r = []
  /\ GObject.setSize width height r
     = (Ok tt, GObject.set_height height (GObject.set_width width r))
  /\ (GObject.getX r, GObject.getY r, GObject.getWidth r, GObject.getHeight r)
     = (GObject.getX o, GObject.getY o, GObject.getWidth o, GObject.getHeight o).
Proof.
  intros t r. destruct (transformed_by_fields ops o) as (Ht & Hf & Hg). fold t in Ht, Hf, Hg.
  split.
  { intros Hne. assert (Hm : GObject._transformed t = true) by (rewrite Hf; now destruct ops).
    unfold succeeds, state_after.
    now rewrite (GObject_setSize_transformed t width height Hm). }
  split; [exact Ht|]. split; [exact Hg|].
  repeat split. exact Hg.
Qed.

(** ** GLine: end points and bounds *)

(** X5. setEndPoint(x, y) puts the end point at (x, y) and leaves the start
    point; setStartPoint(x, y) puts the start point at (x, y) and leaves
    the end point where it was.  Neither throws. *)
Theorem GLine_setEndPoint_setStartPoint (l : GLine.t) (x y : Q) :
  let e := state_after (GLine.setEndPoint x y) l in
  let s := state_after (GLine.setStartPoint x y) l in
  succeeds (GLine.setEndPoint x y) l = true
  /\ succeeds (GLine.setStartPoint x y) l = true
  /\ ((GLine.getEndX e == x)%Q /\ (GLine.getEndY e == y)%Q
      /\ GLine.getStartX e = GLine.getStartX l /\ GLine.getStartY e = GLine.getStartY l)
  /\ (GLine.getStartX s = x /\ GLine.getStartY s = y
      /\ (GLine.getEndX s == GLine.getEndX l)%Q /\ (GLine.getEndY s == GLine.getEndY l)%Q).
Proof.
  intros e s. subst e s.
  cbv [state_after succeeds GLine.setEndPoint GLine.setStartPoint GLine.lift_obj
       GObject.setLocation GObject.repaint mbind mret stm_bind stm_ret gets modify snd fst
       GObject.set_x GObject.set_y GLine.getEndX GLine.getEndY GLine.getStartX GLine.getStartY
       GObject.getX GObject.getY GObject._x GObject._y GLine.obj GLine._dx GLine._dy].
  repeat split; ring.
Qed.




(** ** GLine: what a segment contains *)

(** [contains] as one formula; the quotient is evaluated only past the
    guard, where the divisor is positive. *)
Lemma GLine_contains_formula (l : GLine.t) (x y : Q) :
  GLine.contains l x y
  = Finite (near x y (GLine.getStartX l) (GLine.getStartY l)
            || near x y (GLine.getEndX l) (GLine.getEndY l)
            || (in_padded_box (GLine.getStartX l) (GLine.getStartY l)
                              (GLine.getEndX l) (GLine.getEndY l) x y
                && negb (degenerate l)
                && (projection_dsq (GLine.getStartX l) (GLine.getStartY l)
                                   (GLine.getEndX l) (GLine.getEndY l) x y <? tSquared)%dbl)).
Proof.
  destruct (degenerate l) eqn:Hd.
  - unfold degenerate in Hd. unfold GLine.contains. cbv zeta.
    fold (GLine.getEndX l) (GLine.getEndY l).
    fold (GLine.getStartX l) (GLine.getStartY l).
    fold tSquared.
    fold (near x y (GLine.getStartX l) (GLine.getStartY l)).
    fold (near x y (GLine.getEndX l) (GLine.getEndY l)).
    rewrite Hd.
    destruct (near x y (GLine.getStartX l) (GLine.getStartY l)); [reflexivity|].
    destruct (near x y (GLine.getEndX l) (GLine.getEndY l)); [reflexivity|].
    cbn [orb negb]. rewrite andb_false_r. cbn [andb].
    repeat match goal with |- context [if ?b then _ else _] => destruct b end; reflexivity.
  - pose proof (degenerate_false_positive l Hd) as Hp.
    unfold degenerate in Hd. unfold GLine.contains. cbv zeta.
    fold (GLine.getEndX l) (GLine.getEndY l).
    fold (GLine.getStartX l) (GLine.getStartY l).
    fold tSquared.
    fold (near x y (GLine.getStartX l) (GLine.getStartY l)).
    fold (near x y (GLine.getEndX l) (GLine.getEndY l)).
    rewrite Hd.
    destruct (near x y (GLine.getStartX l) (GLine.getStartY l)); [reflexivity|].
    destruct (near x y (GLine.getEndX l) (GLine.getEndY l)); [reflexivity|].
    cbn [orb negb]. rewrite andb_true_r.
    unfold in_padded_box. unfold Qltb at 1 2 3 4.
    destruct (Qle_bool (std_min (GLine.getStartX l) (GLine.getEndX l) - LINE_TOLERANCE) x);
      [|reflexivity].
    destruct (Qle_bool x (std_max (GLine.getStartX l) (GLine.getEndX l) + LINE_TOLERANCE));
      [|reflexivity].
    destruct (Qle_bool (std_min (GLine.getStartY l) (GLine.getEndY l) - LINE_TOLERANCE) y);
      [|reflexivity].
    destruct (Qle_bool y (std_max (GLine.getStartY l) (GLine.getEndY l) + LINE_TOLERANCE));
      [|reflexivity].
    cbn [negb andb].
    rewrite divide_nonzero by lra. reflexivity.
Qed.

Lemma FLOAT_TOLERANCE_small : (FLOAT_TOLERANCE <= 1)%Q.
Proof. unfold FLOAT_TOLERANCE. discriminate. Qed.

Lemma floatingPointEqual_bound (f : Q) :
  floatingPointEqual f 0 = true -> (f * f <= 1)%Q.
Proof.
  unfold floatingPointEqual. intros E.
  destruct (Qleb_spec (Qabs (f - 0)) FLOAT_TOLERANCE) as [Hle|]; [|discriminate E].
  pose proof FLOAT_TOLERANCE_small as Hs.
  assert (Hf : (Qabs f <= 1)%Q).
  { assert (E0 : (f - 0 == f)%Q) by ring. rewrite E0 in Hle. lra. }
  apply Qabs_Qle_condition in Hf as [Hlo Hhi].
  assert (H : (0 <= (1 - f) * (1 + f))%Q) by (apply Qmult_le_0_compat; lra).
  lra.
Qed.

Lemma Qmult_unit_interval (s d : Q) : (0 <= s <= 1)%Q -> (s * d * (s * d) <= d * d)%Q.
Proof.
  intros [H0 H1].
  assert (Hs : (0 <= (1 - s) * (1 + s))%Q) by (apply Qmult_le_0_compat; lra).
  pose proof (Qsquare_nonneg d) as Hd.
  assert (H : (0 <= (1 - s) * (1 + s) * (d * d))%Q) by (apply Qmult_le_0_compat; assumption).
  lra.
Qed.

Lemma between_scaled (s d lo hi a : Q) :
  (0 <= s <= 1)%Q -> (lo <= a)%Q -> (lo <= a + d)%Q -> (a <= hi)%Q -> (a + d <= hi)%Q ->
  (lo <= a + s * d <= hi)%Q.
Proof.
  intros [H0 H1] Hl1 Hl2 Hh1 Hh2.
  destruct (Qlt_le_dec d 0) as [Hd|Hd].
  - assert (H : (0 <= s * (- d))%Q) by (apply Qmult_le_0_compat; lra).
    assert (H' : (0 <= (1 - s) * (- d))%Q) by (apply Qmult_le_0_compat; lra).
    lra.
  - assert (H : (0 <= s * d)%Q) by (apply Qmult_le_0_compat; lra).
    assert (H' : (0 <= (1 - s) * d)%Q) by (apply Qmult_le_0_compat; lra).
    lra.
Qed.

(** X7. Every point of a segment is contained in it: for 0 <= s <= 1 the
    point start + s * (dx, dy), the two end points among them, is contained,
    whatever the segment (a zero-length one included). *)
Theorem GLine_contains_its_points (l : GLine.t) (s : Q) :
  (0 <= s <= 1)%Q ->
  GLine.contains l (GLine.getStartX l + s * GLine._dx l) (GLine.getStartY l + s * GLine._dy l)
  = Finite true.
Proof.
  intros Hs. rewrite GLine_contains_formula. f_equal.
  set (x0 := GLine.getStartX l). set (y0 := GLine.getStartY l).
  set (dx := GLine._dx l). set (dy := GLine._dy l).
  assert (Ex : GLine.getEndX l = (x0 + dx)%Q) by reflexivity.
  assert (Ey : GLine.getEndY l = (y0 + dy)%Q) by reflexivity.
  rewrite Ex, Ey.
  destruct (near (x0 + s * dx) (y0 + s * dy) x0 y0) eqn:N0; [reflexivity|].
  destruct (near (x0 + s * dx) (y0 + s * dy) (x0 + dx) (y0 + dy)) eqn:N1; [reflexivity|].
  cbn [orb].
  assert (Hd : degenerate l = false).
  { destruct (degenerate l) eqn:Hd; [|reflexivity]. exfalso.
    unfold degenerate in Hd. apply andb_true_iff in Hd as [Hdx Hdy].
    apply floatingPointEqual_bound in Hdx, Hdy.
    rewrite Ex in Hdx. rewrite Ey in Hdy. fold x0 in Hdx. fold y0 in Hdy.
    unfold near, GLine.dsq, tSquared, LINE_TOLERANCE in N0.
    destruct (Qltb_spec ((x0 - (x0 + s * dx)) * (x0 - (x0 + s * dx))
                         + (y0 - (y0 + s * dy)) * (y0 - (y0 + s * dy))) (1.5 * 1.5)) as [|Hn];
      [discriminate N0|].
    apply Hn.
    pose proof (Qmult_unit_interval s dx Hs). pose proof (Qmult_unit_interval s dy Hs).
    lra. }
  rewrite Hd. cbn [negb]. rewrite andb_true_r.
  pose proof (degenerate_false_positive l Hd) as Hp.
  rewrite Ex, Ey in Hp. fold x0 y0 in Hp.
  apply andb_true_intro. split.
  - unfold in_padded_box, LINE_TOLERANCE.
    pose proof (std_min_le x0 (x0 + dx)). pose proof (std_max_ge x0 (x0 + dx)).
    pose proof (std_min_le y0 (y0 + dy)). pose proof (std_max_ge y0 (y0 + dy)).
    assert (Bx : (std_min x0 (x0 + dx) <= x0 + s * dx <= std_max x0 (x0 + dx))%Q)
      by (apply between_scaled; lra).
    assert (By : (std_min y0 (y0 + dy) <= y0 + s * dy <= std_max y0 (y0 + dy))%Q)
      by (apply between_scaled; lra).
    destruct (Qleb_spec (std_min x0 (x0 + dx) - 1.5) (x0 + s * dx)); [|lra].
    destruct (Qleb_spec (x0 + s * dx) (std_max x0 (x0 + dx) + 1.5)); [|lra].
    destruct (Qleb_spec (std_min y0 (y0 + dy) - 1.5) (y0 + s * dy)); [|lra].
    destruct (Qleb_spec (y0 + s * dy) (std_max y0 (y0 + dy) + 1.5)); [|lra].
    reflexivity.
  - pose proof (projection_dsq_cross x0 y0 (x0 + dx) (y0 + dy) (x0 + s * dx) (y0 + s * dy) Hp)
      as Hc.
    set (pd := projection_dsq _ _ _ _ _ _) in *. clearbody pd.
    set (L := GLine.dsq _ _ _ _) in *. clearbody L.
    assert (Hz : (pd * L == 0)%Q) by (rewrite Hc; ring).
    assert (Hpd : (pd == 0)%Q).
    { apply Qmult_integral in Hz as [Hz|Hz]; [exact Hz|lra]. }
    unfold tSquared, LINE_TOLERANCE.
    destruct (Qltb_spec pd (1.5 * 1.5)); [reflexivity|lra].
Qed.

Lemma GLine_contains_its_points_witness :
  GLine.contains (GLine.new 0 0 10 4) (0 + (1 # 2) * (10 - 0)) (0 + (1 # 2) * (4 - 0))
  = Finite true.
Proof.
  apply (GLine_contains_its_points (GLine.new 0 0 10 4) (1 # 2)). split; discriminate.
Defined.

Lemma std_min_swap (a b a' b' : Q) :
  (a == a')%Q -> (b == b')%Q -> (std_min a b == std_min b' a')%Q.
Proof.
  intros Ea Eb. unfold std_min.
  destruct (Qltb_spec b a); destruct (Qltb_spec a' b'); lra.
Qed.

Lemma std_max_swap (a b a' b' : Q) :
  (a == a')%Q -> (b == b')%Q -> (std_max a b == std_max b' a')%Q.
Proof.
  intros Ea Eb. unfold std_max.
  destruct (Qltb_spec a b); destruct (Qltb_spec b' a'); lra.
Qed.

Lemma in_padded_box_swap (x0 y0 x1 y1 a0 b0 a1 b1 x y : Q) :
  (x0 == a1)%Q -> (y0 == b1)%Q -> (x1 == a0)%Q -> (y1 == b0)%Q ->
  in_padded_box x0 y0 x1 y1 x y = in_padded_box a0 b0 a1 b1 x y.
Proof.
  intros E1 E2 E3 E4. unfold in_padded_box.
  rewrite (std_min_swap x0 x1 a1 a0 E1 E3), (std_max_swap x0 x1 a1 a0 E1 E3).
  rewrite (std_min_swap y0 y1 b1 b0 E2 E4), (std_max_swap y0 y1 b1 b0 E2 E4).
  reflexivity.
Qed.

Lemma floatingPointEqual_opp (a b : Q) :
  (b == - a)%Q -> floatingPointEqual a 0 = floatingPointEqual b 0.
Proof.
  intros E. unfold floatingPointEqual.
  assert (E' : (b - 0 == - (a - 0))%Q) by lra.
  rewrite E', Qabs_opp. reflexivity.
Qed.

Lemma projection_dsq_swap (x0 y0 x1 y1 a0 b0 a1 b1 x y : Q) :
  (0 < GLine.dsq x0 y0 x1 y1)%Q ->
  (x0 == a1)%Q -> (y0 == b1)%Q -> (x1 == a0)%Q -> (y1 == b0)%Q ->
  (projection_dsq x0 y0 x1 y1 x y == projection_dsq a0 b0 a1 b1 x y)%Q.
Proof.
  intros Hp E1 E2 E3 E4. unfold projection_dsq, GLine.dsq in *.
  rewrite <- E1, <- E2, <- E3, <- E4. field. try split; lra.
Qed.

(** X8. A segment contains the same points whichever way round it is
    drawn: the line from (x0, y0) to (x1, y1) and the line from (x1, y1) to
    (x0, y0) give the same answer at every point. *)
Theorem GLine_contains_direction_free (x0 y0 x1 y1 x y : Q) :
  GLine.contains (GLine.new x0 y0 x1 y1) x y = GLine.contains (GLine.new x1 y1 x0 y0) x y.
Proof.
  rewrite !GLine_contains_formula. f_equal.
  set (l := GLine.new x0 y0 x1 y1). set (l' := GLine.new x1 y1 x0 y0).
  assert (Sx : GLine.getStartX l = x0) by reflexivity.
  assert (Sy : GLine.getStartY l = y0) by reflexivity.
  assert (Sx' : GLine.getStartX l' = x1) by reflexivity.
  assert (Sy' : GLine.getStartY l' = y1) by reflexivity.
  assert (Ex : (GLine.getEndX l == x1)%Q) by (cbv [l GLine.getEndX GLine.new GLine._dx GLine.obj GObject.new GObject.getX GObject._x]; ring).
  assert (Ey : (GLine.getEndY l == y1)%Q) by (cbv [l GLine.getEndY GLine.new GLine._dy GLine.obj GObject.new GObject.getY GObject._y]; ring).
  assert (Ex' : (GLine.getEndX l' == x0)%Q) by (cbv [l' GLine.getEndX GLine.new GLine._dx GLine.obj GObject.new GObject.getX GObject._x]; ring).
  assert (Ey' : (GLine.getEndY l' == y0)%Q) by (cbv [l' GLine.getEndY GLine.new GLine._dy GLine.obj GObject.new GObject.getY GObject._y]; ring).
  assert (Hd : degenerate l' = degenerate l).
  { unfold degenerate. rewrite Sx, Sy, Sx', Sy'. f_equal; apply floatingPointEqual_opp; lra. }
  rewrite Hd.
  rewrite (near_proper x y _ _ x1 y1 Ex Ey), (near_proper x y (GLine.getEndX l') _ x0 y0 Ex' Ey').
  rewrite Sx, Sy, Sx', Sy'.
  rewrite (in_padded_box_swap x0 y0 (GLine.getEndX l) (GLine.getEndY l)
             x1 y1 (GLine.getEndX l') (GLine.getEndY l') x y) by lra.
  destruct (degenerate l) eqn:Hdl.
  - cbn [negb]. rewrite !andb_false_r, !andb_false_l.
    destruct (near x y x0 y0), (near x y x1 y1); reflexivity.
  - pose proof (degenerate_false_positive l Hdl) as Hp. rewrite Sx, Sy in Hp.
    rewrite (projection_dsq_swap x0 y0 (GLine.getEndX l) (GLine.getEndY l)
               x1 y1 (GLine.getEndX l') (GLine.getEndY l') x y Hp) by lra.
    destruct (near x y x0 y0), (near x y x1 y1); reflexivity.
Qed.

(** ** GOval: an oval and its frame *)

Lemma GOval_contains_nonzero (o : GObject.t) (x y : Q) :
  floatingPointEqual (GObject.getWidth o / 2) 0 = false ->
  floatingPointEqual (GObject.getHeight o / 2) 0 = false ->
  GOval.contains o x y
  = Finite ((x - (GObject.getX o + GObject.getWidth o / 2))
            * (x - (GObject.getX o + GObject.getWidth o / 2))
            / (GObject.getWidth o / 2 * (GObject.getWidth o / 2))
            + (y - (GObject.getY o + GObject.getHeight o / 2))
              * (y - (GObject.getY o + GObject.getHeight o / 2))
              / (GObject.getHeight o / 2 * (GObject.getHeight o / 2)) <=? 1)%dbl.
Proof.
  intros Ex Ey. unfold GOval.contains. rewrite Ex, Ey. cbn [orb].
  rewrite !divide_nonzero
    by (apply Qsquare_nonzero, floatingPointEqual_false_nonzero; assumption).
  reflexivity.
Qed.

Lemma Qsquare_positive (r : Q) : ~ (r == 0)%Q -> (0 < r * r)%Q.
Proof.
  intros Hr. pose proof (Qsquare_nonneg r) as H.
  destruct (Qeq_dec (r * r) 0) as [E|E]; [|lra].
  exfalso. now apply (Qsquare_nonzero r Hr).
Qed.

Lemma Qdiv_square_nonneg (d r : Q) : ~ (r == 0)%Q -> (0 <= d * d / (r * r))%Q.
Proof.
  intros Hr. apply Qle_shift_div_l; [now apply Qsquare_positive|].
  pose proof (Qsquare_nonneg d). lra.
Qed.

Lemma Qdiv_square_le_1 (d r : Q) :
  ~ (r == 0)%Q -> (d * d / (r * r) <= 1)%Q -> (d * d <= r * r)%Q.
Proof.
  intros Hr Hq. pose proof (Qsquare_positive r Hr) as Hp.
  assert (E : (d * d == d * d / (r * r) * (r * r))%Q) by (field; lra).
  set (q := (d * d / (r * r))%Q) in *. clearbody q.
  assert (H : (0 <= (1 - q) * (r * r))%Q) by (apply Qmult_le_0_compat; lra).
  lra.
Qed.

Lemma Qsquare_le_abs (d r : Q) : (d * d <= r * r)%Q -> (Qabs d <= Qabs r)%Q.
Proof.
  intros H. destruct (Qlt_le_dec (Qabs r) (Qabs d)) as [Hlt|Hle]; [|exact Hle].
  exfalso.
  assert (Ed : (d * d == Qabs d * Qabs d)%Q).
  { apply (Qabs_case d (fun a => d * d == a * a)%Q); intros; ring. }
  assert (Er : (r * r == Qabs r * Qabs r)%Q).
  { apply (Qabs_case r (fun a => r * r == a * a)%Q); intros; ring. }
  pose proof (Qabs_nonneg r) as Hr.
  assert (Hm : (0 < (Qabs d - Qabs r) * (Qabs d + Qabs r))%Q)
    by (apply Qmult_lt_0_compat; lra).
  lra.
Qed.

Section GOvalFrame.
Import PrimFloat.

(** X9. With doubles read as exact rationals, an oval whose axes are not
    zero (beyond the tolerance of floatingPointEqual) is inscribed in its
    frame: it contains its centre and the mid-points of the four sides of
    the frame, it does not contain the frame's corners, and every point it
    contains is within rx of the centre horizontally and within ry
    vertically.  The mid-points of the sides lie on the edge of the test,
    where rounding decides: in binary64 the oval with the frame
    (1, 0, 0.1, 1) does not contain (1, 0.5), the mid-point of its left
    side. *)
Theorem GOval_inscribed_in_frame (o : GObject.t) (x y : Q) :
  (let rx := (GObject.getWidth o / 2)%Q in
  let ry := (GObject.getHeight o / 2)%Q in
  let cx := (GObject.getX o + rx)%Q in
  let cy := (GObject.getY o + ry)%Q in
  floatingPointEqual rx 0 = false ->
  floatingPointEqual ry 0 = false ->
  GOval.contains o cx cy = Finite true
  /\ GOval.contains o (cx - rx) cy = Finite true
  /\ GOval.contains o (cx + rx) cy = Finite true
  /\ GOval.contains o cx (cy - ry) = Finite true
  /\ GOval.contains o cx (cy + ry) = Finite true
  /\ GOval.contains o (cx - rx) (cy - ry) = Finite false
  /\ GOval.contains o (cx + rx) (cy - ry) = Finite false
  /\ GOval.contains o (cx - rx) (cy + ry) = Finite false
  /\ GOval.contains o (cx + rx) (cy + ry) = Finite false
  /\ (GOval.contains o x y = Finite true ->
      (Qabs (x - cx) <= Qabs rx)%Q /\ (Qabs (y - cy) <= Qabs ry)%Q))
  /\ Binary64.GOval.contains (Binary64.GObject.new 1 0 0x1.999999999999ap-4 1) 1 0.5 = false.
Proof.
  split; [|reflexivity].
  intros rx ry cx cy Hx Hy.
  pose proof (floatingPointEqual_false_nonzero _ Hx) as Nx.
  pose proof (floatingPointEqual_false_nonzero _ Hy) as Ny.
  fold rx in Nx. fold ry in Ny.
  assert (At : forall px py v,
             ((px - cx) * (px - cx) / (rx * rx) + (py - cy) * (py - cy) / (ry * ry) == v)%Q ->
             GOval.contains o px py = Finite (v <=? 1)%dbl).
  { intros px py v E. rewrite GOval_contains_nonzero by assumption.
    fold rx ry cx cy. now rewrite E. }
  repeat split.
  - apply (At cx cy 0%Q). field. split; assumption.
  - apply (At (cx - rx)%Q cy 1%Q). field. split; assumption.
  - apply (At (cx + rx)%Q cy 1%Q). field. split; assumption.
  - apply (At cx (cy - ry)%Q 1%Q). field. split; assumption.
  - apply (At cx (cy + ry)%Q 1%Q). field. split; assumption.
  - apply (At (cx - rx)%Q (cy - ry)%Q 2%Q). field. split; assumption.
  - apply (At (cx + rx)%Q (cy - ry)%Q 2%Q). field. split; assumption.
  - apply (At (cx - rx)%Q (cy + ry)%Q 2%Q). field. split; assumption.
  - apply (At (cx + rx)%Q (cy + ry)%Q 2%Q). field. split; assumption.
  - rewrite GOval_contains_nonzero in H by assumption. fold rx ry cx cy in H.
    injection H as H. apply Qle_bool_iff in H.
    pose proof (Qdiv_square_nonneg (y - cy) ry Ny).
    apply Qsquare_le_abs, Qdiv_square_le_1; [assumption|lra].
  - rewrite GOval_contains_nonzero in H by assumption. fold rx ry cx cy in H.
    injection H as H. apply Qle_bool_iff in H.
    pose proof (Qdiv_square_nonneg (x - cx) rx Nx).
    apply Qsquare_le_abs, Qdiv_square_le_1; [assumption|lra].
Qed.

Lemma GOval_inscribed_in_frame_witness :
  GOval.contains (GObject.new 0 0 10 6) (0 + 10 / 2) (0 + 6 / 2) = Finite true.
Proof.
  apply (proj1 (GOval_inscribed_in_frame (GObject.new 0 0 10 6) 0 0)); reflexivity.
Defined.

End GOvalFrame.

(** ** GRoundRect: a positive corner *)

Lemma Qhalf (q : Q) : (q / 2 == q * (1 # 2))%Q.
Proof. field. Qed.

Lemma std_min_cases (a b : Q) : std_min a b = a \/ std_min a b = b.
Proof. unfold std_min. destruct (b <? a)%dbl; auto. Qed.

Lemma GRectangle_contains_iff (o : GObject.t) (x y : Q) :
  GRectangle.contains (GObject.getBounds o) x y = true
  <-> (GObject.getX o <= x < GObject.getX o + GObject.getWidth o
       /\ GObject.getY o <= y < GObject.getY o + GObject.getHeight o)%Q.
Proof.
  unfold GObject.getBounds, GRectangle.contains.
  destruct (GObject._transformed o);
    cbn [GRectangle.getX GRectangle.getY GRectangle.getWidth GRectangle.getHeight];
    destruct (Qleb_spec (GObject.getX o) x);
    destruct (Qleb_spec (GObject.getY o) y);
    destruct (Qltb_spec x (GObject.getX o + GObject.getWidth o));
    destruct (Qltb_spec y (GObject.getY o + GObject.getHeight o));
    cbn [andb]; split; try discriminate; try lra; intros; reflexivity.
Qed.

Lemma GRoundRect_contains_positive (r : GRoundRect.t) (x y : Q) :
  (0 < GRoundRect._corner r)%Q ->
  (0 < GObject.getWidth (GRoundRect.obj r))%Q ->
  (0 < GObject.getHeight (GRoundRect.obj r))%Q ->
  let o := GRoundRect.obj r in
  let a := (std_min (GRoundRect._corner r) (GObject.getWidth o) / 2)%Q in
  let b := (std_min (GRoundRect._corner r) (GObject.getHeight o) / 2)%Q in
  let dx := std_min (Qabs (x - GObject.getX o)) (Qabs (x - GObject.getRightX o)) in
  let dy := std_min (Qabs (y - GObject.getY o)) (Qabs (y - GObject.getBottomY o)) in
  (0 < a)%Q /\ (0 < b)%Q
  /\ GRoundRect.contains r x y
     = Finite (GRectangle.contains (GObject.getBounds o) x y
               && ((dx >? a) || (dy >? b)
                   || ((dx - a) * (dx - a) / (a * a) + (dy - b) * (dy - b) / (b * b) <=? 1))%dbl).
Proof.
  intros Hc Hw Hh o a b dx dy.
  assert (Ha : (0 < a)%Q).
  { subst a. rewrite Qhalf.
    destruct (std_min_cases (GRoundRect._corner r) (GObject.getWidth o)) as [-> | ->];
      subst o; lra. }
  assert (Hb : (0 < b)%Q).
  { subst b. rewrite Qhalf.
    destruct (std_min_cases (GRoundRect._corner r) (GObject.getHeight o)) as [-> | ->];
      subst o; lra. }
  split; [exact Ha|]. split; [exact Hb|].
  unfold GRoundRect.contains. fold o. cbv zeta. fold a b dx dy.
  destruct (GRectangle.contains (GObject.getBounds o) x y); [|reflexivity].
  cbn [negb andb].
  destruct ((dx >? a) || (dy >? b))%dbl; [reflexivity|].
  cbn [orb].
  rewrite !divide_nonzero by (apply Qsquare_nonzero; lra).
  reflexivity.
Qed.

Section GRoundRectCorner.
Import PrimFloat.

(** X10. With doubles read as exact rationals, for a rounded rectangle with
    a positive corner and a positive size: contains divides by no zero;
    every point it contains is in the rectangle; the rectangle's top-left
    corner is cut off (not contained); the centre is contained.  In binary64
    the corner has to be large enough as well: with the corner 2^-600 the
    divisor a * a underflows to 0, and the code answers false at
    (1.5 * 2^-602, 1.5 * 2^-602), where the exact answer is true. *)
Theorem GRoundRect_positive_corner (r : GRoundRect.t) (x y : Q) :
  (let o := GRoundRect.obj r in
  (0 < GRoundRect._corner r)%Q ->
  (0 < GObject.getWidth o)%Q ->
  (0 < GObject.getHeight o)%Q ->
  (exists b, GRoundRect.contains r x y = Finite b)
  /\ (GRoundRect.contains r x y = Finite true ->
      (GObject.getX o <= x < GObject.getX o + GObject.getWidth o
       /\ GObject.getY o <= y < GObject.getY o + GObject.getHeight o)%Q)
  /\ GRoundRect.contains r (GObject.getX o) (GObject.getY o) = Finite false
  /\ GRoundRect.contains r (GObject.getX o + GObject.getWidth o / 2)
                           (GObject.getY o + GObject.getHeight o / 2) = Finite true)
  /\ (let tiny := Binary64.GRoundRect.mk (Binary64.GObject.new 0 0 10 10) 0x1p-600 in
      (0 <? Binary64.GRoundRect._corner tiny)%float = true
      /\ (Binary64.GRoundRect.a tiny * Binary64.GRoundRect.a tiny =? 0)%float = true
      /\ Binary64.GRoundRect.contains tiny 0x1.8p-602 0x1.8p-602 = false
      /\ GRoundRect.contains (GRoundRect.mk (GObject.new 0 0 10 10) (1 # 2 ^ 600))
                             (3 # 2 ^ 603) (3 # 2 ^ 603) = Finite true).
Proof.
  split; [|vm_compute; repeat split].
  intros o Hc Hw Hh. split; [|split; [|split]].
  - destruct (GRoundRect_contains_positive r x y Hc Hw Hh) as (_ & _ & ->).
    eexists. reflexivity.
  - destruct (GRoundRect_contains_positive r x y Hc Hw Hh) as (_ & _ & ->).
    intros E. injection E as E. apply andb_true_iff in E as [E _].
    now apply GRectangle_contains_iff in E.
  - destruct (GRoundRect_contains_positive r (GObject.getX o) (GObject.getY o) Hc Hw Hh)
      as (Ha & Hb & ->).
    fold o in Ha, Hb |- *. f_equal.
    set (a := (std_min (GRoundRect._corner r) (GObject.getWidth o) / 2)%Q) in *.
    set (b := (std_min (GRoundRect._corner r) (GObject.getHeight o) / 2)%Q) in *.
    set (dx := std_min _ _). set (dy := std_min _ _).
    assert (Hdx : (dx == 0)%Q).
    { subst dx. apply std_min_zero_l; [|apply Qabs_nonneg].
      assert (E : (GObject.getX o - GObject.getX o == 0)%Q) by ring. now rewrite E. }
    assert (Hdy : (dy == 0)%Q).
    { subst dy. apply std_min_zero_l; [|apply Qabs_nonneg].
      assert (E : (GObject.getY o - GObject.getY o == 0)%Q) by ring. now rewrite E. }
    clearbody dx dy a b.
    apply andb_false_iff. right.
    destruct (Qltb_spec a dx) as [Hlt|_]; [lra|].
    destruct (Qltb_spec b dy) as [Hlt|_]; [lra|].
    cbn [orb].
    destruct (Qleb_spec ((dx - a) * (dx - a) / (a * a) + (dy - b) * (dy - b) / (b * b)) 1)
      as [Hle|_]; [|reflexivity].
    exfalso.
    assert (E : ((dx - a) * (dx - a) / (a * a) + (dy - b) * (dy - b) / (b * b) == 2)%Q)
      by (rewrite Hdx, Hdy; field; split; lra).
    lra.
  - destruct (GRoundRect_contains_positive r (GObject.getX o + GObject.getWidth o / 2)
                (GObject.getY o + GObject.getHeight o / 2) Hc Hw Hh) as (Ha & Hb & ->).
    fold o in Ha, Hb |- *. f_equal.
    set (a := (std_min (GRoundRect._corner r) (GObject.getWidth o) / 2)%Q) in *.
    set (b := (std_min (GRoundRect._corner r) (GObject.getHeight o) / 2)%Q) in *.
    set (dx := std_min _ _). set (dy := std_min _ _).
    pose proof (Qhalf (GObject.getWidth o)) as Ew.
    pose proof (Qhalf (GObject.getHeight o)) as Eh.
    assert (Hdx : (dx == GObject.getWidth o / 2)%Q).
    { subst dx. unfold GObject.getRightX.
      assert (E1 : (GObject.getX o + GObject.getWidth o / 2 - GObject.getX o
                    == GObject.getWidth o / 2)%Q) by ring.
      assert (E2 : (GObject.getX o + GObject.getWidth o / 2
                    - (GObject.getX o + GObject.getWidth o)
                    == - (GObject.getWidth o / 2))%Q) by field.
      assert (Hp : (0 <= GObject.getWidth o / 2)%Q) by (rewrite Ew; lra).
      assert (A1 : (Qabs (GObject.getX o + GObject.getWidth o / 2 - GObject.getX o)
                    == GObject.getWidth o / 2)%Q)
        by (rewrite E1; now apply Qabs_pos).
      assert (A2 : (Qabs (GObject.getX o + GObject.getWidth o / 2
                          - (GObject.getX o + GObject.getWidth o))
                    == GObject.getWidth o / 2)%Q)
        by (rewrite E2, Qabs_opp; now apply Qabs_pos).
      destruct (std_min_cases
                  (Qabs (GObject.getX o + GObject.getWidth o / 2 - GObject.getX o))
                  (Qabs (GObject.getX o + GObject.getWidth o / 2
                         - (GObject.getX o + GObject.getWidth o)))) as [-> | ->];
        assumption. }
    assert (Hdy : (dy == GObject.getHeight o / 2)%Q).
    { subst dy. unfold GObject.getBottomY.
      assert (E1 : (GObject.getY o + GObject.getHeight o / 2 - GObject.getY o
                    == GObject.getHeight o / 2)%Q) by ring.
      assert (E2 : (GObject.getY o + GObject.getHeight o / 2
                    - (GObject.getY o + GObject.getHeight o)
                    == - (GObject.getHeight o / 2))%Q) by field.
      assert (Hp : (0 <= GObject.getHeight o / 2)%Q) by (rewrite Eh; lra).
      assert (A1 : (Qabs (GObject.getY o + GObject.getHeight o / 2 - GObject.getY o)
                    == GObject.getHeight o / 2)%Q)
        by (rewrite E1; now apply Qabs_pos).
      assert (A2 : (Qabs (GObject.getY o + GObject.getHeight o / 2
                          - (GObject.getY o + GObject.getHeight o))
                    == GObject.getHeight o / 2)%Q)
        by (rewrite E2, Qabs_opp; now apply Qabs_pos).
      destruct (std_min_cases
                  (Qabs (GObject.getY o + GObject.getHeight o / 2 - GObject.getY o))
                  (Qabs (GObject.getY o + GObject.getHeight o / 2
                         - (GObject.getY o + GObject.getHeight o)))) as [-> | ->];
        assumption. }
    assert (Hal : (a <= GObject.getWidth o / 2)%Q).
    { subst a. rewrite !Qhalf.
      pose proof (std_min_le (GRoundRect._corner r) (GObject.getWidth o)). lra. }
    assert (Hbl : (b <= GObject.getHeight o / 2)%Q).
    { subst b. rewrite !Qhalf.
      pose proof (std_min_le (GRoundRect._corner r) (GObject.getHeight o)). lra. }
    clearbody dx dy a b.
    apply andb_true_intro. split.
    { apply GRectangle_contains_iff. rewrite Ew, Eh. lra. }
    destruct (Qltb_spec a dx) as [|Hx]; [reflexivity|].
    destruct (Qltb_spec b dy) as [|Hy]; [reflexivity|].
    cbn [orb].
    destruct (Qleb_spec ((dx - a) * (dx - a) / (a * a) + (dy - b) * (dy - b) / (b * b)) 1)
      as [|Hn]; [reflexivity|].
    exfalso. apply Hn.
    assert (Ea : (dx == a)%Q) by lra.
    assert (Eb : (dy == b)%Q) by lra.
    assert (E : ((dx - a) * (dx - a) / (a * a) + (dy - b) * (dy - b) / (b * b) == 0)%Q)
      by (rewrite Ea, Eb; field; split; lra).
    rewrite E. discriminate.
Qed.

Lemma GRoundRect_positive_corner_witness :
  GRoundRect.contains (GRoundRect.mk (GObject.new 0 0 10 10) 4) 0 0 = Finite false.
Proof.
  apply (proj1 (GRoundRect_positive_corner (GRoundRect.mk (GObject.new 0 0 10 10) 4) 0 0));
    reflexivity.
Defined.

End GRoundRectCorner.

(** ** GPolygon: the bounding box is tight *)


(** ** GPolygon: contained points and the bounding box *)












(** ** GPolygon: building the vertex list *)

Lemma extended_nil (p : GPolygon.t) : extended [] p = p.
Proof. destruct p. unfold extended. cbn. now rewrite app_nil_r. Qed.

Lemma extended_cons (v : Q * Q) (vs : list (Q * Q)) (p : GPolygon.t) :
  extended vs (extended [v] p) = extended (v :: vs) p.
Proof.
  unfold extended. cbn [GPolygon.obj GPolygon._vertices GPolygon._cx GPolygon._cy map].
  rewrite <- app_assoc. cbn [app]. f_equal.
  - destruct vs as [|w ws]; [reflexivity|]. cbn [List.last].
    f_equal. clear. revert w. induction ws as [|w' ws IH]; intros w; [reflexivity|].
    cbn [List.last]. apply IH.
  - destruct vs as [|w ws]; [reflexivity|]. cbn [List.last].
    f_equal. clear. revert w. induction ws as [|w' ws IH]; intros w; [reflexivity|].
    cbn [List.last]. apply IH.
Qed.

Lemma addVertex_extended (x y : Q) (p : GPolygon.t) :
  GPolygon.addVertex x y p = (Ok tt, extended [(x, y)] p).
Proof. reflexivity. Qed.


Lemma parity_succ (i : nat) : (S i mod 2 =? 0)%nat = negb (i mod 2 =? 0)%nat.
Proof.
  rewrite <- !Nat.bit0_mod, !Nat.bit0_odd, Nat.odd_succ, <- Nat.negb_odd.
  now destruct (Nat.odd i).
Qed.

Lemma addVertexes_loop_extended (coords : list Q) (i : nat) (x y : Q) (p : GPolygon.t) :
  GPolygon.addVertexes_loop coords i x y p
  = (Ok tt, extended (pairs (if (i mod 2 =? 0)%nat then coords else x :: coords)) p).
Proof.
  revert i x y p. induction coords as [|d coords IH]; intros i x y p.
  - cbn [GPolygon.addVertexes_loop]. destruct (i mod 2 =? 0)%nat; cbn [pairs];
      now rewrite extended_nil.
  - cbn [GPolygon.addVertexes_loop].
    destruct (i mod 2 =? 0)%nat eqn:Ei.
    + rewrite IH, parity_succ, Ei. reflexivity.
    + unfold mbind, stm_bind. rewrite addVertex_extended, IH, parity_succ, Ei.
      cbn [negb pairs]. now rewrite extended_cons.
Qed.


Lemma pairs_length (coords : list Q) : length (pairs coords) = length coords / 2.
Proof.
  assert (H : forall n (l : list Q), length l <= n -> length (pairs l) = length l / 2).
  { induction n as [|n IH]; intros l Hl.
    - destruct l; [reflexivity|cbn in Hl; lia].
    - destruct l as [|a [|b l]]; [reflexivity|reflexivity|].
      cbn [pairs length]. rewrite IH by (cbn [length] in Hl; lia).
      change (S (S (length l))) with (1 * 2 + length l).
      rewrite Nat.div_add_l by lia. lia. }
  apply (H (length coords)). lia.
Qed.

(** X13. addVertexes takes the coordinates two by two: it appends the
    vertices (c0, c1), (c2, c3), ... in order, so the count grows by half the
    number of coordinates, rounded down; a last coordinate without a partner
    is dropped silently; the cursor ends on the last vertex added; nothing
    is thrown and the rest of the polygon is untouched. *)
Theorem GPolygon_addVertexes_pairs (coords : list Q) (p : GPolygon.t) :
  let p' := state_after (GPolygon.addVertexes coords) p in
  succeeds (GPolygon.addVertexes coords) p = true
  /\ GPolygon._vertices p' = GPolygon._vertices p ++ map point (pairs coords)
  /\ GPolygon.getVertexCount p' = GPolygon.getVertexCount p + length coords / 2
  /\ (GPolygon._cx p', GPolygon._cy p')
     = List.last (pairs coords) (GPolygon._cx p, GPolygon._cy p)
  /\ GPolygon.obj p' = GPolygon.obj p
  /\ (forall c, state_after (GPolygon.addVertexes (coords ++ [c])) p
                = state_after (GPolygon.addVertexes (if Nat.even (length coords)
                                                     then coords
                                                     else coords ++ [c])) p).
Proof.
  intros p'. subst p'. unfold succeeds, state_after, GPolygon.addVertexes.
  rewrite addVertexes_loop_extended. cbn [Nat.modulo Nat.eqb Nat.sub fst snd Nat.divmod].
  split; [reflexivity|]. split; [reflexivity|]. split.
  { unfold GPolygon.getVertexCount, extended. cbn [GPolygon._vertices].
    now rewrite length_app, length_map, pairs_length. }
  split; [unfold extended; cbn [GPolygon._cx GPolygon._cy]; now destruct (List.last _ _)|].
  split; [reflexivity|].
  intros c. rewrite !addVertexes_loop_extended. cbn [Nat.modulo Nat.eqb Nat.sub fst snd Nat.divmod].
  destruct (Nat.even (length coords)) eqn:Ev; [|reflexivity].
  f_equal.
  assert (H : forall n (l : list Q), length l <= n -> Nat.even (length l) = true ->
                pairs (l ++ [c]) = pairs l).
  { induction n as [|n IH]; intros l Hl He.
    - destruct l; [reflexivity|cbn in Hl; lia].
    - destruct l as [|a [|b l]]; [reflexivity|discriminate He|].
      cbn [pairs app]. f_equal. apply IH; [cbn [length] in Hl; lia|exact He]. }
  apply (H (length coords)); [lia|exact Ev].
Qed.



Lemma at_lookup (vs : list QPointF.t) (i : nat) :
  GPolygon.at_ vs i = default GPolygon.origin (vs !! i).
Proof. unfold GPolygon.at_. apply nth_lookup. Qed.

(** X15. setVertex(i, point) followed by getVertex(i) gives the point
    back, for every index of a vertex; the other vertices, their number and
    the cursor stay as they were. *)
Theorem GPolygon_setVertex_getVertex (p : GPolygon.t) (i : nat) (pt : Q * Q) :
  i < GPolygon.getVertexCount p ->
  let p' := state_after (GPolygon.setVertex i pt) p in
  succeeds (GPolygon.setVertex i pt) p = true
  /\ GPolygon.getVertex p' i = pt
  /\ (forall j, j <> i -> GPolygon.getVertex p' j = GPolygon.getVertex p j)
  /\ GPolygon.getVertexCount p' = GPolygon.getVertexCount p
  /\ (GPolygon._cx p', GPolygon._cy p') = (GPolygon._cx p, GPolygon._cy p).
Proof.
  intros Hi p'. subst p'. unfold GPolygon.getVertexCount in *.
  destruct (lookup_lt_is_Some_2 _ _ Hi) as [v Hv].
  cbv [state_after succeeds GPolygon.setVertex GPolygon.repaint mbind mret stm_bind stm_ret
       modify fst snd].
  cbn [GPolygon._vertices GPolygon._cx GPolygon._cy GPolygon.obj].
  unfold GPolygon.getVertex. cbn [GPolygon._vertices].
  split; [reflexivity|]. split; [|split; [|split]].
  - rewrite at_lookup, !list_lookup_alter, Hv.
    destruct (decide (i = i)); [|congruence]. cbn. now destruct pt.
  - intros j Hj. rewrite !at_lookup, !list_lookup_alter_ne by congruence. reflexivity.
  - now rewrite !length_alter.
  - reflexivity.
Qed.

Lemma GPolygon_setVertex_getVertex_witness :
  GPolygon.getVertex
    (state_after (GPolygon.setVertex 1 (7, 8)%Q)
       (GPolygon.mk (GObject.new 0 0 0 0) [QPointF.mk 0 0; QPointF.mk 1 0; QPointF.mk 1 1] 1 1))
    1
  = (7, 8)%Q.
Proof.
  apply (GPolygon_setVertex_getVertex
           (GPolygon.mk (GObject.new 0 0 0 0) [QPointF.mk 0 0; QPointF.mk 1 0; QPointF.mk 1 1] 1 1)
           1 (7, 8)%Q).
  cbn. lia.
Defined.

(** X16. clear empties the vertex list and nothing else: afterwards the
    polygon has no vertex, contains no point and its bounds have no extent,
    but the cursor is where it was, so the next addEdge starts from the old
    cursor, not from the origin. *)
Theorem GPolygon_clear_keeps_cursor (eqb : QPointF.t -> QPointF.t -> bool)
    (p : GPolygon.t) (x y dx dy : Q) :
  let c := state_after GPolygon.clear p in
  succeeds GPolygon.clear p = true
  /\ GPolygon.getVertexCount c = 0
  /\ GPolygon.contains eqb c x y = Finite false
  /\ GRectangle.getWidth (GPolygon.getBounds c) = (0 - 0)%Q
  /\ GRectangle.getHeight (GPolygon.getBounds c) = (0 - 0)%Q
  /\ (GPolygon._cx c, GPolygon._cy c) = (GPolygon._cx p, GPolygon._cy p)
  /\ GPolygon._vertices (state_after (GPolygon.addEdge dx dy) c)
     = [QPointF.mk (GPolygon._cx p + dx) (GPolygon._cy p + dy)]
  /\ GPolygon.obj c = GPolygon.obj p.
Proof.
  intros c. repeat split.
Qed.

(** ** GCompound: one step in the z-order *)

Lemma take_drop_snoc (p q : list addr) (b : addr) :
  take (S (length p)) (p ++ b :: q) = p ++ [b] /\ drop (S (length p)) (p ++ b :: q) = q.
Proof.
  replace (p ++ b :: q) with ((p ++ [b]) ++ q) by now rewrite <- app_assoc.
  assert (E : S (length p) = length (p ++ [b])) by (rewrite length_app; cbn; lia).
  rewrite E. split; [apply take_app_length|apply drop_app_length].
Qed.

Lemma set_contents_same (h : Heap) (c : addr) (v : list addr) :
  contents_of h c = v -> v <> [] -> set_contents c v h = h.
Proof.
  unfold contents_of, set_contents. intros E Hv. destruct h as [ps cs]. cbn [contents parent] in *.
  f_equal. apply insert_id.
  destruct (cs !! c) as [w|]; cbn in E; [now subst|]. now subst.
Qed.

Lemma sendForward_swap (h : Heap) (c g b : addr) (p q : list addr) :
  contents_of h c = p ++ g :: b :: q -> g ∉ p ->
  sendForward c (Some g) h = (Ok tt, set_contents c (p ++ b :: g :: q) h).
Proof.
  intros Hl Hp. rewrite (sendForward_first h c g p (b :: q) Hl Hp).
  destruct (take_drop_snoc p q b) as [-> ->]. now rewrite <- app_assoc.
Qed.

Lemma sendBackward_swap (h : Heap) (c g a : addr) (p q : list addr) :
  contents_of h c = p ++ a :: g :: q -> g ∉ p -> g <> a ->
  sendBackward c (Some g) h = (Ok tt, set_contents c (p ++ g :: a :: q) h).
Proof.
  intros Hl Hp Hne.
  assert (Hl' : contents_of h c = (p ++ [a]) ++ g :: q) by now rewrite <- app_assoc.
  assert (Hp' : g ∉ p ++ [a]).
  { rewrite elem_of_app, elem_of_cons. intros [H|[H|H]]; [now apply Hp|congruence|now apply elem_of_nil in H]. }
  rewrite (sendBackward_first h c g (p ++ [a]) q Hl' Hp').
  destruct (p ++ [a]) as [|x l] eqn:E; [now destruct p|]. rewrite <- E.
  replace (length (p ++ [a]) - 1) with (length p) by (rewrite length_app; cbn; lia).
  rewrite <- app_assoc. cbn [app].
  replace (p ++ a :: q) with (p ++ [a] ++ q) by reflexivity.
  rewrite take_app_length, drop_app_length. reflexivity.
Qed.

(** X17. sendForward and sendBackward move a child one place: with the
    children p ++ g :: b :: q (g and b not in p, g distinct from b),
    sendForward(g) and sendBackward(b) both give p ++ b :: g :: q; each is
    undone by the opposite call on the same child, which gives the first
    heap back; no parent pointer and no other compound changes. *)
Theorem GCompound_sendForward_sendBackward_swap (h : Heap) (c g b : addr) (p q : list addr) :
  contents_of h c = p ++ g :: b :: q -> g ∉ p -> b ∉ p -> g <> b ->
  let swapped := set_contents c (p ++ b :: g :: q) h in
  sendForward c (Some g) h = (Ok tt, swapped)
  /\ sendBackward c (Some b) h = (Ok tt, swapped)
  /\ sendBackward c (Some g) swapped = (Ok tt, h)
  /\ sendForward c (Some b) swapped = (Ok tt, h)
  /\ contents_of swapped c = p ++ b :: g :: q
  /\ (forall x, parent_of swapped x = parent_of h x)
  /\ (forall c', c' <> c -> contents_of swapped c' = contents_of h c').
Proof.
  intros Hl Hg Hb Hne swapped.
  assert (Hs : contents_of swapped c = p ++ b :: g :: q).
  { subst swapped. now rewrite contents_of_set_contents, decide_True. }
  assert (Hback : set_contents c (p ++ g :: b :: q) swapped = h).
  { subst swapped. rewrite set_contents_twice.
    apply set_contents_same; [exact Hl|]. now destruct p. }
  split; [now apply sendForward_swap|].
  split; [apply sendBackward_swap; [exact Hl|exact Hb|congruence]|].
  split; [rewrite (sendBackward_swap swapped c g b p q Hs Hg Hne), Hback; reflexivity|].
  split; [rewrite (sendForward_swap swapped c b g p q Hs Hb), Hback; reflexivity|].
  split; [exact Hs|]. split; [reflexivity|].
  intros c' Hc'. subst swapped. rewrite contents_of_set_contents.
  now rewrite decide_False by congruence.
Qed.

Lemma GCompound_sendForward_sendBackward_swap_witness :
  sendForward 1%positive (Some 2%positive)
    (state_after (add 1%positive (Some 3%positive))
       (state_after (add 1%positive (Some 2%positive)) empty_heap))
  = (Ok tt,
     set_contents 1%positive [3%positive; 2%positive]
       (state_after (add 1%positive (Some 3%positive))
          (state_after (add 1%positive (Some 2%positive)) empty_heap))).
Proof.
  apply (GCompound_sendForward_sendBackward_swap
           (state_after (add 1%positive (Some 3%positive))
              (state_after (add 1%positive (Some 2%positive)) empty_heap))
           1%positive 2%positive 3%positive [] []).
  - reflexivity.
  - apply not_elem_of_nil.
  - apply not_elem_of_nil.
  - discriminate.
Defined.

(** ** GCompound: adding, counting and removing *)

Lemma Vector_get_in_range (v : list addr) (i : nat) (g : addr) :
  v !! i = Some g -> Vector.get v (Z.of_nat i) = Ok g.
Proof.
  intros Hg. unfold Vector.get, Vector.size.
  rewrite index_in_range by (apply lookup_lt_Some in Hg; lia).
  now rewrite Nat2Z.id, Hg.
Qed.

Lemma Vector_get_out_of_range (v : list addr) (index : Z) :
  ~ (0 <= index < Vector.size v)%Z -> exists msg, Vector.get v index = ErrorException msg.
Proof.
  intros Hr. unfold Vector.get.
  destruct ((0 <=? index) && (index <? Vector.size v))%Z eqn:E.
  - exfalso. apply Hr. apply andb_true_iff in E as [E1 E2].
    apply Z.leb_le in E1. apply Z.ltb_lt in E2. lia.
  - eexists. reflexivity.
Qed.

Lemma getBounds_returns_child (h : Heap) (n : nat) (a b : addr) :
  getBounds_returns (S n) h a = true -> b ∈ contents_of h a ->
  getBounds_returns n h b = true.
Proof.
  cbn [getBounds_returns]. rewrite forallb_forall. intros H Hb.
  apply H. now apply list_elem_of_In.
Qed.

(** The evaluation reads the children of the shapes below [g] only. *)
Lemma getBounds_returns_frame (h h' : Heap) (c : addr) (n : nat) (g : addr) :
  (forall a, a <> c -> contents_of h' a = contents_of h a) ->
  ~ descends h g c ->
  getBounds_returns n h g = true -> getBounds_returns n h' g = true.
Proof.
  intros Hsame. revert g. induction n as [|n IH]; intros g Hg; [discriminate|].
  cbn [getBounds_returns]. rewrite !forallb_forall. intros H b Hb.
  assert (Hgc : g <> c) by (intros ->; apply Hg; constructor).
  rewrite (Hsame g Hgc) in Hb. apply IH; [|now apply H].
  intros Hd. apply Hg. apply descends_child with b; [now apply list_elem_of_In|exact Hd].
Qed.

Lemma getBounds_returns_descent (h : Heap) (a c g : addr) (n : nat) :
  descends h a c -> g ∈ contents_of h c -> getBounds_returns n h a = true ->
  exists m, m < n /\ getBounds_returns m h g = true.
Proof.
  intros Hd Hg. revert n. induction Hd as [a|a b d Hb Hd IH]; intros n Hr.
  - destruct n as [|m]; [discriminate Hr|].
    exists m. split; [lia|]. now apply (getBounds_returns_child h m a g).
  - destruct n as [|m']; [discriminate Hr|].
    destruct (IH Hg m' (getBounds_returns_child h m' a b Hr Hb)) as (m & Hm & Hr').
    exists m. split; [lia|exact Hr'].
Qed.

(** A shape that is below one of its own children has no bounds: the
    evaluation does not return, whatever the number of nested calls. *)
Lemma getBounds_returns_cycle (h : Heap) (c g : addr) (n : nat) :
  descends h g c -> g ∈ contents_of h c -> getBounds_returns n h g = false.
Proof.
  intros Hd Hg. induction n as [n IH] using lt_wf_ind.
  destruct (getBounds_returns n h g) eqn:E; [|reflexivity].
  destruct (getBounds_returns_descent h g c g n Hd Hg E) as (m & Hm & Hr).
  rewrite (IH m Hm) in Hr. discriminate Hr.
Qed.

Lemma descends_mono (h h' : Heap) (a d : addr) :
  (forall x y, y ∈ contents_of h x -> y ∈ contents_of h' x) ->
  descends h a d -> descends h' a d.
Proof.
  intros Hsub Hd. induction Hd as [a|a b d Hb Hd IH]; [constructor|].
  apply descends_child with b; [now apply Hsub|exact IH].
Qed.

Lemma add_contents (h : Heap) (c g a : addr) :
  contents_of (state_after (add c (Some g)) h) a
  = if decide (c = a) then contents_of h c ++ [g] else contents_of h a.
Proof.
  change (state_after (add c (Some g)) h)
    with (set_parent g (Some c) (set_contents c (contents_of h c ++ [g]) h)).
  now rewrite contents_of_set_parent, contents_of_set_contents.
Qed.

(** X18. add appends: when the call returns (the evaluation of
    gobj->getBounds() in its last statement returns, within some number of
    nested calls), the compound has one element more, the new element is the
    last one (getElement at the old count), its parent is the compound, and
    the compound is not empty.  Removing a shape that was not in the
    compound before gives the old list back and leaves the shape without a
    parent, whatever parent it had before the add; the evaluation of
    gobj->getBounds() in removeAt returns as well. *)
Theorem GCompound_add_then_remove (h : Heap) (c g : addr) (fuel : nat) :
  let n := Vector.size (contents_of h c) in
  let h1 := state_after (add c (Some g)) h in
  let h2 := state_after (remove c (Some g)) h1 in
  getBounds_returns fuel h1 g = true ->
  add_call fuel c (Some g) h = Some (Ok tt, h1)
  /\ ~ descends h g c
  /\ fst (getElementCount c h1) = Ok (n + 1)%Z
  /\ fst (getElement c n h1) = Ok g
  /\ fst (isEmpty c h1) = Ok false
  /\ parent_of h1 g = Some c
  /\ (forall x, x <> g -> parent_of h1 x = parent_of h x)
  /\ (forall c', c' <> c -> contents_of h1 c' = contents_of h c')
  /\ (g ∉ contents_of h c ->
      succeeds (remove c (Some g)) h1 = true
      /\ getBounds_returns fuel h2 g = true
      /\ contents_of h2 c = contents_of h c
      /\ parent_of h2 g = None
      /\ fst (getElementCount c h2) = Ok n).
Proof.
  intros n h1 h2 Hret.
  assert (E1 : h1 = set_parent g (Some c) (set_contents c (contents_of h c ++ [g]) h))
    by reflexivity.
  assert (C1 : contents_of h1 c = contents_of h c ++ [g]).
  { rewrite E1, contents_of_set_parent, contents_of_set_contents. now rewrite decide_True. }
  assert (Hin : g ∈ contents_of h1 c).
  { rewrite C1, elem_of_app, elem_of_cons. auto. }
  assert (Hacyclic : ~ descends h1 g c).
  { intros Hd. rewrite (getBounds_returns_cycle h1 c g fuel Hd Hin) in Hret.
    discriminate Hret. }
  split.
  { unfold add_call. fold h1. now rewrite Hret. }
  split.
  { intros Hd. apply Hacyclic. apply (descends_mono h h1); [|exact Hd].
    intros x y Hy. subst h1. rewrite add_contents.
    destruct (decide (c = x)) as [<-|]; [|exact Hy]. rewrite elem_of_app. now left. }
  split.
  { unfold getElementCount, gets. cbn [fst]. rewrite C1. unfold Vector.size.
    rewrite length_app. cbn [length]. subst n. unfold Vector.size. f_equal. lia. }
  split.
  { unfold getElement, gets, lift, mbind, stm_bind. cbn [fst]. rewrite C1.
    subst n. unfold Vector.size. apply Vector_get_in_range.
    rewrite lookup_app_r by lia. now rewrite Nat.sub_diag. }
  split.
  { unfold isEmpty, gets. cbn [fst]. rewrite C1. unfold Vector.size. rewrite length_app.
    cbn [length]. f_equal. apply Z.eqb_neq. lia. }
  split; [rewrite E1, parent_of_set_parent; now rewrite decide_True|].
  split.
  { intros x Hx. rewrite E1, parent_of_set_parent, parent_of_set_contents.
    now rewrite decide_False by congruence. }
  split.
  { intros c' Hc'. rewrite E1, contents_of_set_parent, contents_of_set_contents.
    now rewrite decide_False by congruence. }
  intros Hfresh.
  assert (R : remove c (Some g) h1
              = (Ok tt, set_parent g None (set_contents c (contents_of h c ++ []) h1))).
  { apply remove_first; [exact C1|exact Hfresh]. }
  subst h2. unfold succeeds, state_after at 1 2 3 4. rewrite R. cbn [fst snd].
  rewrite app_nil_r.
  split; [reflexivity|].
  split.
  { apply (getBounds_returns_frame h1 _ c fuel g); [|exact Hacyclic|exact Hret].
    intros a Ha. rewrite contents_of_set_parent, contents_of_set_contents.
    now rewrite decide_False by congruence. }
  split; [rewrite contents_of_set_parent, contents_of_set_contents; now rewrite decide_True|].
  split; [rewrite parent_of_set_parent; now rewrite decide_True|].
  unfold getElementCount, gets. cbn [fst].
  rewrite contents_of_set_parent, contents_of_set_contents. now rewrite decide_True.
Qed.

(** A shape that is no compound, added to an empty compound. *)
Lemma GCompound_add_then_remove_witness :
  add_call 1 1%positive (Some 2%positive) empty_heap
  = Some (Ok tt, state_after (add 1%positive (Some 2%positive)) empty_heap).
Proof.
  apply (GCompound_add_then_remove empty_heap 1%positive 2%positive 1).
  reflexivity.
Defined.

(** X24. add(gobj) evaluates gobj->getBounds() before it returns, and
    getBounds of a compound calls getBounds of every child.  When the
    compound is gobj itself or a shape below gobj, the new child closes a
    circle and the evaluation does not return, whatever the number of nested
    calls: c.add(c) never returns.  When it is not, and gobj->getBounds()
    returns in the scene before the call, the call returns, with the child
    appended and its parent set. *)
Theorem GCompound_add_returns_without_cycle (h : Heap) (c g : addr) :
  (descends h g c -> forall fuel, add_call fuel c (Some g) h = None)
  /\ (forall fuel, add_call fuel c (Some c) h = None)
  /\ (~ descends h g c ->
      forall fuel, getBounds_returns fuel h g = true ->
                   add_call fuel c (Some g) h
                   = Some (Ok tt, set_parent g (Some c)
                                    (set_contents c (contents_of h c ++ [g]) h))).
Proof.
  assert (Cycle : forall x, descends h x c -> forall fuel, add_call fuel c (Some x) h = None).
  { intros x Hd fuel. unfold add_call.
    rewrite (getBounds_returns_cycle _ c x fuel); [reflexivity| |].
    - apply (descends_mono h); [|exact Hd].
      intros a y Hy. rewrite add_contents.
      destruct (decide (c = a)) as [<-|]; [|exact Hy]. rewrite elem_of_app. now left.
    - rewrite add_contents, decide_True by reflexivity.
      rewrite elem_of_app, elem_of_cons. auto. }
  split; [apply Cycle|]. split; [apply Cycle; constructor|].
  intros Hd fuel Hret. unfold add_call.
  rewrite (getBounds_returns_frame h _ c fuel g); [reflexivity| |exact Hd|exact Hret].
  intros a Ha. rewrite add_contents. now rewrite decide_False by congruence.
Qed.

(** Two compounds: the second one is in the first, and is asked to take the
    first one as a child. *)
Lemma GCompound_add_returns_without_cycle_witness :
  add_call 1000 2%positive (Some 1%positive)
    (state_after (add 1%positive (Some 2%positive)) empty_heap) = None.
Proof.
  refine (proj1 (GCompound_add_returns_without_cycle
                   (state_after (add 1%positive (Some 2%positive)) empty_heap)
                   2%positive 1%positive) _ 1000%nat).
  apply descends_child with 2%positive; [|constructor].
  rewrite add_contents, decide_True by reflexivity. apply list_elem_of_here.
Defined.

(** X19. What the container rejects, it rejects before changing anything:
    a null pointer given to add, remove or one of the four z-order calls,
    and an index outside 0 .. count - 1 given to removeAt or getElement,
    throw and leave the heap as it was; an index inside the range does not
    throw. *)
Theorem GCompound_rejects_null_and_bad_index (h : Heap) (c : addr) (index : Z) :
  (forall m : addr -> option addr -> Stm Heap unit,
     In m [add; remove; sendBackward; sendForward; sendToBack; sendToFront] ->
     exists msg, m c None h = (ErrorException msg, h))
  /\ (~ (0 <= index < Vector.size (contents_of h c))%Z ->
      (exists msg, removeAt c index h = (ErrorException msg, h))
      /\ (exists msg, getElement c index h = (ErrorException msg, h)))
  /\ ((0 <= index < Vector.size (contents_of h c))%Z ->
      succeeds (removeAt c index) h = true
      /\ exists g, getElement c index h = (Ok g, h)
                   /\ contents_of h c !! Z.to_nat index = Some g
                   /\ parent_of (state_after (removeAt c index) h) g = None).
Proof.
  split; [|split].
  - intros m Hm. cbn [In] in Hm.
    repeat (destruct Hm as [<-|Hm]; [eexists; reflexivity|]). contradiction.
  - intros Hr. split; [now apply removeAt_out_of_range|].
    destruct (Vector_get_out_of_range _ _ Hr) as [msg E]. exists msg.
    unfold getElement, gets, lift, mbind, stm_bind. now rewrite E.
  - intros Hr. destruct (index_split _ _ Hr) as (p & g & q & Hl & ->).
    unfold succeeds, state_after. rewrite (removeAt_middle h c g p q Hl). cbn [fst snd].
    split; [reflexivity|]. exists g.
    unfold getElement, gets, lift, mbind, stm_bind. rewrite Hl, Vector_get_middle.
    split; [reflexivity|]. split.
    + rewrite Nat2Z.id. apply list_lookup_middle. reflexivity.
    + rewrite parent_of_set_parent. now rewrite decide_True.
Qed.

(** ** GCompound: hit testing *)

Lemma getElementAt_loop_first (hit : addr -> bool) (p q : list addr) (g : addr) :
  hit g = true -> (forall a, a ∈ p -> hit a = false) ->
  getElementAt_loop hit (p ++ g :: q) = Some g.
Proof.
  intros Hg Hp. induction p as [|a p IH]; cbn [app getElementAt_loop].
  - now rewrite Hg.
  - rewrite (Hp a) by left. apply IH. intros x Hx. apply Hp. now right.
Qed.

Lemma getElementAt_loop_spec (hit : addr -> bool) (v : list addr) :
  match getElementAt_loop hit v with
  | Some g => exists p q, v = p ++ g :: q /\ hit g = true /\ forall a, a ∈ p -> hit a = false
  | None => forall a, a ∈ v -> hit a = false
  end.
Proof.
  induction v as [|a v IH]; cbn [getElementAt_loop].
  - intros a Ha. now apply elem_of_nil in Ha.
  - destruct (hit a) eqn:Ea.
    + exists [], v. split; [reflexivity|]. split; [exact Ea|].
      intros x Hx. now apply elem_of_nil in Hx.
    + destruct (getElementAt_loop hit v) as [g|].
      * destruct IH as (p & q & -> & Hg & Hp). exists (a :: p), q.
        split; [reflexivity|]. split; [exact Hg|].
        intros x Hx. apply elem_of_cons in Hx as [->|Hx]; [exact Ea|now apply Hp].
      * intros x Hx. apply elem_of_cons in Hx as [->|Hx]; [exact Ea|now apply IH].
Qed.

Lemma contains_loop_getElementAt (hit : addr -> bool) (v : list addr) :
  contains_loop hit v = bool_decide (getElementAt_loop hit v <> None).
Proof.
  induction v as [|a v IH]; cbn [contains_loop getElementAt_loop]; [reflexivity|].
  destruct (hit a); [reflexivity|exact IH].
Qed.

Lemma getElementAt_loop_app_hit (hit : addr -> bool) (v w : list addr) (b : addr) :
  b ∈ v -> hit b = true ->
  exists x, getElementAt_loop hit (v ++ w) = Some x /\ x ∈ v /\ hit x = true.
Proof.
  intros Hb Hhit. induction v as [|a v IH]; [now apply elem_of_nil in Hb|].
  cbn [app getElementAt_loop]. destruct (hit a) eqn:Ea.
  - exists a. split; [reflexivity|]. split; [left|exact Ea].
  - apply elem_of_cons in Hb as [->|Hb]; [congruence|].
    destruct (IH Hb) as (x & E & Hx & Hhx). exists x. split; [exact E|].
    split; [now right|exact Hhx].
Qed.

(** X20. getElementAt returns the hit child of lowest index, that is the
    one furthest back in the z-order, and null when no child is hit;
    contains is true exactly when getElementAt finds a child.  Neither call
    throws or changes the heap. *)
Theorem GCompound_getElementAt_lowest_hit (hit : addr -> bool) (h : Heap) (c : addr) :
  exists r, getElementAt hit c h = (Ok r, h)
            /\ contains hit c h = (Ok (bool_decide (r <> None)), h)
            /\ match r with
               | Some g => exists p q, contents_of h c = p ++ g :: q /\ hit g = true
                                       /\ forall a, a ∈ p -> hit a = false
               | None => forall a, a ∈ contents_of h c -> hit a = false
               end.
Proof.
  exists (getElementAt_loop hit (contents_of h c)).
  split; [reflexivity|]. split.
  - unfold contains, gets, mbind, mret, stm_bind, stm_ret.
    now rewrite contains_loop_getElementAt.
  - apply getElementAt_loop_spec.
Qed.

(** X21. Hit testing against the z-order: a child that is hit is the one
    getElementAt returns once it has been sent to the back; once it has
    been sent to the front (the child occurring once), getElementAt returns
    another child whenever another child is hit. *)
Theorem GCompound_getElementAt_after_reorder (hit : addr -> bool) (h : Heap) (c g : addr)
    (p q : list addr) :
  contents_of h c = p ++ g :: q -> g ∉ p -> g ∉ q -> hit g = true ->
  fst (getElementAt hit c (state_after (sendToBack c (Some g)) h)) = Ok (Some g)
  /\ ((forall a, a ∈ p ++ q -> hit a = false) ->
      fst (getElementAt hit c (state_after (sendToFront c (Some g)) h)) = Ok (Some g))
  /\ (forall b, b ∈ p ++ q -> hit b = true ->
        exists x, fst (getElementAt hit c (state_after (sendToFront c (Some g)) h))
                  = Ok (Some x)
                  /\ x <> g /\ x ∈ p ++ q /\ hit x = true).
Proof.
  intros Hl Hp Hq Hg.
  assert (Front : contents_of (state_after (sendToFront c (Some g)) h) c = (p ++ q) ++ [g]).
  { unfold state_after. rewrite (sendToFront_first h c g p q Hl Hp). cbn [snd].
    destruct q as [|x q].
    - now rewrite Hl, app_nil_r.
    - rewrite contents_of_set_contents, decide_True by reflexivity.
      now rewrite app_assoc. }
  split; [|split].
  - unfold state_after. rewrite (sendToBack_first h c g p q Hl Hp). cbn [snd].
    unfold getElementAt, gets, mbind, mret, stm_bind, stm_ret. cbn [fst]. f_equal.
    destruct p as [|a p].
    + rewrite Hl. apply (getElementAt_loop_first hit [] q g Hg).
      intros x Hx. now apply elem_of_nil in Hx.
    + rewrite contents_of_set_contents, decide_True by reflexivity.
      cbn [getElementAt_loop]. now rewrite Hg.
  - intros Hnone. unfold getElementAt, gets, mbind, mret, stm_bind, stm_ret. cbn [fst].
    rewrite Front. f_equal. now apply getElementAt_loop_first.
  - intros b Hb Hhit.
    destruct (getElementAt_loop_app_hit hit (p ++ q) [g] b Hb Hhit) as (x & E & Hx & Hhx).
    exists x. unfold getElementAt, gets, mbind, mret, stm_bind, stm_ret. cbn [fst].
    rewrite Front, E. split; [reflexivity|]. split; [|split; assumption].
    intros ->. apply elem_of_app in Hx as [Hx|Hx]; contradiction.
Qed.

Lemma GCompound_getElementAt_after_reorder_witness :
  fst (getElementAt (fun _ => true) 1%positive
         (state_after (sendToBack 1%positive (Some 3%positive))
            (state_after (add 1%positive (Some 3%positive))
               (state_after (add 1%positive (Some 2%positive)) empty_heap))))
  = Ok (Some 3%positive).
Proof.
  apply (GCompound_getElementAt_after_reorder (fun _ => true)
           (state_after (add 1%positive (Some 3%positive))
              (state_after (add 1%positive (Some 2%positive)) empty_heap))
           1%positive 3%positive [2%positive] []).
  - reflexivity.
  - rewrite elem_of_cons. intros [H|H]; [discriminate H|now apply elem_of_nil in H].
  - apply not_elem_of_nil.
  - reflexivity.
Defined.

(** ** GCompound: removing every child *)

(** X22. removeAll (and clear, which calls it) empties the compound and
    detaches exactly its former children: afterwards the compound is empty,
    every shape that was in it has no parent, every other shape keeps its
    parent, and the other compounds keep their children.  It never throws. *)
Theorem GCompound_removeAll_detaches (h : Heap) (c : addr) :
  let h' := state_after (removeAll c) h in
  succeeds (removeAll c) h = true
  /\ clear c h = removeAll c h
  /\ contents_of h' c = []
  /\ fst (isEmpty c h') = Ok true
  /\ fst (getElementCount c h') = Ok 0%Z
  /\ (forall g, g ∈ contents_of h c -> parent_of h' g = None)
  /\ (forall g, g ∉ contents_of h c -> parent_of h' g = parent_of h g)
  /\ (forall c', c' <> c -> contents_of h' c' = contents_of h c').
Proof.
  intros h'. subst h'.
  assert (Hclear : clear c h = removeAll c h) by reflexivity. revert Hclear.
  unfold succeeds, state_after. generalize (clear c h). intros cleared Hclear.
  rewrite removeAll_run in Hclear |- *. cbn [fst snd].
  assert (C : contents_of (fold_left (fun h' obj => set_parent obj None h') (contents_of h c)
                                     (set_contents c [] h)) c = []).
  { rewrite clear_parents_contents, contents_of_set_contents. now rewrite decide_True. }
  split; [reflexivity|]. split; [exact Hclear|]. split; [exact C|].
  split; [unfold isEmpty, gets; cbn [fst]; now rewrite C|].
  split; [unfold getElementCount, gets; cbn [fst]; now rewrite C|].
  split; [|split].
  - intros g Hg. rewrite clear_parents_parent. now rewrite decide_True.
  - intros g Hg. rewrite clear_parents_parent, parent_of_set_contents.
    now rewrite decide_False.
  - intros c' Hc'. rewrite clear_parents_contents, contents_of_set_contents.
    now rewrite decide_False by congruence.
Qed.

(** ** GObject: repaint walks up the parent chain *)

Lemma last_cons_default {A} (x d : A) (l : list A) : List.last (x :: l) d = List.last l x.
Proof.
  revert x d. induction l as [|y l IH]; intros x d; [reflexivity|].
  change (List.last (x :: y :: l) d) with (List.last (y :: l) d).
  now rewrite (IH y d), (IH y x).
Qed.

Lemma repaint_loop_ancestors (h : Heap) (l : list addr) (a : addr) (fuel : nat) :
  ancestors h a l -> length l < fuel ->
  GObjectPtr.repaint_loop fuel h a = Some (List.last l a).
Proof.
  revert a fuel. induction l as [|b l IH]; intros a fuel Hl Hf.
  - destruct fuel as [|fuel]; [cbn in Hf; lia|]. cbn [GObjectPtr.repaint_loop ancestors] in *.
    now rewrite Hl.
  - destruct fuel as [|fuel]; [cbn in Hf; lia|].
    destruct Hl as [Hp Hl]. cbn [GObjectPtr.repaint_loop]. rewrite Hp.
    rewrite (IH b fuel Hl) by (cbn [length] in Hf; lia).
    now rewrite last_cons_default.
Qed.

(** X23. repaint of a shape without a parent repaints nothing; for a shape
    whose chain of ancestors ends, the walk ends on the topmost ancestor (as
    soon as the fuel exceeds the length of the chain), and that is the
    compound repainted. *)
Theorem GObject_repaint_reaches_top (h : Heap) (g : addr) (l : list addr) (fuel : nat) :
  ancestors h g l -> length l <= fuel ->
  GObjectPtr.repaint fuel h g
  = Some (match l with [] => None | b :: l' => Some (List.last l' b) end)
  /\ match l with
     | [] => True
     | b :: l' => parent_of h (List.last l' b) = None
     end.
Proof.
  intros Hl Hf. unfold GObjectPtr.repaint. destruct l as [|b l'].
  - cbn [ancestors] in Hl. now rewrite Hl.
  - destruct Hl as [Hp Hl]. rewrite Hp.
    rewrite (repaint_loop_ancestors h l' b fuel Hl) by (cbn [length] in Hf; lia).
    split; [reflexivity|].
    clear Hp Hf. revert b Hl. induction l' as [|x l IH]; intros b Hl.
    + exact Hl.
    + destruct Hl as [_ Hl]. rewrite last_cons_default. exact (IH x Hl).
Qed.

Lemma GObject_repaint_reaches_top_witness :
  GObjectPtr.repaint 2
    (state_after (add 1%positive (Some 2%positive))
       (state_after (add 2%positive (Some 3%positive)) empty_heap))
    3%positive
  = Some (Some 1%positive).
Proof.
  apply (GObject_repaint_reaches_top
           (state_after (add 1%positive (Some 2%positive))
              (state_after (add 2%positive (Some 3%positive)) empty_heap))
           3%positive [2%positive; 1%positive] 2).
  - cbn [ancestors]. repeat split.
  - cbn [length]. lia.
Defined.

(** ** GObject: the z-order calls go through the parent *)

(** X25. sendToFront, sendToBack, sendForward and sendBackward of a shape
    act on the compound its parent pointer names and do nothing for a shape
    without a parent; in every scene they return without throwing, and the
    parent has the same children afterwards, in the same or another order.
    When the parent's list holds the shape, as it does where the parent
    pointers agree with the membership lists, the shape is afterwards the
    last child of its parent (sendToFront) or the first one (sendToBack);
    when it does not, nothing changes. *)
Theorem GObject_z_order_through_parent (h : Heap) (g : addr) :
  match parent_of h g with
  | None =>
      GObjectPtr.sendToFront g h = (Ok tt, h) /\ GObjectPtr.sendToBack g h = (Ok tt, h)
      /\ GObjectPtr.sendForward g h = (Ok tt, h) /\ GObjectPtr.sendBackward g h = (Ok tt, h)
  | Some p =>
      let front := state_after (GObjectPtr.sendToFront g) h in
      let back := state_after (GObjectPtr.sendToBack g) h in
      let forward := state_after (GObjectPtr.sendForward g) h in
      let backward := state_after (GObjectPtr.sendBackward g) h in
      (succeeds (GObjectPtr.sendToFront g) h = true
       /\ succeeds (GObjectPtr.sendToBack g) h = true
       /\ succeeds (GObjectPtr.sendForward g) h = true
       /\ succeeds (GObjectPtr.sendBackward g) h = true)
      /\ (contents_of front p ≡ₚ contents_of h p /\ contents_of back p ≡ₚ contents_of h p
          /\ contents_of forward p ≡ₚ contents_of h p
          /\ contents_of backward p ≡ₚ contents_of h p)
      /\ (g ∈ contents_of h p ->
          last (contents_of front p) = Some g /\ head (contents_of back p) = Some g)
      /\ (g ∉ contents_of h p -> front = h /\ back = h /\ forward = h /\ backward = h)
      /\ (agrees h -> g ∈ contents_of h p)
  end.
Proof.
  destruct (parent_of h g) as [p|] eqn:Hp.
  - assert (F : GObjectPtr.sendToFront g h = sendToFront p (Some g) h)
      by (unfold GObjectPtr.sendToFront, gets, mbind, stm_bind; now rewrite Hp).
    assert (B : GObjectPtr.sendToBack g h = sendToBack p (Some g) h)
      by (unfold GObjectPtr.sendToBack, gets, mbind, stm_bind; now rewrite Hp).
    assert (Fw : GObjectPtr.sendForward g h = sendForward p (Some g) h)
      by (unfold GObjectPtr.sendForward, gets, mbind, stm_bind; now rewrite Hp).
    assert (Bw : GObjectPtr.sendBackward g h = sendBackward p (Some g) h)
      by (unfold GObjectPtr.sendBackward, gets, mbind, stm_bind; now rewrite Hp).
    cbv zeta. unfold succeeds, state_after. rewrite F, B, Fw, Bw.
    destruct (findGObject_from_spec (contents_of h p) g 0 ltac:(lia))
      as [[Hn _]|(p0 & q0 & Hl & Hp0 & _)].
    + rewrite (sendToFront_absent h p g Hn), (sendToBack_absent h p g Hn),
        (sendForward_absent h p g Hn), (sendBackward_absent h p g Hn).
      cbn [fst snd]. split; [repeat split|]. split; [repeat split; reflexivity|].
      split; [intros Hin; contradiction|]. split; [intros _; repeat split|].
      intros Ha. now apply Ha.
    + assert (Hin : g ∈ contents_of h p).
      { rewrite Hl, elem_of_app, elem_of_cons. auto. }
      rewrite (sendToFront_first h p g p0 q0 Hl Hp0), (sendToBack_first h p g p0 q0 Hl Hp0),
        (sendForward_first h p g p0 q0 Hl Hp0), (sendBackward_first h p g p0 q0 Hl Hp0).
      cbn [fst snd].
      split; [repeat split|].
      split; [split; [|split; [|split]]|].
      * destruct q0 as [|x q0]; [reflexivity|].
        rewrite contents_of_set_contents, decide_True by reflexivity.
        rewrite Hl. apply Permutation_app_head. symmetry.
        apply (Permutation_cons_append (x :: q0) g).
      * destruct p0 as [|x p0]; [reflexivity|].
        rewrite contents_of_set_contents, decide_True by reflexivity.
        rewrite Hl. apply (Permutation_middle (x :: p0) q0 g).
      * destruct q0 as [|x q0]; [reflexivity|].
        rewrite contents_of_set_contents, decide_True by reflexivity.
        rewrite Hl, insert_Permutation. apply Permutation_middle.
      * destruct p0 as [|x p0]; [reflexivity|].
        rewrite contents_of_set_contents, decide_True by reflexivity.
        rewrite Hl, insert_Permutation. apply (Permutation_middle (x :: p0) q0 g).
      * split; [intros _; split|split; [intros Hn; contradiction|intros _; exact Hin]].
        -- destruct q0 as [|x q0].
           ++ rewrite Hl. apply last_snoc.
           ++ rewrite contents_of_set_contents, decide_True by reflexivity.
              rewrite (app_assoc p0 (x :: q0) [g]). apply last_snoc.
        -- destruct p0 as [|x p0]; [now rewrite Hl|].
           now rewrite contents_of_set_contents, decide_True.
  - repeat split.
    + unfold GObjectPtr.sendToFront, gets, mbind, stm_bind. now rewrite Hp.
    + unfold GObjectPtr.sendToBack, gets, mbind, stm_bind. now rewrite Hp.
    + unfold GObjectPtr.sendForward, gets, mbind, stm_bind. now rewrite Hp.
    + unfold GObjectPtr.sendBackward, gets, mbind, stm_bind. now rewrite Hp.
Qed.

(** A scene in which the parent pointer of shape 3 names compound 5 while
    it is compound 1 that lists it: nothing is thrown and nothing changes. *)
Lemma GObject_z_order_through_parent_witness :
  succeeds (GObjectPtr.sendToFront 3%positive)
    (set_parent 3%positive (Some 5%positive)
       (state_after (add 1%positive (Some 3%positive)) empty_heap)) = true.
Proof.
  apply (GObject_z_order_through_parent
           (set_parent 3%positive (Some 5%positive)
              (state_after (add 1%positive (Some 3%positive)) empty_heap))
           3%positive).
Defined.

(** ** GArc: angles and the full turn *)



Lemma std_min_left (a b : Q) : (a <= b)%Q -> std_min a b = a.
Proof. intros H. unfold std_min. destruct (Qltb_spec b a); [lra|reflexivity]. Qed.

Lemma std_max_left (a b : Q) : (b <= a)%Q -> std_max a b = a.
Proof. intros H. unfold std_max. destruct (Qltb_spec a b); [lra|reflexivity]. Qed.

Lemma containsAngle_full_turn (a : GArc.t) (theta : Q) :
  (360 <= Qabs (GArc._sweep a))%Q -> GArc.containsAngle a theta = true.
Proof.
  intros H. unfold GArc.containsAngle.
  destruct (Qleb_spec 360 (Qabs (GArc._sweep a))); [reflexivity|contradiction].
Qed.

Section GArcFullTurn.
Import PrimFloat.

(** X26. With doubles read as exact rationals (no rounding, no overflow, no
    NaN), an arc that sweeps a full turn (|sweep| >= 360) contains every
    angle; if it is filled, it contains the points its oval contains:
    contains agrees with GOval::contains on the same frame at every point,
    whatever atan2 returns; its bounds are its frame (for a frame of
    non-negative size), whatever cos and sin return.  In binary64 the bounds
    are computed from the centre and can differ from the frame in the last
    place: for the frame (1, 0, 0.1, 1) the width returned is
    0.10000000000000009. *)
Theorem GArc_full_turn_is_oval (a : GArc.t) (x y theta : Q) :
  ((360 <= Qabs (GArc._sweep a))%Q ->
   GArc.containsAngle a theta = true
  /\ (GObject.isFilled (GArc.obj a) = true ->
      forall atan2_degrees, GArc.contains atan2_degrees a x y = GOval.contains (GArc.obj a) x y)
  /\ ((0 <= GObject.getWidth (GArc.obj a))%Q -> (0 <= GObject.getHeight (GArc.obj a))%Q ->
      forall (cos sin : Q -> Q) (PI : Q),
        let b := GArc.getBounds cos sin PI a in
        (GRectangle.getX b == GObject.getX (GArc.obj a))%Q
        /\ (GRectangle.getY b == GObject.getY (GArc.obj a))%Q
        /\ (GRectangle.getWidth b == GObject.getWidth (GArc.obj a))%Q
        /\ (GRectangle.getHeight b == GObject.getHeight (GArc.obj a))%Q))
  /\ (forall (cos sin : float -> float) (fmod : float -> float -> float) (PI : float),
        Binary64.GArc.getBounds cos sin fmod PI
          (Binary64.GArc.mk (Binary64.GObject.new 1 0 0x1.999999999999ap-4 1) 0 360)
        = Binary64.GRectangle.mk 1 0 0x1.99999999999a0p-4 1).
Proof.
  split; [|intros cos sin fmod PI; vm_compute; reflexivity].
  intros Hs. split; [now apply containsAngle_full_turn|]. split.
  - intros Hf f. unfold GArc.contains, GOval.contains. rewrite Hf.
    destruct (floatingPointEqual (GObject.getWidth (GArc.obj a) / 2) 0) eqn:Ex; [reflexivity|].
    destruct (floatingPointEqual (GObject.getHeight (GArc.obj a) / 2) 0) eqn:Ey; [reflexivity|].
    cbn [orb].
    pose proof (floatingPointEqual_false_nonzero _ Ex) as Nx.
    pose proof (floatingPointEqual_false_nonzero _ Ey) as Ny.
    rewrite !divide_nonzero by (try apply Qsquare_nonzero; assumption).
    cbn [mbind outcome_bind mret outcome_ret].
    rewrite containsAngle_full_turn by exact Hs.
    unfold Qltb. now destruct (Qle_bool _ 1).
  - intros Hw Hh cos sin PI b. subst b. unfold GArc.getBounds. cbv zeta.
    rewrite !containsAngle_full_turn by exact Hs.
    set (rx := (GObject.getWidth (GArc.obj a) / 2)%Q).
    set (ry := (GObject.getHeight (GArc.obj a) / 2)%Q).
    assert (Ex : (rx + rx == GObject.getWidth (GArc.obj a))%Q) by (subst rx; field).
    assert (Ey : (ry + ry == GObject.getHeight (GArc.obj a))%Q) by (subst ry; field).
    assert (Hrx : (0 <= rx)%Q) by lra.
    assert (Hry : (0 <= ry)%Q) by lra.
    set (cx := (GObject.getX (GArc.obj a) + rx)%Q).
    set (cy := (GObject.getY (GArc.obj a) + ry)%Q).
    assert (M1 : std_min (cx - rx) cx = (cx - rx)%Q) by (apply std_min_left; lra).
    assert (M2 : std_min (cy - ry) cy = (cy - ry)%Q) by (apply std_min_left; lra).
    assert (M3 : std_max (cx + rx) cx = (cx + rx)%Q) by (apply std_max_left; lra).
    assert (M4 : std_max (cy + ry) cy = (cy + ry)%Q) by (apply std_max_left; lra).
    destruct (GObject.isFilled (GArc.obj a));
      cbn [GRectangle.getX GRectangle.getY GRectangle.getWidth GRectangle.getHeight];
      rewrite ?M1, ?M2, ?M3, ?M4; subst cx cy; repeat split; lra.
Qed.

Lemma GArc_full_turn_is_oval_witness :
  GArc.containsAngle (GArc.mk (GObject.new 0 0 10 6) 0 360) 45 = true.
Proof.
  apply (proj1 (GArc_full_turn_is_oval (GArc.mk (GObject.new 0 0 10 6) 0 360) 0 0 45)).
  discriminate.
Defined.

End GArcFullTurn.


